(** * Mic Buddy: the connection manager and the presentation engine

    A shallow embedding of [src/mic_buddy.py] and the properties its
    specification states about it.

    The program, first:
    - [OBS]: [OBSManager] — the tick loop, [_connect], [_disconnect],
      [_poll_mute].  The manager's fields, the callbacks it fires and the
      sessions it opens and releases are one explicit state, threaded through
      a small state monad.
    - [Overlay]: [OverlayWindow] — [show], [hide], [set_state], [_animate],
      [_lerp_colour].  Python's [float] is IEEE-754 binary64; it is modelled
      by Rocq's primitive binary64 floats, so every run of the model computes
      the very numbers the program computes.
    - [Probe]: [_obs_running], the scan of the process list.
    - [App]: [MicBuddyApp] — the coordinator's callbacks and Tk's idle queue.
    - [Config]: [load_config], [save_config], [_save_position] and the
      position restored by [OverlayWindow.__init__].
    - [B64]: the rational number a float stands for.

    Then what holds of it:
    - [OBSFacts]: the microphone filter, the poll, one tick, and the
      invariant of the loop.
    - [OverlayFacts], [AppFacts]: [set_state], the breathing phase, the
      handling of a connectivity signal.
    - [B64Facts]: addition, subtraction, multiplication and comparison of
      floats, read as numbers — derived from the Standard Library's
      specification of the primitive operations.
    - [FadeFacts]: the fade of the displayed level toward its target.
    - [ColourFacts]: the blend of two colours.
    - [ManagerFacts]: the process probe, what the callbacks say about the
      manager, [stop], and the passes that lose or regain the host.
    - [OverlayRunFacts]: what every reachable overlay satisfies, one frame of
      the fade, and the colours [_draw_face] computes.
    - [ColourEdgeFacts]: what [_lerp_colour] reads and when it raises.
    - [CoordinatorFacts]: the coordinator catching up with the manager.
    - [ConfigFacts]: the saved position. *)

From Stdlib Require Import List Bool Arith ZArith Lia String Ascii Permutation.
From Stdlib Require Import QArith Qabs Qround Qpower Lqa.
From Stdlib Require Import Uint63 Floats.
Import ListNotations.

Set Implicit Arguments.
Close Scope Q_scope.

(* ================================================================== *)
(** * Python values used by the model                                  *)
(* ================================================================== *)

(** The outcome of a call that may raise: the code only ever catches
    [Exception] wholesale, so one constructor stands for every exception. *)
Inductive exc (A : Type) : Type :=
| Ok (a : A)
| Raise.
Arguments Raise {A}.

(** A dictionary entry read with [d.get(key, default)]: the key is missing,
    maps to [None], or maps to a string. *)
Inductive field : Type :=
| Absent
| Null
| Str (s : string).

(** [k in s] on Python strings: [k] occurs in [s] as a contiguous run. *)
Fixpoint contains (k s : string) : bool :=
  if String.prefix k s then true
  else match s with
       | EmptyString => false
       | String _ s' => contains k s'
       end.

(* ================================================================== *)
(** * OBSManager                                                       *)
(* ================================================================== *)

Module OBS.

Open Scope string_scope.

(** One element of [resp.inputs]: a dict of which the code reads the keys
    ["inputKind"] and ["inputName"]. *)
Record input : Type := mkInput {
  inputKind : field;
  inputName : field
}.

(** [kind = inp.get("inputKind", "") or ""] *)
Definition kind_of (inp : input) : string :=
  match inputKind inp with
  | Str s => s
  | Absent | Null => ""
  end.

(** [name = inp.get("inputName", "")]: a missing key gives [""], a key mapped
    to [None] gives [None]. *)
Definition name_of (inp : input) : option string :=
  match inputName inp with
  | Str s => Some s
  | Absent => Some ""
  | Null => None
  end.

(** The tuple of markers tested in [_poll_mute]. *)
Definition mic_markers : list string :=
  [ "wasapi_input"; "pulse_input"; "coreaudio_input";
    "alsa_input"; "jack_input"; "audio_input" ].

(** [any(k in kind for k in (...))] *)
Definition is_mic (inp : input) : bool :=
  existsb (fun k => contains k (kind_of inp)) mic_markers.

(** The protocol client as one poll sees it.  [get_input_list] raises or
    returns a response which has an [inputs] attribute ([Some l]) or lacks it
    ([None]); [get_input_mute name] raises or returns the [input_muted]
    flag. *)
Record Server : Type := mkServer {
  get_input_list : exc (option (list input));
  get_input_mute : option string -> exc bool
}.

(** A session handle returned by [obsws.ReqClient(...)]. *)
Definition Conn : Type := nat.

(** What the manager does that the rest of the world can see: the two
    callbacks, and the sessions it opens ([ReqClient(...)] returned) and
    releases ([_disconnect] closed and dropped the handle). *)
Inductive event : Type :=
| OnConn (connected : bool)
| OnState (all_live : bool)
| Opened (c : Conn)
| Released (c : Conn).

(** The fields of [OBSManager] that the loop reads and writes, and the log of
    events so far, oldest first. *)
Record World : Type := mkWorld {
  _ws : option Conn;
  _connected : bool;
  trace : list event
}.

(** [__init__]: no handle, not connected, nothing has happened yet. *)
Definition init : World := mkWorld None false [].

(** ** A state monad over [World] *)

Definition M (A : Type) : Type := World -> A * World.

Definition ret {A} (a : A) : M A := fun w => (a, w).
Definition bind {A B} (m : M A) (k : A -> M B) : M B :=
  fun w => let (a, w') := m w in k a w'.

Declare Scope obs_scope.
Delimit Scope obs_scope with obs.
Notation "x <- m ;; k" := (bind m (fun x => k))
  (at level 61, m at next level, right associativity) : obs_scope.
Notation "m ;; k" := (bind m (fun _ => k))
  (at level 61, right associativity) : obs_scope.
Open Scope obs_scope.

Definition get_ws : M (option Conn) := fun w => (_ws w, w).
Definition get_connected : M bool := fun w => (_connected w, w).
Definition set_ws (v : option Conn) : M unit :=
  fun w => (tt, mkWorld v (_connected w) (trace w)).
Definition set_connected (b : bool) : M unit :=
  fun w => (tt, mkWorld (_ws w) b (trace w)).
Definition log (e : event) : M unit :=
  fun w => (tt, mkWorld (_ws w) (_connected w) (trace w ++ [e])).

Definition _on_conn (b : bool) : M unit := log (OnConn b).
Definition _on_state (b : bool) : M unit := log (OnState b).

(** What one call of [_connect] meets: the client library was not importable
    ([obsws is None]), [ReqClient(...)] raised, or it returned a session. *)
Inductive handshake : Type :=
| NoClientLibrary
| Refused
| Accepted (c : Conn).

Definition _connect (h : handshake) : M unit :=
  match h with
  | NoClientLibrary => ret tt
  | Accepted c =>
      log (Opened c) ;;
      set_ws (Some c) ;;
      set_connected true ;;
      _on_conn true
  | Refused =>
      set_ws None ;;
      set_connected false
  end.

(** [ws.base_client.ws.close()] is wrapped in a [try]: whether or not it
    raises, the handle is dropped, which is what [Released] records. *)
Definition _disconnect : M unit :=
  set_connected false ;;
  ws <- get_ws ;;
  set_ws None ;;
  match ws with
  | Some c => log (Released c)
  | None => ret tt
  end ;;
  _on_conn false.

(** The inner [for inp in mic_inputs] loop with its [try]/[except] and
    [break]: the value of [all_live] when the loop ends. *)
Fixpoint all_live_loop (srv : Server) (mic_inputs : list input) : bool :=
  match mic_inputs with
  | [] => true
  | inp :: rest =>
      let muted := match get_input_mute srv (name_of inp) with
                   | Ok m => m
                   | Raise => true
                   end in
      if muted then false else all_live_loop srv rest
  end.

(** [_poll_mute]: [None] is Python's [None]. *)
Definition _poll_mute (srv : Server) : M (option bool) :=
  ws <- get_ws ;;
  match ws with
  | None => ret None
  | Some _ =>
      match get_input_list srv with
      | Raise => _disconnect ;; ret None
      | Ok resp =>
          let inputs := match resp with Some l => l | None => [] end in
          let mic_inputs := filter is_mic inputs in
          match mic_inputs with
          | [] => ret (Some false)
          | _ :: _ => ret (Some (all_live_loop srv mic_inputs))
          end
      end
  end.

(** What one pass of the [while] loop meets: the process probe's answer, the
    outcomes of the (at most two) calls of [_connect], and the server the poll
    talks to. *)
Record Tick : Type := mkTick {
  obs_up : bool;
  handshake1 : handshake;
  handshake2 : handshake;
  server : Server
}.

Definition when (b : bool) (m : M unit) : M unit := if b then m else ret tt.

(** The body of [while self._running] in [_loop], up to [time.sleep(1)];
    it returns the new value of [was_obs_running]. *)
Definition loop_body (t : Tick) (was_obs_running : bool) : M bool :=
  let obs_up := obs_up t in
  connected <- get_connected ;;
  (if obs_up && negb connected then _connect (handshake1 t)
   else if negb obs_up && connected then _disconnect
   else ret tt) ;;
  when (negb obs_up && was_obs_running) (_on_conn false) ;;
  when (obs_up && negb was_obs_running)
       (connected <- get_connected ;;
        when (negb connected) (_connect (handshake2 t))) ;;
  connected <- get_connected ;;
  when connected
       (result <- _poll_mute (server t) ;;
        match result with
        | Some r => _on_state r
        | None => ret tt
        end) ;;
  ret obs_up.

(** [_loop] over the ticks it gets to run before [_running] is cleared. *)
Fixpoint loop_from (ticks : list Tick) (was_obs_running : bool) : M bool :=
  match ticks with
  | [] => ret was_obs_running
  | t :: rest =>
      was <- loop_body t was_obs_running ;;
      loop_from rest was
  end.

Definition _loop (ticks : list Tick) : M bool := loop_from ticks false.

(** ** Reading the log *)

(** The sessions that are open after a log: opened and not released since. *)
Definition after_event (open : list Conn) (e : event) : list Conn :=
  match e with
  | Opened c => open ++ [c]
  | Released c => remove Nat.eq_dec c open
  | OnConn _ | OnState _ => open
  end.

Definition sessions (tr : list event) : list Conn :=
  fold_left after_event tr [].

(** The handle the manager holds, as a list of at most one session. *)
Definition held (w : World) : list Conn :=
  match _ws w with
  | Some c => [c]
  | None => []
  end.

(** After every prefix of the log at most one session is open, and a session
    is opened only when none is. *)
Definition one_at_a_time (tr : list event) : Prop :=
  forall n,
    (List.length (sessions (firstn n tr)) <= 1)%nat /\
    (forall c, nth_error tr n = Some (Opened c) -> sessions (firstn n tr) = []).

(** The manager's fields agree with the log: the open sessions are the one
    handle it holds, and [_connected] says whether it holds one. *)
Definition consistent (w : World) : Prop :=
  one_at_a_time (trace w) /\
  sessions (trace w) = held w /\
  _connected w = match _ws w with Some _ => true | None => false end.

(** ** The specification's reading of an input, to compare the code with *)

(** A microphone-kind input: its ["inputKind"] is a string that contains one
    of the six markers as a contiguous run. *)
Definition spec_microphone (inp : input) : Prop :=
  exists s k pre post,
    inputKind inp = Str s /\
    (k = "wasapi_input" \/ k = "pulse_input" \/ k = "coreaudio_input" \/
     k = "alsa_input" \/ k = "jack_input" \/ k = "audio_input") /\
    s = pre ++ k ++ post.

(** An input reports unmuted: the mute query made under the value of its own
    ["inputName"] key (the empty string when the key is missing, [None] when
    it maps to [None]) answers, and answers [False]. *)
Definition spec_reports_unmuted (mute : option string -> exc bool)
    (inp : input) : Prop :=
  mute (match inputName inp with
        | Str s => Some s
        | Absent => Some ""
        | Null => None
        end) = Ok false.

(** The microphone inputs of a poll all answer, and answer unmuted. *)
Definition all_unmuted (mute : option string -> exc bool) (mics : list input) : Prop :=
  forall inp, In inp mics -> mute (name_of inp) = Ok false.

(** ** The rest of the manager's interface *)

(** [stop], on the caller's thread: [_running = False], then [_disconnect]
    at once.  [stop] does not wait for the loop's thread, and the loop reads
    [_running] only at the top of a pass: a pass that has begun runs to its
    end, whatever [stop] did meanwhile, and no other pass begins. *)
Definition stop : M unit := _disconnect.

(** Two of the schedules the two threads admit.  [stop] arrives while the
    loop sleeps after [ticks] passes: the loop wakes, finds [_running]
    cleared and ends. *)
Definition stop_between_passes (ticks : list Tick) : M unit :=
  _loop ticks ;; stop.

(** [stop] arrives when the loop has just read [_running] at the top of the
    pass [t], and runs before the first statement of that pass: the whole
    pass comes after [_disconnect], and is the last. *)
Definition stop_as_pass_begins (ticks : list Tick) (t : Tick) : M bool :=
  was <- _loop ticks ;; stop ;; loop_body t was.

(** The [connected] property. *)
Definition connected (w : World) : bool := _connected w.

(** What the connectivity callback said last, [false] before its first
    call. *)
Definition last_conn (tr : list event) : bool :=
  fold_left (fun b e => match e with OnConn c => c | _ => b end) tr false.

Definition is_on_state (e : event) : bool :=
  match e with OnState _ => true | _ => false end.

(** Every state callback of the log came while the last connectivity callback
    before it had said [true]. *)
Definition state_only_when_connected (tr : list event) : Prop :=
  forall n b, nth_error tr n = Some (OnState b) -> last_conn (firstn n tr) = true.

(** ** Reasoning about what the manager does *)

(** From a world where [P] holds, [m] ends with a result and a world that
    satisfy [Q]. *)
Definition hoare {A} (P : World -> Prop) (m : M A) (Q : A -> World -> Prop) : Prop :=
  forall w, P w -> Q (fst (m w)) (snd (m w)).

(** The flag is what the coordinator was last told, and the coordinator was
    told about the microphones only while it believed the manager
    connected. *)
Definition told (w : World) : Prop :=
  _connected w = last_conn (trace w) /\ state_only_when_connected (trace w).

(** [told], and a manager that found the host absent in this pass is not
    connected. *)
Definition down_means_off (t : Tick) (w : World) : Prop :=
  told w /\ (obs_up t = false -> _connected w = false).

End OBS.

(* ================================================================== *)
(** * Python numbers and text used by the overlay                      *)
(* ================================================================== *)

(** [float(z)] for a Python [int] of fewer than 63 bits (every integer the
    overlay converts is a colour channel or the difference of two).  The
    conversion rounds to nearest, and is exact below 2^53. *)
Definition float_of_int (z : Z) : float :=
  match z with
  | Z0 => PrimFloat.zero
  | Zpos _ => of_uint63 (Uint63.of_Z z)
  | Zneg _ => (- of_uint63 (Uint63.of_Z (- z)))%float
  end.

(** [int(x)] for a Python [float]: the integer part, rounded toward zero;
    [None] where Python raises (on a NaN or an infinity). *)
Definition int_of_float (x : float) : option Z :=
  match Prim2SF x with
  | S754_zero _ => Some 0%Z
  | S754_finite s m e =>
      Some (cond_Zopp s (if (0 <=? e)%Z then Zpos m * 2 ^ e
                         else Zpos m / 2 ^ (- e)))%Z
  | S754_infinity _ | S754_nan => None
  end.

(** The value of one hexadecimal digit, either case. *)
Definition hex_value (c : ascii) : option Z :=
  let n := Z.of_nat (nat_of_ascii c) in
  if ((48 <=? n) && (n <=? 57))%Z then Some (n - 48)%Z
  else if ((97 <=? n) && (n <=? 102))%Z then Some (n - 87)%Z
  else if ((65 <=? n) && (n <=? 70))%Z then Some (n - 55)%Z
  else None.

Fixpoint int16_from (acc : Z) (s : string) : option Z :=
  match s with
  | EmptyString => Some acc
  | String c s' =>
      match hex_value c with
      | Some d => int16_from (16 * acc + d)%Z s'
      | None => None
      end
  end.

(** [int(s, 16)] on a non-empty run of ASCII hexadecimal digits.  [None]
    is every other text: Python raises [ValueError] on most of them (the empty
    slice of a short string among them) and accepts a few more spellings (a
    sign or blanks around the digits), which no colour of the program has. *)
Definition int16 (s : string) : option Z :=
  match s with
  | EmptyString => None
  | String _ _ => int16_from 0 s
  end.

(** The lowercase digit of a value below 16. *)
Definition hex_char (d : Z) : ascii :=
  if (d <? 10)%Z then ascii_of_nat (Z.to_nat (48 + d))
  else ascii_of_nat (Z.to_nat (87 + d)).

Fixpoint hex_digits (fuel : nat) (z : Z) (acc : string) : string :=
  match fuel with
  | O => acc
  | S fuel' =>
      let acc' := String (hex_char (z mod 16)) acc in
      if (z / 16 =? 0)%Z then acc' else hex_digits fuel' (z / 16) acc'
  end.

(** [format(z, "x")] for [0 <= z]. *)
Definition hex_lower (z : Z) : string :=
  hex_digits (S (Z.to_nat (Z.log2 z))) z EmptyString.

(** [f"{z:02x}"]: lowercase, zero-padded to two characters, the sign of a
    negative number counting as one of them. *)
Definition format_02x (z : Z) : string :=
  if (z <? 0)%Z then String "-"%char (hex_lower (- z))
  else let s := hex_lower z in
       if (String.length s <? 2)%nat then String "0"%char s else s.

(** A hexadecimal digit, either case. *)
Definition is_hex (c : ascii) : bool :=
  match hex_value c with Some _ => true | None => false end.

(** A valid colour: a hash sign and six hexadecimal digits. *)
Definition valid_colour (c : string) : bool :=
  match c with
  | String h (String a (String b (String c0 (String d (String e (String f EmptyString)))))) =>
      Ascii.eqb h "#" && is_hex a && is_hex b && is_hex c0 &&
      is_hex d && is_hex e && is_hex f
  | _ => false
  end.

(** [str.lower()] on ASCII text. *)
Definition lower_ascii (c : ascii) : ascii :=
  let n := nat_of_ascii c in
  if ((65 <=? n) && (n <=? 90))%nat then ascii_of_nat (n + 32) else c.

Fixpoint lowercase (s : string) : string :=
  match s with
  | EmptyString => EmptyString
  | String c s' => String (lower_ascii c) (lowercase s')
  end.

(** [x] lies between [a] and [b], whichever of the two is the larger. *)
Definition between (a x b : Z) : Prop := (Z.min a b <= x <= Z.max a b)%Z.

(** The 256 characters, and what is checked of each: a hexadecimal digit is
    worth less than 16, and printing its value gives the digit back in
    lowercase. *)
Definition all_ascii : list ascii := map ascii_of_nat (seq 0 256).

Definition hex_digit_ok (c : ascii) : bool :=
  match hex_value c with
  | Some v =>
      ((0 <=? v) && (v <? 16))%Z && Ascii.eqb (hex_char v) (lower_ascii c) &&
      match hex_value (hex_char v) with Some w => (w =? v)%Z | None => false end &&
      Ascii.eqb (lower_ascii (hex_char v)) (hex_char v)
  | None => true
  end.

(* ================================================================== *)
(** * The process probe                                                *)
(* ================================================================== *)

Module Probe.

Open Scope string_scope.

(** One process of [psutil.process_iter(["name"])] as the probe meets it:
    reading its name raises [NoSuchProcess] or [AccessDenied], or gives
    [None] or a string. *)
Definition process : Type := exc (option string).

Definition obs_names : list string :=
  [ "obs64.exe"; "obs32.exe"; "obs.exe"; "obs64"; "obs32"; "obs" ].

(** [name in (...)]: equality with one of the six names. *)
Definition is_obs_name (name : string) : bool :=
  existsb (String.eqb name) obs_names.

(** [_obs_running].  The names are compared after [str.lower()], modelled on
    ASCII letters: no other letter lowercases to a character of the six
    names. *)
Fixpoint _obs_running (ps : list process) : bool :=
  match ps with
  | [] => false
  | p :: rest =>
      match p with
      | Ok (Some name) =>
          if negb (name =? "") && is_obs_name (lowercase name) then true
          else _obs_running rest
      | Ok None => _obs_running rest
      | Raise => _obs_running rest
      end
  end.

End Probe.

(* ================================================================== *)
(** * OverlayWindow                                                    *)
(* ================================================================== *)

Module Overlay.

Open Scope float_scope.

(** Calls made on the Tk root window, in order. *)
Inductive wm_call : Type :=
| Withdraw
| Deiconify
| Lift
| Topmost.

(** The fields of [OverlayWindow] written after construction.  [wm] logs the
    window-manager calls made on [self.root]; [painted] counts the frames
    [_draw_face] has painted ([_draw_face] reads [_display_live] and
    [_breathe_t], paints the canvas and writes no field). *)
Record OverlayWindow : Type := mkOverlay {
  _visible : bool;
  _all_live : bool;
  _display_live : float;
  _target_live : float;
  _breathe_t : float;
  _drag_start_x : Z;
  _drag_start_y : Z;
  wm : list wm_call;
  painted : nat
}.

Definition ANIM_FPS : Z := 30.

(** [dt = 1.0 / self.ANIM_FPS] *)
Definition dt : float := 1 / float_of_int ANIM_FPS.

(** [fade_speed = 3.0  # per second] *)
Definition fade_speed : float := 3.

(** [step = fade_speed * dt] *)
Definition step : float := fade_speed * dt.

(** The exact value of [step], a little above one tenth, and the spacing of
    the binary64 numbers between 1 and 2 (no smaller than the spacing
    anywhere below). *)
Definition step_q : Q := (3602879701896397 # 36028797018963968)%Q.
Definition ulp1 : Q := (1 # 4503599627370496)%Q.

Definition show (o : OverlayWindow) : OverlayWindow :=
  if negb (_visible o) then
    mkOverlay true (_all_live o) (_display_live o) (_target_live o)
              (_breathe_t o) (_drag_start_x o) (_drag_start_y o)
              (wm o ++ [Deiconify; Lift; Topmost]) (painted o)
  else o.

Definition hide (o : OverlayWindow) : OverlayWindow :=
  if _visible o then
    mkOverlay false (_all_live o) (_display_live o) (_target_live o)
              (_breathe_t o) (_drag_start_x o) (_drag_start_y o)
              (wm o ++ [Withdraw]) (painted o)
  else o.

Definition set_state (all_live : bool) (o : OverlayWindow) : OverlayWindow :=
  mkOverlay (_visible o) all_live (_display_live o)
            (if all_live then 1 else 0)
            (_breathe_t o) (_drag_start_x o) (_drag_start_y o)
            (wm o) (painted o).

(** The new [_display_live] computed by [_animate]. *)
Definition fade (target display : float) : float :=
  let diff := target - display in
  if abs diff <? step then target
  else display + (if 0 <? diff then step else - step).

(** One run of [_animate], up to the [root.after] that schedules the next. *)
Definition _animate (o : OverlayWindow) : OverlayWindow :=
  mkOverlay (_visible o) (_all_live o)
            (fade (_target_live o) (_display_live o))
            (_target_live o)
            (_breathe_t o + dt)
            (_drag_start_x o) (_drag_start_y o)
            (wm o)
            (if _visible o then S (painted o) else painted o).

(** The fields as [__init__] sets them, before its last line. *)
Definition created : OverlayWindow :=
  mkOverlay false false 0 0 0 0%Z 0%Z [Topmost; Withdraw] 0.

(** [__init__], which ends with a first call of [_animate]. *)
Definition init : OverlayWindow := _animate created.

(** What can happen to the overlay on the Tk thread. *)
Inductive call : Type :=
| Animate
| Show
| Hide
| SetState (all_live : bool).

Definition perform (o : OverlayWindow) (c : call) : OverlayWindow :=
  match c with
  | Animate => _animate o
  | Show => show o
  | Hide => hide o
  | SetState b => set_state b o
  end.

Definition run (calls : list call) (o : OverlayWindow) : OverlayWindow :=
  fold_left perform calls o.

(** The number of timer ticks among the calls. *)
Definition ticks (calls : list call) : nat :=
  List.length (filter (fun c => match c with Animate => true | _ => false end) calls).

(** [n] timer ticks in a row. *)
Definition frames (n : nat) (o : OverlayWindow) : OverlayWindow :=
  Nat.iter n _animate o.

(** [c[1:3]], [c[3:5]], [c[5:7]] read as hexadecimal. *)
Definition channels (c : string) : option (Z * Z * Z) :=
  match int16 (substring 1 2 c), int16 (substring 3 2 c), int16 (substring 5 2 c) with
  | Some r, Some g, Some b => Some (r, g, b)
  | _, _, _ => None
  end.

(** [int(a + (b - a) * t)] *)
Definition lerp_channel (a b : Z) (t : float) : option Z :=
  int_of_float (float_of_int a + float_of_int (b - a) * t).

(** [_lerp_colour]; [None] where the Python raises. *)
Definition _lerp_colour (c1 c2 : string) (t : float) : option string :=
  match channels c1, channels c2 with
  | Some (r1, g1, b1), Some (r2, g2, b2) =>
      match lerp_channel r1 r2 t, lerp_channel g1 g2 t, lerp_channel b1 b2 t with
      | Some r, Some g, Some b =>
          Some (String "#"%char (format_02x r ++ format_02x g ++ format_02x b))%string
      | _, _, _ => None
      end
  | _, _ => None
  end.

Definition PINK : string := "#FF69B4".
Definition PINK_DARK : string := "#E0559E".
Definition PURPLE : string := "#9B59B6".
Definition PURPLE_DARK : string := "#7D3C98".


(** ** The window and the canvas *)

(** Whether the root window is mapped after a log of window-manager calls:
    the last [deiconify] or [withdraw] decides; a root window is mapped until
    it is withdrawn. *)
Definition mapped (calls : list wm_call) : bool :=
  fold_left (fun m c => match c with
                        | Deiconify => true
                        | Withdraw => false
                        | Lift | Topmost => m
                        end) calls true.

(** The items [_draw_face] creates on the canvas, with the colours it gives
    them; their coordinates and widths (which go through [math.sin]) are left
    out. *)
Inductive item : Type :=
| Oval (fill outline : string)
| Line (fill : string).

(** One eye: the arc when [t > 0.1], the flat line when [t < 0.9]. *)
Definition eye (face_col outline_col : string) (t : float) : option (list item) :=
  let arc := if 0x1.999999999999ap-4 <? t then [Line outline_col] else [] in
  if t <? 0x1.ccccccccccccdp-1 then
    match _lerp_colour face_col outline_col (1 - t) with
    | Some line_col => Some (arc ++ [Line line_col])
    | None => None
    end
  else Some arc.

(** The mouth: the arc when [smile > 0.05], the straight line when
    [smile < 0.95]. *)
Definition mouth (face_col outline_col : string) (smile : float) : option (list item) :=
  let arc := if 0x1.999999999999ap-5 <? smile then [Line outline_col] else [] in
  if smile <? 0x1.e666666666666p-1 then
    match _lerp_colour face_col outline_col (1 - smile) with
    | Some line_col => Some (arc ++ [Line line_col])
    | None => None
    end
  else Some arc.

(** [blush_alpha = 0.3 + 0.4 * t] *)
Definition blush_alpha (t : float) : float :=
  0x1.3333333333333p-2 + 0x1.999999999999ap-2 * t.

(** The face, the two cheeks, the two eyes and the mouth, in the order they
    are created; [None] where one of the colour computations raises. *)
Definition face_items (t : float) : option (list item) :=
  match _lerp_colour PURPLE PINK t, _lerp_colour PURPLE_DARK PINK_DARK t with
  | Some face_col, Some outline_col =>
      match _lerp_colour face_col "#FF8FAF" (blush_alpha t) with
      | Some blush_col =>
          match eye face_col outline_col t, mouth face_col outline_col t with
          | Some e, Some m =>
              Some ([Oval face_col outline_col;
                     Oval blush_col ""; Oval blush_col ""] ++ e ++ e ++ m)
          | _, _ => None
          end
      | None => None
      end
  | _, _ => None
  end.

(** [_draw_face], which reads [t = self._display_live]. *)
Definition _draw_face (o : OverlayWindow) : option (list item) :=
  face_items (_display_live o).

(** An item Tk can paint: its colours are valid, the outline possibly
    empty. *)
Definition item_ok (i : item) : bool :=
  match i with
  | Oval fill outline =>
      valid_colour fill && ((outline =? "")%string || valid_colour outline)
  | Line fill => valid_colour fill
  end.

(** What every overlay the program can reach satisfies: the level is between
    0 and 1, the target is the one of the state set last, and [_visible] says
    whether the window is mapped. *)
Definition sound (o : OverlayWindow) : Prop :=
  (0 <=? _display_live o) = true /\
  (_display_live o <=? 1) = true /\
  _target_live o = (if _all_live o then 1 else 0) /\
  mapped (wm o) = _visible o.

End Overlay.

(* ================================================================== *)
(** * MicBuddyApp                                                      *)
(* ================================================================== *)

Module App.

Import Overlay.

(** The bound methods handed to [root.after_idle]. *)
Inductive callback : Type :=
| OverlayShow
| OverlayHide
| UpdateUi
| UpdateTrayMenu.

(** The coordinator: its two flags, the overlay, Tk's queue of idle callbacks
    (oldest first) and the tray.  The tray icon is a disc of one colour, and
    the two status lines of the tray menu spell out the two flags the menu
    was built from, so the model keeps the colour and the flags. *)
Record MicBuddyApp : Type := mkApp {
  _all_live : bool;
  _connected : bool;
  overlay : OverlayWindow;
  idle : list callback;
  tray_icon : string;
  tray_menu : bool * bool
}.

(** [self.root.withdraw()], which [__init__] calls on the root before it
    builds the overlay on it: the call comes first in the window's log. *)
Definition on_withdrawn_root (o : OverlayWindow) : OverlayWindow :=
  mkOverlay (_visible o) (Overlay._all_live o) (_display_live o) (_target_live o)
            (_breathe_t o) (_drag_start_x o) (_drag_start_y o)
            (Withdraw :: wm o) (painted o).

(** [__init__]: the tray starts with [make_tray_icon(PURPLE)] and the menu of
    the initial flags. *)
Definition init : MicBuddyApp :=
  mkApp false false (on_withdrawn_root Overlay.init) [] PURPLE (false, false).

(** [self.root.after_idle(f)], while the Tk root exists. *)
Definition after_idle (f : callback) (a : MicBuddyApp) : MicBuddyApp :=
  mkApp (_all_live a) (_connected a) (overlay a) (idle a ++ [f])
        (tray_icon a) (tray_menu a).

Definition _on_state_change (all_live : bool) (a : MicBuddyApp) : MicBuddyApp :=
  after_idle UpdateUi
    (mkApp all_live (_connected a) (overlay a) (idle a) (tray_icon a) (tray_menu a)).

Definition _on_connection_change (connected : bool) (a : MicBuddyApp) : MicBuddyApp :=
  let a := mkApp (_all_live a) connected (overlay a) (idle a)
                 (tray_icon a) (tray_menu a) in
  after_idle UpdateTrayMenu
    (after_idle (if connected then OverlayShow else OverlayHide) a).

Definition with_overlay (o : OverlayWindow) (a : MicBuddyApp) : MicBuddyApp :=
  mkApp (_all_live a) (_connected a) o (idle a) (tray_icon a) (tray_menu a).

(** [_update_tray_menu]: [self._tray.menu = self._make_menu()] *)
Definition _update_tray_menu (a : MicBuddyApp) : MicBuddyApp :=
  mkApp (_all_live a) (_connected a) (overlay a) (idle a) (tray_icon a)
        (_connected a, _all_live a).

(** [_update_tray_icon] *)
Definition _update_tray_icon (a : MicBuddyApp) : MicBuddyApp :=
  mkApp (_all_live a) (_connected a) (overlay a) (idle a)
        (if _all_live a then PINK else PURPLE) (tray_menu a).

Definition _update_ui (a : MicBuddyApp) : MicBuddyApp :=
  _update_tray_menu
    (_update_tray_icon (with_overlay (set_state (_all_live a) (overlay a)) a)).

(** Running one idle callback on the Tk thread. *)
Definition invoke (f : callback) (a : MicBuddyApp) : MicBuddyApp :=
  match f with
  | OverlayShow => with_overlay (show (overlay a)) a
  | OverlayHide => with_overlay (hide (overlay a)) a
  | UpdateUi => _update_ui a
  | UpdateTrayMenu => _update_tray_menu a
  end.

(** The main loop going idle: every queued callback runs, oldest first (none
    of them queues another). *)
Definition run_idle (a : MicBuddyApp) : MicBuddyApp :=
  fold_left (fun a f => invoke f a) (idle a)
            (mkApp (_all_live a) (_connected a) (overlay a) []
                   (tray_icon a) (tray_menu a)).

(** A connectivity signal handled to the end: the callback on the manager's
    thread, then the idle callbacks it queued on the Tk thread. *)
Definition handle_connection (connected : bool) (a : MicBuddyApp) : MicBuddyApp :=
  run_idle (_on_connection_change connected a).


(** ** The coordinator next to the manager *)

(** The manager's callbacks as the coordinator receives them (opening and
    releasing a session call nothing). *)
Definition deliver (a : MicBuddyApp) (e : OBS.event) : MicBuddyApp :=
  match e with
  | OBS.OnConn b => _on_connection_change b a
  | OBS.OnState b => _on_state_change b a
  | OBS.Opened _ | OBS.Released _ => a
  end.

(** What happens to the coordinator, in the order it happens: the manager's
    thread calls back, or the Tk main loop goes idle. *)
Inductive happening : Type :=
| Signal (e : OBS.event)
| GoIdle.

Definition happen (a : MicBuddyApp) (h : happening) : MicBuddyApp :=
  match h with
  | Signal e => deliver a e
  | GoIdle => run_idle a
  end.

Definition signals (hs : list happening) : list OBS.event :=
  flat_map (fun h => match h with Signal e => [e] | GoIdle => [] end) hs.

(** The coordinator after [hs], once the main loop has gone idle again. *)
Definition settled (hs : list happening) : MicBuddyApp :=
  run_idle (fold_left happen hs init).

(** What the state callback said last, [false] before its first call. *)
Definition last_state (tr : list OBS.event) : bool :=
  fold_left (fun b e => match e with OBS.OnState s => s | _ => b end) tr false.

(** ** What a queue of idle callbacks will do *)

Definition is_ui (f : callback) : bool :=
  match f with UpdateUi => true | _ => false end.

Definition is_menu (f : callback) : bool :=
  match f with UpdateTrayMenu => true | _ => false end.

(** Where the queue leaves the window, and whether it refreshes the state or
    the menu. *)
Definition vis_after (q : list callback) (v : bool) : bool :=
  fold_left (fun v f => match f with
                        | OverlayShow => true
                        | OverlayHide => false
                        | UpdateUi | UpdateTrayMenu => v
                        end) q v.

Definition has_ui (q : list callback) : bool := existsb is_ui q.

Definition has_menu (q : list callback) : bool := existsb is_menu q.

(** The overlay and the tray show the flag [l]. *)
Definition shows (l : bool) (a : MicBuddyApp) : Prop :=
  Overlay._all_live (overlay a) = l /\
  _target_live (overlay a) = (if l then 1 else 0)%float /\
  tray_icon a = (if l then PINK else PURPLE).

(** A coordinator whose queue, once run, will have it agree with the flags
    [c] and [l]. *)
Definition on_its_way (c l : bool) (a : MicBuddyApp) : Prop :=
  _connected a = c /\ _all_live a = l /\
  vis_after (idle a) (_visible (overlay a)) = c /\
  (has_ui (idle a) = false -> shows l a) /\
  (has_ui (idle a) || has_menu (idle a) = false -> tray_menu a = (c, l)).

(** A coordinator at rest that agrees with the flags [c] and [l]. *)
Definition caught_up (c l : bool) (a : MicBuddyApp) : Prop :=
  _connected a = c /\ _all_live a = l /\ _visible (overlay a) = c /\
  shows l a /\ tray_menu a = (c, l) /\ idle a = [].

End App.

(* ================================================================== *)
(** * The saved position                                               *)
(* ================================================================== *)

Module Config.

Open Scope string_scope.

(** A value as [json.loads] returns it; an object keeps its items in
    order. *)
#[warnings="-register-all"]
Inductive json : Type :=
| JNull
| JBool (b : bool)
| JInt (z : Z)
| JFloat (x : float)
| JStr (s : string)
| JList (l : list json)
| JObj (items : list (string * json)).

(** [d.get(k)] on the items of a [dict]. *)
Fixpoint dict_get (k : string) (d : list (string * json)) : option json :=
  match d with
  | [] => None
  | (k', v) :: rest => if k' =? k then Some v else dict_get k rest
  end.

(** [d[k] = v]: the item is replaced where it stands, or added last. *)
Fixpoint dict_set (k : string) (v : json) (d : list (string * json))
  : list (string * json) :=
  match d with
  | [] => [(k, v)]
  | (k', v') :: rest =>
      if k' =? k then (k, v) :: rest else (k', v') :: dict_set k v rest
  end.

(** [CONFIG_FILE] as [load_config] meets it: [read_text] raises, or
    [json.loads] raises on the text, or it parses to a value. *)
Inductive file : Type :=
| NoFile
| NotJson
| Holds (v : json).

Definition load_config (f : file) : json :=
  match f with
  | Holds v => v
  | NoFile => JObj []
  | NotJson => JObj []
  end.

(** What the file system does with [mkdir] and [write_text]: the text is
    written (and parses back to the value dumped), or one of them raises and
    leaves the file in some state. *)
Inductive disk : Type :=
| Written
| WriteFails (remains : file).

(** [save_config]: the file afterwards. *)
Definition save_config (cfg : json) (d : disk) : file :=
  match d with
  | Written => Holds cfg
  | WriteFails remains => remains
  end.

(** [_save_position], given what [winfo_x()] and [winfo_y()] do: the file
    afterwards.  Item assignment on anything but a [dict] raises [TypeError],
    which the [try] swallows like every other exception. *)
Definition _save_position (pos : exc (Z * Z)) (d : disk) (f : file) : file :=
  match pos with
  | Raise => f
  | Ok (x, y) =>
      match load_config f with
      | JObj items =>
          save_config (JObj (dict_set "y" (JInt y) (dict_set "x" (JInt x) items))) d
      | _ => f
      end
  end.

(** [cfg.get(k, None)], where a JSON [null] is [None] too. *)
Definition get_or_none (k : string) (items : list (string * json)) : option json :=
  match dict_get k items with
  | Some JNull => None
  | Some v => Some v
  | None => None
  end.

(** What [OverlayWindow.__init__] does about the position: it calls
    [geometry(f"+{x}+{y}")] or [_reset_position()]. *)
Inductive placement : Type :=
| Place (x y : json)
| ResetPosition.

(** The "Restore position" lines of [__init__].  Only a [dict] has [get]: on
    any other value the attribute lookup raises, and nothing catches it. *)
Definition restore_position (f : file) : exc placement :=
  match load_config f with
  | JObj items =>
      match get_or_none "x" items, get_or_none "y" items with
      | Some x, Some y => Ok (Place x y)
      | _, _ => Ok ResetPosition
      end
  | _ => Raise
  end.

Definition is_object (v : json) : bool :=
  match v with JObj _ => true | _ => false end.

End Config.

(* ================================================================== *)
(** * The numbers of binary64                                          *)
(* ================================================================== *)

(** The operations on primitive floats are specified by the Standard
    Library through [Prim2SF] and the functions of [SpecFloat].  What follows
    reads a float as the rational number it stands for, so that the
    properties of the overlay can speak of numbers. *)

Module B64.

Definition pow2 (e : Z) : Q := (2 ^ e)%Q.

(** The number a finite float stands for (0 for the others). *)
Definition SF2Q (x : spec_float) : Q :=
  match x with
  | S754_finite s m e => (inject_Z (cond_Zopp s (Zpos m)) * pow2 e)%Q
  | _ => 0%Q
  end.

(** Zero or finite: not an infinity, not a NaN. *)
Definition SFfinite (x : spec_float) : bool :=
  match x with
  | S754_zero _ | S754_finite _ _ _ => true
  | S754_infinity _ | S754_nan => false
  end.

Definition F2Q (x : float) : Q := SF2Q (Prim2SF x).
Definition finite (x : float) : bool := SFfinite (Prim2SF x).

(** The numbers of the format: a mantissa of at most 53 bits at an exponent
    of at least -1074. *)
Definition representable (c : Q) : Prop :=
  exists m e : Z, (Z.abs m < 2 ^ 53)%Z /\ (-1074 <= e)%Z /\ (c == inject_Z m * pow2 e)%Q.

(** [v] is [x] rounded to a neighbour in the format: no number of the
    format lies strictly between them. *)
Definition rounded (x v : Q) : Prop :=
  forall c, representable c -> ((x <= c -> v <= c) /\ (c <= x -> c <= v))%Q.

(** A shift record that has dropped a non-zero bit. *)
Definition inexact (r : shr_record) : bool := shr_r r || shr_s r.

(** The float [binary_round_aux] makes of a final mantissa and exponent. *)
Definition build (sx : bool) (m3 e3 : Z) : spec_float :=
  match m3 with
  | Z0 => S754_zero sx
  | Zpos p => if (e3 <=? emax - prec)%Z then S754_finite sx p e3 else S754_infinity sx
  | Zneg _ => S754_nan
  end.

(** A comparison result that agrees with the order of two numbers. *)
Definition cmp_spec (c : option comparison) (a b : Q) : Prop :=
  match c with
  | Some Lt => (a < b)%Q
  | Some Eq => (a == b)%Q
  | Some Gt => (b < a)%Q
  | None => False
  end.

End B64.

(* ================================================================== *)
(** * Properties of the connection manager                             *)
(* ================================================================== *)

Module OBSFacts.

Import OBS.
Open Scope string_scope.

(** ** Substrings and the microphone filter *)

Lemma prefix_iff (k s : string) :
  String.prefix k s = true <-> exists post, s = k ++ post.
Proof.
  revert s; induction k as [|a k IH]; intros s.
  - split; [intros _; now exists s | intros _; now destruct s].
  - destruct s as [|b s]; simpl.
    + split; [discriminate | intros [post H]; discriminate].
    + destruct (Ascii.ascii_dec a b) as [->|Hab].
      * rewrite IH. split; intros [post H]; exists post; congruence.
      * split; [discriminate | intros [post H]; congruence].
Qed.

Lemma contains_unfold (k s : string) :
  contains k s =
  String.prefix k s || match s with
                       | EmptyString => false
                       | String _ s' => contains k s'
                       end.
Proof.
  destruct s; unfold contains; fold contains;
    destruct (String.prefix k _); reflexivity.
Qed.

Lemma contains_iff (k s : string) :
  contains k s = true <-> exists pre post, s = pre ++ k ++ post.
Proof.
  induction s as [|c s IH]; rewrite contains_unfold, orb_true_iff, prefix_iff.
  - split.
    + intros [[post H]|H]; [now exists "", post | discriminate].
    + intros (pre & post & H). left.
      destruct pre; simpl in H; [now exists post | discriminate].
  - rewrite IH. split.
    + intros [[post H]|(pre & post & H)].
      * now exists "", post.
      * exists (String c pre), post. simpl. now f_equal.
    + intros (pre & post & H). destruct pre as [|c' pre]; simpl in H.
      * left. now exists post.
      * right. exists pre, post. congruence.
Qed.

(** The filter of the code keeps exactly the microphone-kind inputs of the
    specification. *)
Lemma is_mic_spec (inp : input) : is_mic inp = true <-> spec_microphone inp.
Proof.
  unfold is_mic, spec_microphone, kind_of. rewrite existsb_exists. split.
  - intros (k & Hin & Hk). apply contains_iff in Hk. destruct Hk as (pre & post & Hk).
    destruct (inputKind inp) as [| |s].
    + exfalso. destruct pre; [|discriminate Hk]. simpl in Hk.
      simpl in Hin. intuition (subst; discriminate).
    + exfalso. destruct pre; [|discriminate Hk]. simpl in Hk.
      simpl in Hin. intuition (subst; discriminate).
    + exists s, k, pre, post. split; [reflexivity|]. split; [|exact Hk].
      simpl in Hin. intuition (subst; auto).
  - intros (s & k & pre & post & E & Hk & Hs). rewrite E. exists k. split.
    + simpl. intuition (subst; auto 10).
    + apply contains_iff. now exists pre, post.
Qed.

(** C9.  An input is kept as a microphone exactly when its ["inputKind"] is a
    string that contains one of the six markers as a contiguous run; the kind
    the code tests is that string, and the empty string when the key is
    missing or maps to [None], so that such an input is never kept. *)
Theorem is_mic_iff_kind_contains_marker (kind name : field) :
  (is_mic (mkInput kind name) = true <->
   exists s k pre post,
     kind = Str s /\
     (k = "wasapi_input" \/ k = "pulse_input" \/ k = "coreaudio_input" \/
      k = "alsa_input" \/ k = "jack_input" \/ k = "audio_input") /\
     s = pre ++ k ++ post) /\
  kind_of (mkInput kind name) =
    match kind with Str s => s | Absent => "" | Null => "" end /\
  is_mic (mkInput Absent name) = false /\
  is_mic (mkInput Null name) = false.
Proof.
  split; [exact (is_mic_spec (mkInput kind name))|].
  split; [destruct kind; reflexivity|]. split; reflexivity.
Qed.

(** ** The poll *)

Lemma all_live_loop_iff (srv : Server) (mics : list input) :
  all_live_loop srv mics = true <-> all_unmuted (get_input_mute srv) mics.
Proof.
  unfold all_unmuted. induction mics as [|inp rest IH]; simpl.
  - split; [intros _ inp [] | reflexivity].
  - destruct (get_input_mute srv (name_of inp)) as [[|]|] eqn:E.
    + split; [discriminate|]. intros H. specialize (H inp (or_introl eq_refl)). congruence.
    + rewrite IH. split.
      * intros H x [<-|Hx]; auto.
      * intros H x Hx. apply H. now right.
    + split; [discriminate|]. intros H. specialize (H inp (or_introl eq_refl)). congruence.
Qed.

(** A poll over an open session whose input list arrives: the state is left
    as it was, and the answer is the value of the loop, or [false] outright
    when no microphone is listed. *)
Lemma poll_listed (mute : option string -> exc bool) (l : list input)
      (c : Conn) (conn : bool) (tr : list event) :
  _poll_mute (mkServer (Ok (Some l)) mute) (mkWorld (Some c) conn tr) =
  (Some (match filter is_mic l with
         | [] => false
         | _ :: _ => all_live_loop (mkServer (Ok (Some l)) mute) (filter is_mic l)
         end),
   mkWorld (Some c) conn tr).
Proof.
  unfold _poll_mute, bind, get_ws, ret; simpl.
  destruct (filter is_mic l); reflexivity.
Qed.

Lemma bool_eq_of_iff (a b : bool) (P : Prop) :
  (a = true <-> P) -> (b = true <-> P) -> a = b.
Proof.
  destruct a, b; intuition congruence.
Qed.

(** The poll in terms of the code's own filter. *)
Lemma poll_aggregate_filtered (mute : option string -> exc bool) (l : list input)
        (c : Conn) (conn : bool) (tr : list event) :
  let w := mkWorld (Some c) conn tr in
  let poll := fun l => _poll_mute (mkServer (Ok (Some l)) mute) w in
  (exists b, poll l = (Some b, w) /\
             (b = true <->
              filter is_mic l <> [] /\ all_unmuted mute (filter is_mic l))) /\
  (filter is_mic l = [] -> poll l = (Some false, w)) /\
  _poll_mute (mkServer (Ok None) mute) w = (Some false, w) /\
  (forall l', Permutation l l' -> poll l' = poll l).
Proof.
  assert (Hiff : forall l0,
             match filter is_mic l0 with
             | [] => false
             | _ :: _ => all_live_loop (mkServer (Ok (Some l0)) mute) (filter is_mic l0)
             end = true <->
             filter is_mic l0 <> [] /\ all_unmuted mute (filter is_mic l0)).
  { intros l0. destruct (filter is_mic l0) as [|x xs] eqn:E.
    - split; [discriminate | intros [H _]; now elim H].
    - rewrite all_live_loop_iff. simpl. split; [intros H; split; [discriminate | exact H] | tauto]. }
  cbv zeta. split; [|split; [|split]].
  - eexists. split; [apply poll_listed | apply Hiff].
  - intros E. rewrite poll_listed, E. reflexivity.
  - reflexivity.
  - intros l' HP. rewrite !poll_listed. do 2 f_equal.
    eapply bool_eq_of_iff; [apply Hiff|]. rewrite Hiff.
    assert (HPf : Permutation (filter is_mic l) (filter is_mic l')).
    { clear -HP. induction HP; simpl; repeat destruct (is_mic _); eauto using Permutation. }
    unfold all_unmuted. split; intros [Hne Hall]; split.
    + intros E. rewrite E in HPf. apply Permutation_sym, Permutation_nil in HPf. auto.
    + intros inp Hin. apply Hall. eapply Permutation_in; [apply Permutation_sym|]; eassumption.
    + intros E. rewrite E in HPf. apply Permutation_nil in HPf. auto.
    + intros inp Hin. apply Hall. eapply Permutation_in; eassumption.
Qed.

Lemma filter_is_mic_spec (l : list input) (inp : input) :
  In inp (filter is_mic l) <-> In inp l /\ spec_microphone inp.
Proof. rewrite filter_In, is_mic_spec. reflexivity. Qed.

Lemma some_microphone (l : list input) :
  filter is_mic l <> [] <-> exists inp, In inp l /\ spec_microphone inp.
Proof.
  split.
  - intros N. destruct (filter is_mic l) as [|x xs] eqn:E; [now elim N|].
    exists x. apply filter_is_mic_spec. rewrite E. now left.
  - intros (inp & H) E. apply filter_is_mic_spec in H. rewrite E in H. exact H.
Qed.

Lemma all_unmuted_spec (mute : option string -> exc bool) (l : list input) :
  all_unmuted mute (filter is_mic l) <->
  forall inp, In inp l -> spec_microphone inp -> spec_reports_unmuted mute inp.
Proof.
  unfold all_unmuted. split.
  - intros H inp Hin Hm. apply (H inp). apply filter_is_mic_spec. now split.
  - intros H inp Hin. apply filter_is_mic_spec in Hin. destruct Hin as [Hin Hm].
    exact (H inp Hin Hm).
Qed.

(** C2.  Over an open session whose input list arrives, the poll answers
    [true] exactly when the list has a microphone-kind input (one whose
    ["inputKind"] string contains one of the six markers) and every
    microphone-kind input of the list, asked under the value of its own
    ["inputName"], reports unmuted; it answers [false] when the list has no
    microphone-kind input (or when the response carries no list at all); and
    the answer is the same for every reordering of the input list. *)
Theorem poll_aggregate_iff (mute : option string -> exc bool) (l : list input)
        (c : Conn) (conn : bool) (tr : list event) :
  let w := mkWorld (Some c) conn tr in
  let poll := fun l => _poll_mute (mkServer (Ok (Some l)) mute) w in
  (exists b, poll l = (Some b, w) /\
             (b = true <->
              (exists inp, In inp l /\ spec_microphone inp) /\
              (forall inp, In inp l -> spec_microphone inp ->
                           spec_reports_unmuted mute inp))) /\
  ((forall inp, In inp l -> ~ spec_microphone inp) -> poll l = (Some false, w)) /\
  _poll_mute (mkServer (Ok None) mute) w = (Some false, w) /\
  (forall l', Permutation l l' -> poll l' = poll l).
Proof.
  cbv zeta.
  destruct (poll_aggregate_filtered mute l c conn tr) as ((b & Hb & Hiff) & He & Hn & Hp).
  split; [|split; [|split]].
  - exists b. split; [exact Hb|].
    rewrite Hiff, some_microphone, all_unmuted_spec. reflexivity.
  - intros Hno. apply He.
    destruct (filter is_mic l) as [|x xs] eqn:E; [reflexivity|]. exfalso.
    assert (Hx : In x (filter is_mic l)) by (rewrite E; now left).
    apply filter_is_mic_spec in Hx. destruct Hx as [Hin Hm]. exact (Hno x Hin Hm).
  - exact Hn.
  - exact Hp.
Qed.

(** Witness of C2 at a list of two microphones and one video source, in the
    two orders. *)
Lemma poll_aggregate_iff_witness :
  let mics := [mkInput (Str "wasapi_input_capture") (Str "Mic1");
               mkInput (Str "ffmpeg_source") (Str "Clip");
               mkInput (Str "wasapi_input_capture") (Str "Mic2")] in
  let mute := fun n : option string =>
                match n with Some "Mic2" => Ok true | _ => Ok false end in
  let w := mkWorld (Some 1%nat) true [] in
  _poll_mute (mkServer (Ok (Some (rev mics))) mute) w =
  _poll_mute (mkServer (Ok (Some mics)) mute) w.
Proof.
  cbv zeta.
  apply (poll_aggregate_iff
           (fun n : option string => match n with Some "Mic2" => Ok true | _ => Ok false end)
           [mkInput (Str "wasapi_input_capture") (Str "Mic1");
            mkInput (Str "ffmpeg_source") (Str "Clip");
            mkInput (Str "wasapi_input_capture") (Str "Mic2")]
           1%nat true []).
  apply Permutation_rev.
Defined.

(** ** One tick *)

(** A tick that finds the host up and the manager connected goes straight to
    the poll. *)
Lemma loop_body_in_session (h1 h2 : handshake) (srv : Server) (was : bool)
      (ws : option Conn) (tr : list event) :
  loop_body (mkTick true h1 h2 srv) was (mkWorld ws true tr) =
  (true,
   match _poll_mute srv (mkWorld ws true tr) with
   | (Some b, w') => snd (_on_state b w')
   | (None, w') => w'
   end).
Proof.
  unfold loop_body, bind, when, get_connected, ret; simpl.
  destruct was; simpl;
    destruct (_poll_mute srv (mkWorld ws true tr)) as [[b|] w']; simpl;
    try destruct (_on_state b w') eqn:E; reflexivity.
Qed.

(** C1, as the code has it.  A mute query that raises is caught inside the
    loop and counted as muted: whatever the input list and wherever the
    failing microphone stands in it, the poll answers [false], the session
    is kept, and the tick reports that [false] and nothing else. *)
Theorem failed_mute_query_counts_as_muted
        (mute : option string -> exc bool) (l : list input) (inp : input)
        (c : Conn) (tr : list event) :
  In inp (filter is_mic l) ->
  mute (name_of inp) = Raise ->
  let srv := mkServer (Ok (Some l)) mute in
  let w := mkWorld (Some c) true tr in
  _poll_mute srv w = (Some false, w) /\
  forall h1 h2 was,
    loop_body (mkTick true h1 h2 srv) was w =
    (true, mkWorld (Some c) true (tr ++ [OnState false])).
Proof.
  intros Hin Hraise srv w.
  assert (Hpoll : _poll_mute srv w = (Some false, w)).
  { unfold srv, w. rewrite poll_listed. do 2 f_equal.
    destruct (filter is_mic l) as [|x xs] eqn:E; [reflexivity|].
    destruct (all_live_loop _ (x :: xs)) eqn:Hall; [|reflexivity].
    apply all_live_loop_iff in Hall. specialize (Hall inp Hin).
    simpl in Hall. congruence. }
  split; [exact Hpoll|].
  intros h1 h2 was. unfold w at 1. rewrite loop_body_in_session.
  fold w. rewrite Hpoll. reflexivity.
Qed.

(** Witness of C1 (amended): the second of two microphones cannot be
    queried. *)
Lemma failed_mute_query_counts_as_muted_witness :
  let mute := fun n : option string =>
                match n with Some "Mic2" => Raise | _ => Ok false end in
  let l := [mkInput (Str "wasapi_input_capture") (Str "Mic1");
            mkInput (Str "pulse_input_capture") (Str "Mic2")] in
  _poll_mute (mkServer (Ok (Some l)) mute) (mkWorld (Some 1%nat) true []) =
  (Some false, mkWorld (Some 1%nat) true []).
Proof.
  cbv zeta.
  apply (failed_mute_query_counts_as_muted
           (fun n : option string => match n with Some "Mic2" => Raise | _ => Ok false end)
           [mkInput (Str "wasapi_input_capture") (Str "Mic1");
            mkInput (Str "pulse_input_capture") (Str "Mic2")]
           (mkInput (Str "pulse_input_capture") (Str "Mic2")) 1%nat []).
  - simpl. right. left. reflexivity.
  - reflexivity.
Defined.

(** C1, as stated, fails.  One microphone is listed and its mute query
    raises; the claim wants the poll to return nothing and the session to be
    torn down.  The poll returns [false], the session and the connected flag
    stay, and the tick emits that [false]. *)
Lemma failed_mute_query_does_not_fail_the_poll :
  let mic1 := mkInput (Str "wasapi_input_capture") (Str "Mic1") in
  let srv := mkServer (Ok (Some [mic1])) (fun _ => Raise) in
  let w := mkWorld (Some 7%nat) true [OnConn true] in
  In mic1 (filter is_mic [mic1]) /\
  get_input_mute srv (name_of mic1) = Raise /\
  _poll_mute srv w = (Some false, w) /\
  (fst (_poll_mute srv w) = None -> False) /\
  loop_body (mkTick true Refused Refused srv) true w =
  (true, mkWorld (Some 7%nat) true [OnConn true; OnState false]).
Proof.
  cbv zeta. repeat split.
  - simpl. left. reflexivity.
  - discriminate.
Qed.

(** C4.  In a tick that finds the manager connected, when the request for
    the input list raises: the poll returns nothing, the handle is released
    and cleared, [_connected] is cleared, the connectivity callback fires
    once with [false], and no aggregate is reported in that tick.  On the next
    tick with the host up the manager calls [_connect] again: an accepted
    handshake opens a session and fires the callback with [true], a refused
    one leaves the manager as it was, to try again on the tick after. *)
Theorem input_list_fault_tears_down
        (mute : option string -> exc bool) (c : Conn) (tr : list event)
        (was : bool) (h1 h2 : handshake) :
  let srv := mkServer Raise mute in
  let w := mkWorld (Some c) true tr in
  let w' := mkWorld None false ((tr ++ [Released c]) ++ [OnConn false]) in
  _poll_mute srv w = (None, w') /\
  loop_body (mkTick true h1 h2 srv) was w = (true, w') /\
  (forall c' h2' srv', exists rest,
      trace (snd (loop_body (mkTick true (Accepted c') h2' srv') true w')) =
      (trace w' ++ Opened c' :: OnConn true :: rest)%list) /\
  (forall h2' srv',
      loop_body (mkTick true Refused h2' srv') true w' = (true, w')).
Proof.
  cbv zeta.
  assert (Hpoll : _poll_mute (mkServer Raise mute) (mkWorld (Some c) true tr) =
                  (None, mkWorld None false ((tr ++ [Released c]) ++ [OnConn false])))
    by reflexivity.
  split; [exact Hpoll|]. split; [|split].
  - rewrite loop_body_in_session, Hpoll. reflexivity.
  - intros c' h2' srv'.
    unfold loop_body, bind, when, get_connected, ret; simpl.
    destruct (_poll_mute srv' _) as [[b|] w2] eqn:E; simpl.
    + unfold _poll_mute, bind, get_ws, ret in E; simpl in E.
      destruct (get_input_list srv') as [resp|].
      * destruct (filter is_mic _); inversion E; subst; simpl;
          eexists; rewrite <- !app_assoc; simpl; reflexivity.
      * inversion E.
    + unfold _poll_mute, bind, get_ws, ret in E; simpl in E.
      destruct (get_input_list srv') as [resp|].
      * destruct (filter is_mic _); inversion E.
      * inversion E; subst; simpl.
        eexists; rewrite <- !app_assoc; simpl; reflexivity.
  - intros h2' srv'. reflexivity.
Qed.

(** ** At most one session *)

Lemma sessions_snoc (tr : list event) (e : event) :
  sessions (tr ++ [e]) = after_event (sessions tr) e.
Proof.
  unfold sessions. rewrite fold_left_app. reflexivity.
Qed.

Lemma one_at_a_time_nil : one_at_a_time [].
Proof.
  intros n. rewrite firstn_nil. split; [simpl; lia|].
  intros c H. destruct n; discriminate.
Qed.

(** The log may grow by one event when that keeps at most one session open
    and, for an [Opened], none was open before. *)
Lemma one_at_a_time_snoc (tr : list event) (e : event) :
  one_at_a_time tr ->
  (List.length (after_event (sessions tr) e) <= 1)%nat ->
  (forall c, e = Opened c -> sessions tr = []) ->
  one_at_a_time (tr ++ [e]).
Proof.
  intros Htr Hlen Hopen n.
  destruct (Nat.lt_ge_cases n (List.length tr)) as [Hlt|Hge].
  - rewrite firstn_app, nth_error_app1 by exact Hlt.
    replace (n - List.length tr)%nat with 0%nat by lia.
    simpl. rewrite app_nil_r. apply Htr.
  - destruct (Nat.eq_dec n (List.length tr)) as [->|Hne].
    + rewrite firstn_app, Nat.sub_diag, firstn_all. simpl. rewrite app_nil_r.
      split.
      * pose proof (proj1 (Htr (List.length tr))) as H.
        now rewrite firstn_all in H.
      * intros c Hc. rewrite nth_error_app2, Nat.sub_diag in Hc by lia.
        simpl in Hc. inversion Hc; subst. now apply (Hopen c).
    + rewrite firstn_all2 by (rewrite length_app; simpl; lia).
      rewrite sessions_snoc. split; [exact Hlen|].
      intros c Hc.
      assert (Hnone : nth_error (tr ++ [e]) n = None)
        by (apply nth_error_None; rewrite length_app; simpl; lia).
      congruence.
Qed.

Lemma remove_only (c : Conn) : remove Nat.eq_dec c [c] = [].
Proof.
  simpl. destruct (Nat.eq_dec c c); congruence.
Qed.

Lemma consistent_intro (ws : option Conn) (conn : bool) (tr : list event) :
  one_at_a_time tr ->
  sessions tr = match ws with Some c => [c] | None => [] end ->
  conn = match ws with Some _ => true | None => false end ->
  consistent (mkWorld ws conn tr).
Proof.
  intros H1 H2 H3. unfold consistent, held. simpl. auto.
Qed.

Lemma one_at_a_time_last (tr : list event) :
  one_at_a_time tr -> (List.length (sessions tr) <= 1)%nat.
Proof.
  intros H. pose proof (proj1 (H (List.length tr))) as Hn.
  now rewrite firstn_all in Hn.
Qed.

(** A callback leaves the sessions alone. *)
Lemma consistent_callback (w : World) (e : event) :
  (exists b, e = OnConn b \/ e = OnState b) ->
  consistent w -> consistent (snd (log e w)).
Proof.
  intros [b Hb] (Hone & Hses & Hflag). unfold log; simpl.
  assert (Hafter : after_event (sessions (trace w)) e = sessions (trace w))
    by (destruct Hb; subst; reflexivity).
  apply consistent_intro.
  - apply one_at_a_time_snoc;
      [assumption
      | rewrite Hafter; now apply one_at_a_time_last
      | intros c ->; destruct Hb; discriminate].
  - rewrite sessions_snoc, Hafter. exact Hses.
  - exact Hflag.
Qed.

(** [_connect] is only ever entered with [_connected] false. *)
Lemma consistent_connect (h : handshake) (w : World) :
  consistent w -> _connected w = false -> consistent (snd (_connect h w)).
Proof.
  intros Hw Hoff. pose proof Hw as (Hone & Hses & Hflag).
  assert (Hnone : _ws w = None) by (destruct (_ws w); congruence).
  assert (Hempty : sessions (trace w) = [])
    by (unfold held in Hses; now rewrite Hnone in Hses).
  destruct h as [| |c];
    unfold _connect, bind, set_ws, set_connected, _on_conn, log, ret; simpl.
  - exact Hw.
  - now apply consistent_intro.
  - assert (H1 : one_at_a_time (trace w ++ [Opened c])).
    { apply one_at_a_time_snoc;
        [assumption | rewrite Hempty; simpl; lia | intros; assumption]. }
    assert (S1 : sessions (trace w ++ [Opened c]) = [c])
      by (rewrite sessions_snoc, Hempty; reflexivity).
    apply consistent_intro.
    + apply one_at_a_time_snoc;
        [assumption | rewrite S1; simpl; lia | intros; discriminate].
    + rewrite sessions_snoc, S1. reflexivity.
    + reflexivity.
Qed.

Lemma consistent_disconnect (w : World) :
  consistent w ->
  consistent (snd (_disconnect w)) /\ _connected (snd (_disconnect w)) = false.
Proof.
  intros (Hone & Hses & Hflag).
  unfold _disconnect, bind, set_ws, set_connected, get_ws, _on_conn, log, ret; simpl.
  unfold held in Hses.
  destruct (_ws w) as [c|] eqn:Hws; simpl; (split; [|reflexivity]).
  - assert (H1 : one_at_a_time (trace w ++ [Released c])).
    { apply one_at_a_time_snoc;
        [assumption
        | rewrite Hses; cbn [after_event]; rewrite remove_only; simpl; lia
        | intros; discriminate]. }
    assert (S1 : sessions (trace w ++ [Released c]) = [])
      by (rewrite sessions_snoc, Hses; apply remove_only).
    apply consistent_intro.
    + apply one_at_a_time_snoc;
        [assumption | rewrite S1; simpl; lia | intros; discriminate].
    + rewrite sessions_snoc, S1. reflexivity.
    + reflexivity.
  - apply consistent_intro.
    + apply one_at_a_time_snoc;
        [assumption | rewrite Hses; simpl; lia | intros; discriminate].
    + rewrite sessions_snoc, Hses. reflexivity.
    + reflexivity.
Qed.

Lemma consistent_poll (srv : Server) (w : World) :
  consistent w -> consistent (snd (_poll_mute srv w)).
Proof.
  intros Hw. unfold _poll_mute, bind, get_ws, ret.
  destruct (_ws w); [|exact Hw].
  destruct (get_input_list srv) as [resp|].
  - destruct (filter is_mic _); exact Hw.
  - destruct (_disconnect w) as [u w'] eqn:E. simpl.
    replace w' with (snd (_disconnect w)) by now rewrite E.
    now apply consistent_disconnect.
Qed.

(** Commands that keep the fields and the log in agreement, and how they
    compose. *)
Definition preserves {A} (m : M A) : Prop :=
  forall w, consistent w -> consistent (snd (m w)).

Lemma bind_keeps {A B} (m : M A) (k : A -> M B) (w : World) :
  consistent (snd (m w)) ->
  (forall a, preserves (k a)) ->
  consistent (snd (bind m k w)).
Proof.
  intros Hm Hk. unfold bind. destruct (m w) as [a w']. apply Hk. exact Hm.
Qed.

Lemma preserves_bind {A B} (m : M A) (k : A -> M B) :
  preserves m -> (forall a, preserves (k a)) -> preserves (bind m k).
Proof.
  intros Hm Hk w Hw. apply bind_keeps; auto.
Qed.

Lemma preserves_ret {A} (a : A) : preserves (ret a).
Proof.
  intros w Hw. exact Hw.
Qed.

Lemma preserves_read_connected {B} (k : bool -> M B) :
  (forall w, consistent w -> consistent (snd (k (_connected w) w))) ->
  preserves (bind get_connected k).
Proof.
  intros Hk w Hw. unfold bind, get_connected. now apply Hk.
Qed.

Lemma preserves_when (b : bool) (m : M unit) :
  preserves m -> preserves (when b m).
Proof.
  intros Hm. destruct b; [exact Hm | apply preserves_ret].
Qed.

Lemma preserves_on_conn (b : bool) : preserves (_on_conn b).
Proof.
  intros w Hw. apply consistent_callback; eauto.
Qed.

Lemma preserves_on_state (b : bool) : preserves (_on_state b).
Proof.
  intros w Hw. apply consistent_callback; eauto.
Qed.

Lemma preserves_disconnect : preserves _disconnect.
Proof.
  intros w Hw. now apply consistent_disconnect.
Qed.

Lemma preserves_poll (srv : Server) : preserves (_poll_mute srv).
Proof.
  intros w Hw. now apply consistent_poll.
Qed.

(** [_connect] guarded by a fresh reading of [_connected]. *)
Lemma preserves_guarded_connect (h : handshake) :
  preserves (connected <- get_connected ;; when (negb connected) (_connect h)).
Proof.
  apply preserves_read_connected. intros w Hw.
  destruct (_connected w) eqn:Hc; simpl; [exact Hw | now apply consistent_connect].
Qed.

Lemma consistent_loop_body (t : Tick) (was : bool) (w : World) :
  consistent w -> consistent (snd (loop_body t was w)).
Proof.
  revert w. change (preserves (loop_body t was)). unfold loop_body.
  apply preserves_read_connected. intros w Hw.
  apply bind_keeps.
  { destruct (obs_up t), (_connected w) eqn:Hc; simpl; auto.
    - now apply consistent_connect.
    - now apply consistent_disconnect. }
  intros _. apply preserves_bind.
  { apply preserves_when, preserves_on_conn. }
  intros _. apply preserves_bind.
  { apply preserves_when, preserves_guarded_connect. }
  intros _. apply preserves_read_connected. intros w' Hw'.
  apply bind_keeps; [|intros _; apply preserves_ret].
  apply preserves_when; [|exact Hw'].
  apply preserves_bind; [apply preserves_poll|].
  intros [b|]; [apply preserves_on_state | apply preserves_ret].
Qed.

Lemma consistent_loop_from (ticks : list Tick) :
  forall was w, consistent w -> consistent (snd (loop_from ticks was w)).
Proof.
  induction ticks as [|t rest IH]; intros was w Hw; simpl.
  - exact Hw.
  - unfold bind. pose proof (consistent_loop_body t was Hw) as H.
    destruct (loop_body t was w) as [was' w']. now apply IH.
Qed.

(** C8.  Whatever the loop meets, tick after tick, from construction on: at
    every point of the log at most one session is open, every session is
    opened at a point where none is open (so the one before it was released
    first), and in the end the open sessions are the one handle the manager
    holds, if it holds one. *)
Theorem at_most_one_session (ticks : list Tick) :
  let w := snd (_loop ticks init) in
  (forall n,
      (List.length (sessions (firstn n (trace w))) <= 1)%nat /\
      (forall c, nth_error (trace w) n = Some (Opened c) ->
                 sessions (firstn n (trace w)) = [])) /\
  sessions (trace w) = held w /\
  (List.length (held w) <= 1)%nat.
Proof.
  cbv zeta.
  assert (Hinit : consistent init)
    by (apply consistent_intro; [apply one_at_a_time_nil | reflexivity | reflexivity]).
  destruct (consistent_loop_from ticks false Hinit) as (Hone & Hses & _).
  split; [exact Hone|]. split; [exact Hses|].
  unfold held. destruct (_ws _); simpl; lia.
Qed.

End OBSFacts.

(* ================================================================== *)
(** * Properties of the overlay and of the coordinator                 *)
(* ================================================================== *)

Module OverlayFacts.

Import Overlay.

(** C5.  [set_state] stores the flag and snaps the target to 1.0 or 0.0; the
    breathing phase, the displayed level, the visibility and every other
    field are left as they were. *)
Theorem set_state_frame (all_live : bool) (o : OverlayWindow) :
  let o' := set_state all_live o in
  _all_live o' = all_live /\
  _target_live o' = (if all_live then 1%float else 0%float) /\
  _breathe_t o' = _breathe_t o /\
  _display_live o' = _display_live o /\
  _visible o' = _visible o /\
  _drag_start_x o' = _drag_start_x o /\
  _drag_start_y o' = _drag_start_y o /\
  wm o' = wm o /\
  painted o' = painted o.
Proof.
  cbv zeta. unfold set_state. simpl. repeat split.
Qed.

(** ** The breathing phase *)

Lemma breathe_perform (o : OverlayWindow) (c : call) :
  _breathe_t (perform o c) =
  match c with
  | Animate => (_breathe_t o + dt)%float
  | _ => _breathe_t o
  end.
Proof.
  destruct c as [| | |b]; simpl; try reflexivity.
  - unfold show. destruct (negb (_visible o)); reflexivity.
  - unfold hide. destruct (_visible o); reflexivity.
Qed.

Lemma breathe_run (calls : list call) :
  forall o, _breathe_t (run calls o) =
            Nat.iter (ticks calls) (fun t => (t + dt)%float) (_breathe_t o).
Proof.
  unfold run, ticks.
  induction calls as [|c rest IH] using rev_ind; intros o; [reflexivity|].
  rewrite fold_left_app, filter_app, length_app. simpl fold_left.
  rewrite breathe_perform, IH.
  destruct c; simpl; rewrite ?Nat.add_0_r; try reflexivity.
  rewrite Nat.add_1_r. reflexivity.
Qed.

(** C6.  Every timer tick adds [dt] to the phase, visible or not, and no
    other call touches it: two runs from the same phase with the same number
    of ticks end in the same phase, however [show] and [hide] (and
    [set_state]) are interleaved with the ticks. *)
Theorem breathe_phase_ignores_visibility
        (calls1 calls2 : list call) (o1 o2 : OverlayWindow) :
  _breathe_t o1 = _breathe_t o2 ->
  ticks calls1 = ticks calls2 ->
  _breathe_t (_animate o1) = (_breathe_t o1 + dt)%float /\
  _breathe_t (show o1) = _breathe_t o1 /\
  _breathe_t (hide o1) = _breathe_t o1 /\
  _breathe_t (run calls1 o1) = _breathe_t (run calls2 o2).
Proof.
  intros Ho Hn. repeat split.
  - apply (breathe_perform o1 Show).
  - apply (breathe_perform o1 Hide).
  - rewrite !breathe_run, Ho, Hn. reflexivity.
Qed.

(** Witness of C6: three ticks seen, and three ticks of which two pass while
    the overlay is hidden. *)
Lemma breathe_phase_ignores_visibility_witness :
  _breathe_t (run [Show; Animate; Animate; Animate] init) =
  _breathe_t (run [Show; Animate; Hide; Animate; Animate; Show] init).
Proof.
  apply (breathe_phase_ignores_visibility
           [Show; Animate; Animate; Animate]
           [Show; Animate; Hide; Animate; Animate; Show] init init);
    reflexivity.
Defined.

End OverlayFacts.

Module AppFacts.

Import Overlay App.

Lemma idle_invoke (f : callback) (a : MicBuddyApp) : idle (invoke f a) = idle a.
Proof.
  destruct f; reflexivity.
Qed.

Lemma idle_fold (q : list callback) :
  forall a, idle (fold_left (fun a f => invoke f a) q a) = idle a.
Proof.
  induction q as [|f q IH]; intros a; simpl; [reflexivity|].
  rewrite IH. apply idle_invoke.
Qed.

Lemma show_visible (o : OverlayWindow) : _visible (show o) = true.
Proof.
  unfold show. destruct (_visible o) eqn:E; simpl; [exact E | reflexivity].
Qed.

Lemma hide_visible (o : OverlayWindow) : _visible (hide o) = false.
Proof.
  unfold hide. destruct (_visible o) eqn:E; simpl; [reflexivity | exact E].
Qed.

Lemma show_again (o : OverlayWindow) : _visible o = true -> show o = o.
Proof.
  intros E. unfold show. now rewrite E.
Qed.

Lemma hide_again (o : OverlayWindow) : _visible o = false -> hide o = o.
Proof.
  intros E. unfold hide. now rewrite E.
Qed.

(** What handling a connectivity signal comes to: the callbacks already
    queued run first, with the new flag stored; then the overlay is shown or
    hidden and the tray menu rebuilt. *)
Lemma handle_connection_eq (b : bool) (a : MicBuddyApp) :
  handle_connection b a =
  _update_tray_menu
    (invoke (if b then OverlayShow else OverlayHide)
       (fold_left (fun a f => invoke f a) (idle a)
          (mkApp (_all_live a) b (overlay a) [] (tray_icon a) (tray_menu a)))).
Proof.
  unfold handle_connection, run_idle, _on_connection_change, after_idle. simpl.
  rewrite <- app_assoc, fold_left_app. reflexivity.
Qed.

(** ** The window follows the flag *)

Lemma mapped_snoc (log extra : list wm_call) :
  mapped (log ++ extra) =
  fold_left (fun m c => match c with
                        | Deiconify => true
                        | Withdraw => false
                        | Lift | Topmost => m
                        end) extra (mapped log).
Proof. unfold mapped. apply fold_left_app. Qed.

(** [show] leaves the window mapped and [hide] leaves it withdrawn, when the
    flag said where the window was. *)
Lemma show_maps (o : OverlayWindow) :
  mapped (wm o) = _visible o -> mapped (wm (show o)) = true.
Proof.
  intros H. unfold show. destruct (_visible o); cbn [negb wm].
  - exact H.
  - rewrite mapped_snoc. reflexivity.
Qed.

Lemma hide_withdraws (o : OverlayWindow) :
  mapped (wm o) = _visible o -> mapped (wm (hide o)) = false.
Proof.
  intros H. unfold hide. destruct (_visible o); cbn [wm].
  - rewrite mapped_snoc. reflexivity.
  - exact H.
Qed.

Lemma invoke_agrees (f : callback) (a : MicBuddyApp) :
  mapped (wm (overlay a)) = _visible (overlay a) ->
  mapped (wm (overlay (invoke f a))) = _visible (overlay (invoke f a)).
Proof.
  intros H. destruct f; cbn [invoke with_overlay overlay _update_ui
                              _update_tray_menu _update_tray_icon set_state
                              wm _visible].
  - rewrite show_visible. apply show_maps, H.
  - rewrite hide_visible. apply hide_withdraws, H.
  - exact H.
  - exact H.
Qed.

Lemma fold_agrees (q : list callback) :
  forall a, mapped (wm (overlay a)) = _visible (overlay a) ->
            let r := fold_left (fun a f => invoke f a) q a in
            mapped (wm (overlay r)) = _visible (overlay r).
Proof.
  induction q as [|f q IH]; intros a H; cbn [fold_left].
  - exact H.
  - apply IH, invoke_agrees, H.
Qed.

Lemma handle_connection_window (connected : bool) (a : MicBuddyApp) :
  mapped (wm (overlay a)) = _visible (overlay a) ->
  mapped (wm (overlay (handle_connection connected a))) = connected.
Proof.
  intros H. rewrite handle_connection_eq.
  set (a0 := fold_left _ _ _).
  assert (H0 : mapped (wm (overlay a0)) = _visible (overlay a0)).
  { apply fold_agrees. exact H. }
  destruct connected; cbn [_update_tray_menu overlay invoke with_overlay].
  - apply show_maps, H0.
  - apply hide_withdraws, H0.
Qed.

(** The flag after a connectivity signal, and the second handling. *)
Lemma handle_connection_flag (connected : bool) (a : MicBuddyApp) :
  _visible (overlay (handle_connection connected a)) = connected /\
  handle_connection connected (handle_connection connected a) =
  handle_connection connected a /\
  show (show (overlay a)) = show (overlay a) /\
  hide (hide (overlay a)) = hide (overlay a).
Proof.
  assert (Hvis : _visible (overlay (handle_connection connected a)) = connected).
  { rewrite handle_connection_eq. destruct connected; simpl.
    - apply show_visible.
    - apply hide_visible. }
  split; [exact Hvis|]. split; [|split].
  - set (a1 := handle_connection connected a) in *.
    assert (Hidle : idle a1 = []).
    { unfold a1. rewrite handle_connection_eq. unfold _update_tray_menu. simpl.
      rewrite idle_invoke, idle_fold. reflexivity. }
    assert (Hconn : _connected a1 = connected /\ tray_menu a1 = (connected, _all_live a1)).
    { unfold a1. rewrite handle_connection_eq. unfold _update_tray_menu. simpl.
      set (a0 := fold_left _ _ _).
      assert (Hc : forall q a', _connected (fold_left (fun a f => invoke f a) q a') = _connected a').
      { induction q as [|f q IH]; intros a'; simpl; [reflexivity|].
        rewrite IH. destruct f; reflexivity. }
      assert (H0 : _connected a0 = connected) by (unfold a0; now rewrite Hc).
      destruct connected; simpl; rewrite H0; auto. }
    destruct Hconn as [Hconn Hmenu].
    rewrite (handle_connection_eq connected a1), Hidle. simpl.
    destruct a1 as [al co ov q icon menu]. simpl in *. subst co menu q.
    destruct connected; simpl; unfold with_overlay, _update_tray_menu; simpl.
    + rewrite show_again by exact Hvis. reflexivity.
    + rewrite hide_again by exact Hvis. reflexivity.
  - apply show_again, show_visible.
  - apply hide_again, hide_visible.
Qed.

(** C7.  Handling a connectivity signal leaves the overlay visible for
    [true] and hidden for [false]: the [_visible] flag says so from every
    state, and the window itself is mapped for [true] and withdrawn for
    [false] whenever the flag agreed with the window before.  Handling the
    same value a second time changes nothing at all: the second [show] (or
    [hide]) finds the overlay already in that state and makes no call on the
    window. *)
Theorem connection_signal_idempotent (connected : bool) (a : MicBuddyApp) :
  _visible (overlay (handle_connection connected a)) = connected /\
  (mapped (wm (overlay a)) = _visible (overlay a) ->
   mapped (wm (overlay (handle_connection connected a))) = connected) /\
  handle_connection connected (handle_connection connected a) =
  handle_connection connected a /\
  wm (overlay (handle_connection connected (handle_connection connected a))) =
  wm (overlay (handle_connection connected a)) /\
  show (show (overlay a)) = show (overlay a) /\
  hide (hide (overlay a)) = hide (overlay a).
Proof.
  destruct (handle_connection_flag connected a) as (Hv & Hi & Hs & Hh).
  split; [exact Hv|]. split; [exact (handle_connection_window connected a)|].
  split; [exact Hi|]. split; [rewrite Hi; reflexivity|].
  split; [exact Hs | exact Hh].
Qed.

(** Witness of C7 at the coordinator as constructed: the window, withdrawn
    by [__init__], is mapped once a [true] signal has been handled. *)
Lemma connection_signal_idempotent_witness :
  mapped (wm (overlay init)) = _visible (overlay init) /\
  mapped (wm (overlay (handle_connection true init))) = true.
Proof.
  split; [reflexivity|].
  exact (proj1 (proj2 (connection_signal_idempotent true init)) eq_refl).
Defined.

End AppFacts.

Unset Implicit Arguments.

(* ================================================================== *)
(** * Rounding in binary64 *)
(* ================================================================== *)

Module B64Facts.

Import B64.

Local Open Scope Z_scope.

(** ** Digits and shifts *)

(** A positive number of [d] binary digits lies from [2^(d-1)] up to, but not
    at, [2^d]. *)
Lemma digits2_pos_bounds (p : positive) :
  2 ^ (Zpos (digits2_pos p) - 1) <= Zpos p < 2 ^ Zpos (digits2_pos p).
Proof.
  induction p as [p IH|p IH|]; simpl digits2_pos.
  - rewrite Pos2Z.inj_succ, Z.pow_succ_r by lia.
    replace (Z.succ (Zpos (digits2_pos p)) - 1) with (Z.succ (Zpos (digits2_pos p) - 1)) by lia.
    rewrite Z.pow_succ_r by lia. lia.
  - rewrite Pos2Z.inj_succ, Z.pow_succ_r by lia.
    replace (Z.succ (Zpos (digits2_pos p)) - 1) with (Z.succ (Zpos (digits2_pos p) - 1)) by lia.
    rewrite Z.pow_succ_r by lia. lia.
  - simpl. lia.
Qed.

(** [iter_pos f n] applies [f] [n] times. *)
Lemma iter_pos_nat {A} (f : A -> A) (n : positive) :
  forall x, iter_pos f n x = Nat.iter (Pos.to_nat n) f x.
Proof.
  induction n as [n IH|n IH|]; intros x; simpl iter_pos.
  - rewrite !IH, Pos2Nat.inj_xI.
    replace (S (2 * Pos.to_nat n))%nat with (Pos.to_nat n + (Pos.to_nat n + 1))%nat by lia.
    rewrite !Nat.iter_add. reflexivity.
  - rewrite !IH, Pos2Nat.inj_xO.
    replace (2 * Pos.to_nat n)%nat with (Pos.to_nat n + Pos.to_nat n)%nat by lia.
    rewrite Nat.iter_add. reflexivity.
  - reflexivity.
Qed.

(** One shift to the right halves the mantissa, and drops nothing from an
    even mantissa that had dropped nothing yet. *)
Lemma shr_1_m (r : shr_record) :
  0 <= shr_m r -> shr_m (shr_1 r) = shr_m r / 2.
Proof.
  destruct r as [m r s]; cbn [shr_m]. intros Hm.
  destruct m as [|[p|p|]|p]; cbn [shr_1 shr_m]; try lia; try reflexivity.
  - apply Z.div_unique with (r := 1); lia.
  - apply Z.div_unique with (r := 0); lia.
Qed.

Lemma shr_1_inexact (r : shr_record) :
  0 <= shr_m r -> inexact r = false -> shr_m r mod 2 = 0 ->
  inexact (shr_1 r) = false.
Proof.
  destruct r as [m r s]; unfold inexact; cbn [shr_m shr_r shr_s]. intros Hm Hrs Hmod.
  apply orb_false_iff in Hrs. destruct Hrs as [-> ->].
  destruct m as [|[p|p|]|p]; cbn [shr_1 shr_r shr_s orb]; try reflexivity; try lia.
  - exfalso. rewrite Pos2Z.inj_xI in Hmod.
    rewrite Z.add_comm, Z.mul_comm, Z.mod_add in Hmod by lia. discriminate.
  - exfalso. discriminate.
Qed.

(** [k] shifts divide the mantissa by [2^k], and drop nothing when [2^k]
    divides it. *)
Lemma shr_iter (k : nat) (r : shr_record) :
  0 <= shr_m r ->
  shr_m (Nat.iter k shr_1 r) = shr_m r / 2 ^ Z.of_nat k /\
  (inexact r = false -> shr_m r mod 2 ^ Z.of_nat k = 0 ->
   inexact (Nat.iter k shr_1 r) = false).
Proof.
  intros Hm. induction k as [|k [IHm IHi]].
  - simpl. rewrite Z.div_1_r. auto.
  - change (Nat.iter (S k) shr_1 r) with (shr_1 (Nat.iter k shr_1 r)).
    rewrite Nat2Z.inj_succ, Z.pow_succ_r by lia.
    assert (H0 : 0 <= shr_m (Nat.iter k shr_1 r)).
    { rewrite IHm. apply Z.div_pos; lia. }
    split.
    + rewrite shr_1_m, IHm by exact H0.
      rewrite Z.div_div by lia. f_equal. lia.
    + intros Hi Hmod.
      assert (Hk : shr_m r mod 2 ^ Z.of_nat k = 0).
      { apply Z.mod_divide in Hmod; [|lia]. apply Z.mod_divide; [lia|].
        destruct Hmod as [q Hq]. exists (q * 2). lia. }
      apply shr_1_inexact; auto.
      rewrite IHm.
      apply Z.mod_divide in Hmod; [|lia]. destruct Hmod as [q Hq].
      rewrite Hq. replace (q * (2 * 2 ^ Z.of_nat k)) with ((q * 2) * 2 ^ Z.of_nat k) by lia.
      rewrite Z.div_mul by lia. apply Z.mod_mul. lia.
Qed.

(** The exponent binary64 gives to the numbers below [2^e] in magnitude. *)
Abbreviation fexp64 := (fexp prec emax).

Lemma fexp64_eq (e : Z) : fexp64 e = Z.max (e - 53) (-1074).
Proof. reflexivity. Qed.

Lemma Zdigits2_lt (k b : Z) : 0 <= b -> 0 <= k < 2 ^ b -> Zdigits2 k <= b.
Proof.
  intros Hb [H0 Hk]. destruct k as [|p|p]; simpl; try lia.
  pose proof (digits2_pos_bounds p) as [Hlo _].
  assert (H : 2 ^ (Zpos (digits2_pos p) - 1) < 2 ^ b) by lia.
  apply Z.pow_lt_mono_r_iff in H; lia.
Qed.

(** The first shift of [binary_round_aux]. *)
Lemma shr_fexp_exact (m e : Z) :
  0 <= m ->
  let n := Z.max 0 (fexp64 (Zdigits2 m + e) - e) in
  let r := fst (shr_fexp prec emax m e loc_Exact) in
  snd (shr_fexp prec emax m e loc_Exact) = e + n /\
  shr_m r = m / 2 ^ n /\
  (m mod 2 ^ n = 0 -> inexact r = false).
Proof.
  intros Hm. unfold shr_fexp, shr. cbn [shr_record_of_loc].
  destruct (fexp64 (Zdigits2 m + e) - e) as [|p|p] eqn:En; cbn [fst snd shr_m].
  - rewrite Z.max_id, Z.add_0_r, Z.pow_0_r, Z.div_1_r. auto.
  - rewrite Z.max_r by lia. rewrite iter_pos_nat.
    destruct (@shr_iter (Pos.to_nat p) (Build_shr_record m false false) Hm) as [H1 H2].
    rewrite positive_nat_Z in H1, H2. cbn [shr_m] in H1, H2.
    repeat split; auto.
  - rewrite Z.max_l by lia. rewrite Z.add_0_r, Z.pow_0_r, Z.div_1_r. auto.
Qed.

(** Rounding keeps the cut mantissa or takes the next one, and keeps it
    when nothing was dropped. *)
Lemma round_nearest_even_cases (m : Z) (r : shr_record) :
  let k := round_nearest_even m (loc_of_shr_record r) in
  (k = m \/ k = m + 1) /\ (inexact r = false -> k = m).
Proof.
  destruct r as [m' [|] [|]]; unfold inexact; simpl; try (split; [auto | intros; try discriminate; auto]).
  destruct (Z.even m); auto.
Qed.

(** What [binary_round_aux] returns on an exact positive input: the
    mantissa is cut at the exponent [e'] the format allows, and the result is
    the cut value or the next multiple of [2^e']. *)
Lemma binary_round_aux_cases (sx : bool) (m : positive) (ex : Z) :
  let e1 := fexp64 (Zpos (digits2_pos m) + ex) in
  let n := Z.max 0 (e1 - ex) in
  let q := Zpos m / 2 ^ n in
  exists k,
    (k = q \/ k = q + 1) /\
    (Zpos m mod 2 ^ n = 0 -> k = q) /\
    exists m3 e3,
      0 <= m3 /\ (m3 = k /\ e3 = ex + n \/ k = 2 * m3 /\ e3 = ex + n + 1) /\
      binary_round_aux prec emax sx (Zpos m) ex loc_Exact =
      match m3 with
      | Z0 => S754_zero sx
      | Zpos p => if e3 <=? emax - prec then S754_finite sx p e3 else S754_infinity sx
      | Zneg _ => S754_nan
      end.
Proof.
  intros e1 n q.
  destruct (@shr_fexp_exact (Zpos m) ex ltac:(lia)) as (He' & Hm1 & Hex1).
  unfold binary_round_aux.
  destruct (shr_fexp prec emax (Zpos m) ex loc_Exact) as [mrs' e'] eqn:E1.
  cbn [fst snd] in He', Hm1, Hex1.
  change (e' = ex + n) in He'. change (shr_m mrs' = q) in Hm1.
  change (Zpos m mod 2 ^ n = 0 -> inexact mrs' = false) in Hex1.
  destruct (round_nearest_even_cases (shr_m mrs') mrs') as [Hk Hkex].
  set (k := round_nearest_even (shr_m mrs') (loc_of_shr_record mrs')) in *.
  rewrite Hm1 in Hk, Hkex.
  assert (Hn0 : 0 <= n) by (unfold n; lia).
  assert (Hp : 0 < 2 ^ n) by (apply Z.pow_pos_nonneg; lia).
  assert (Hq0 : 0 <= q) by (apply Z.div_pos; lia).
  assert (Hk0 : 0 <= k) by lia.
  exists k. split; [exact Hk|]. split; [auto|].
  (* the bound on the cut mantissa *)
  pose proof (digits2_pos_bounds m) as [_ Hhi].
  assert (He1 : e1 = Z.max (Zpos (digits2_pos m) + ex - 53) (-1074)) by reflexivity.
  assert (Hq53 : q < 2 ^ 53).
  { unfold q. apply Z.div_lt_upper_bound; [lia|].
    rewrite <- Z.pow_add_r by lia.
    eapply Z.lt_le_trans; [exact Hhi|].
    apply Z.pow_le_mono_r; lia. }
  destruct (@shr_fexp_exact k e' Hk0) as (He'' & Hm3 & _).
  destruct (shr_fexp prec emax k e' loc_Exact) as [mrs'' e''] eqn:E2.
  cbn [fst snd] in He'', Hm3.
  exists (shr_m mrs''), e''. 
  assert (Hcase : k < 2 ^ 53 \/ k = 2 ^ 53) by lia.
  destruct Hcase as [Hlt|Heq].
  - assert (Hd : Zdigits2 k <= 53) by (apply Zdigits2_lt; lia).
    assert (Hn2 : Z.max 0 (fexp64 (Zdigits2 k + e') - e') = 0).
    { rewrite fexp64_eq. lia. }
    rewrite Hn2 in *. rewrite Z.pow_0_r, Z.div_1_r in Hm3. rewrite Z.add_0_r in He''.
    split; [lia|]. split; [left; split; lia|]. reflexivity.
  - assert (Hn2 : Z.max 0 (fexp64 (Zdigits2 k + e') - e') = 1).
    { rewrite Heq. change (Zdigits2 (2 ^ 53)) with 54. rewrite fexp64_eq. lia. }
    rewrite Hn2 in *. rewrite Heq in Hm3. 
    change (2 ^ 53 / 2 ^ 1) with (2 ^ 52) in Hm3.
    split; [rewrite Hm3; lia|]. split; [right; split; [rewrite Hm3, Heq; reflexivity | lia]|].
    reflexivity.
Qed.

Local Open Scope Q_scope.

(** ** Powers of two and scaled integers *)

Lemma pow2_pos (e : Z) : 0 < pow2 e.
Proof. apply Qpower_0_lt. reflexivity. Qed.

Lemma pow2_add (a b : Z) : pow2 (a + b) == pow2 a * pow2 b.
Proof. apply Qpower_plus. discriminate. Qed.

Lemma pow2_inject (n : Z) : (0 <= n)%Z -> pow2 n == inject_Z (2 ^ n).
Proof. intros H. unfold pow2. rewrite Zpower_Qpower by exact H. reflexivity. Qed.

Lemma pow2_le (a b : Z) : (a <= b)%Z -> pow2 a <= pow2 b.
Proof.
  intros H. unfold pow2. apply Qpower_le_compat_l; [exact H|]. discriminate.
Qed.

Lemma pow2_lt (a b : Z) : (a < b)%Z -> pow2 a < pow2 b.
Proof.
  intros H. unfold pow2. apply Qpower_lt_compat_l; [exact H|]. reflexivity.
Qed.

Lemma scale_le (a b e : Z) : (a <= b)%Z -> inject_Z a * pow2 e <= inject_Z b * pow2 e.
Proof.
  intros H. apply Qmult_le_compat_r; [|apply Qlt_le_weak, pow2_pos].
  now rewrite <- Zle_Qle.
Qed.

Lemma scale_lt (a b e : Z) : (a < b)%Z -> inject_Z a * pow2 e < inject_Z b * pow2 e.
Proof.
  intros H. apply Qmult_lt_compat_r; [apply pow2_pos|].
  now rewrite <- Zlt_Qlt.
Qed.

Lemma scale_le_inv (a b e : Z) : inject_Z a * pow2 e <= inject_Z b * pow2 e -> (a <= b)%Z.
Proof.
  intros H. destruct (Z.le_gt_cases a b) as [Hle|Hgt]; [exact Hle|].
  apply (scale_lt _ _ e) in Hgt. lra.
Qed.

Lemma scale_lt_inv (a b e : Z) : inject_Z a * pow2 e < inject_Z b * pow2 e -> (a < b)%Z.
Proof.
  intros H. destruct (Z.lt_ge_cases a b) as [Hlt|Hge]; [exact Hlt|].
  apply (scale_le _ _ e) in Hge. lra.
Qed.

(** Moving a power of two between mantissa and exponent. *)
Lemma scale_shift (m e n : Z) :
  (0 <= n)%Z -> inject_Z (m * 2 ^ n) * pow2 e == inject_Z m * pow2 (e + n).
Proof.
  intros Hn. rewrite inject_Z_mult, pow2_add, <- pow2_inject by exact Hn. ring.
Qed.

(** ** Rounding *)

(** A number rounds to itself, and rounding is symmetric about 0. *)
Lemma rounded_refl (x v : Q) : v == x -> rounded x v.
Proof.
  intros H c _. rewrite H. tauto.
Qed.

Lemma rounded_opp (x v : Q) : rounded x v -> rounded (- x) (- v).
Proof.
  intros H c (m & e & Hm & He & Hc).
  assert (Hr : representable (- c)).
  { exists (- m)%Z, e. rewrite Z.abs_opp. repeat split; auto.
    rewrite Hc, inject_Z_opp. ring. }
  destruct (H _ Hr) as [H1 H2]. split; intros Hx.
  - assert (- c <= x) by lra. specialize (H2 H0). lra.
  - assert (x <= - c) by lra. specialize (H1 H0). lra.
Qed.

(** The cut of a mantissa at a higher exponent brackets the value. *)
Lemma cut_bracket (m ex n : Z) :
  (0 <= m)%Z -> (0 <= n)%Z ->
  let x := inject_Z m * pow2 ex in
  let q := (m / 2 ^ n)%Z in
  inject_Z q * pow2 (ex + n) <= x /\
  x < inject_Z (q + 1) * pow2 (ex + n) /\
  ((m mod 2 ^ n = 0)%Z -> x == inject_Z q * pow2 (ex + n)) /\
  ((m mod 2 ^ n <> 0)%Z -> inject_Z q * pow2 (ex + n) < x).
Proof.
  intros Hm Hn x q.
  assert (Hp : (0 < 2 ^ n)%Z) by (apply Z.pow_pos_nonneg; lia).
  pose proof (Z.div_mod m (2 ^ n) ltac:(lia)) as Hdm.
  pose proof (Z.mod_pos_bound m (2 ^ n) Hp) as Hr.
  fold q in Hdm.
  rewrite <- !scale_shift by exact Hn. unfold x.
  repeat split.
  - apply scale_le. lia.
  - apply scale_lt. lia.
  - intros H0. f_equiv. rewrite inject_Z_injective. lia.
  - intros H0. apply scale_lt. lia.
Qed.

(** Both notions respect the equality of rationals. *)
#[export] Instance representable_proper : Proper (Qeq ==> iff) representable.
Proof.
  intros x y E. unfold representable. split; intros (m & e & Hm & He & Hc);
    exists m, e; repeat split; auto; [rewrite <- E | rewrite E]; exact Hc.
Qed.

#[export] Instance rounded_proper : Proper (Qeq ==> Qeq ==> iff) rounded.
Proof.
  intros x y E v w F. unfold rounded. split; intros H c Hc; specialize (H c Hc).
  - rewrite <- E, <- F. exact H.
  - rewrite E, F. exact H.
Qed.

(** No number of the format lies strictly between two neighbouring multiples
    of [2^e1] next to a value of [d] digits, where [e1] is the exponent the
    format gives to that many digits. *)
Lemma format_gap (m : positive) (ex : Z) :
  let e1 := fexp64 (Zpos (digits2_pos m) + ex) in
  let n := (e1 - ex)%Z in
  let q := (Zpos m / 2 ^ n)%Z in
  (0 < n)%Z ->
  forall c, representable c ->
            c <= inject_Z q * pow2 e1 \/ inject_Z (q + 1) * pow2 e1 <= c.
Proof.
  intros e1 n q Hn c (mc & ec & Hmc & Hec & Hc).
  assert (He1 : e1 = Z.max (Zpos (digits2_pos m) + ex - 53) (-1074)) by reflexivity.
  destruct (Z.le_gt_cases e1 ec) as [Hge|Hlt].
  - assert (Hj : c == inject_Z (mc * 2 ^ (ec - e1)) * pow2 e1).
    { rewrite scale_shift by lia. rewrite Hc. f_equiv. f_equiv. lia. }
    destruct (Z.le_gt_cases (mc * 2 ^ (ec - e1)) q) as [H|H].
    + left. rewrite Hj. now apply scale_le.
    + right. rewrite Hj. apply scale_le. lia.
  - left.
    assert (Hn53 : n = (Zpos (digits2_pos m) - 53)%Z) by (unfold n; lia).
    pose proof (digits2_pos_bounds m) as [Hlo _].
    assert (Hq : (2 ^ 52 <= q)%Z).
    { unfold q. apply Z.div_le_lower_bound; [apply Z.pow_pos_nonneg; lia|].
      rewrite <- Z.pow_add_r by lia.
      replace (n + 52)%Z with (Zpos (digits2_pos m) - 1)%Z by lia. exact Hlo. }
    apply Qle_trans with (inject_Z (2 ^ 52) * pow2 e1); [|now apply scale_le].
    rewrite Hc.
    apply Qle_trans with (inject_Z (2 ^ 53) * pow2 ec); [apply scale_le; lia|].
    rewrite <- !pow2_inject, <- !pow2_add by lia.
    apply pow2_le. lia.
Qed.

(** The value of the float built from a final mantissa, when the exponent
    has not run over. *)
Lemma build_value (sx : bool) (m3 e3 : Z) :
  (0 <= m3)%Z -> (m3 = 0 \/ e3 <= 971)%Z ->
  SFfinite (build sx m3 e3) = true /\
  SF2Q (build sx m3 e3) == inject_Z (cond_Zopp sx m3) * pow2 e3.
Proof.
  intros H0 He. destruct m3 as [|p|p]; simpl.
  - split; [reflexivity|]. destruct sx; simpl; ring.
  - change (emax - prec)%Z with 971%Z.
    destruct (Z.leb_spec e3 971); [|lia]. simpl. split; reflexivity.
  - lia.
Qed.

(** The rounding step of every operation: on an exact input well below the
    largest float, [binary_round_aux] returns a finite float, and its value
    is the input rounded. *)
Lemma binary_round_aux_rounded (sx : bool) (m : positive) (ex : Z) :
  inject_Z (Zpos m) * pow2 ex < pow2 971 ->
  let r := binary_round_aux prec emax sx (Zpos m) ex loc_Exact in
  SFfinite r = true /\
  rounded (inject_Z (cond_Zopp sx (Zpos m)) * pow2 ex) (SF2Q r).
Proof.
  intros Hx r.
  destruct (binary_round_aux_cases sx m ex) as (k & Hk & Hkex & m3 & e3 & Hm3 & Hme & Hr).
  fold r in Hr. change (r = build sx m3 e3) in Hr.
  set (e1 := fexp64 (Zpos (digits2_pos m) + ex)) in *.
  set (n := Z.max 0 (e1 - ex)) in *.
  set (q := (Zpos m / 2 ^ n)%Z) in *.
  assert (He1 : e1 = Z.max (Zpos (digits2_pos m) + ex - 53) (-1074)) by reflexivity.
  assert (Hn0 : (0 <= n)%Z) by (unfold n; lia).
  assert (Hq0 : (0 <= q)%Z) by (apply Z.div_pos; [lia | apply Z.pow_pos_nonneg; lia]).
  pose proof (digits2_pos_bounds m) as [Hlo Hhi].
  (* the value of the result, before the sign *)
  assert (Hv : inject_Z m3 * pow2 e3 == inject_Z k * pow2 (ex + n)).
  { destruct Hme as [[-> ->]|[-> ->]]; [reflexivity|].
    rewrite <- scale_shift by lia. f_equiv. f_equiv. lia. }
  (* no overflow *)
  assert (Hov : (m3 = 0 \/ e3 <= 971)%Z).
  { destruct (Z.le_gt_cases e3 971) as [H|H]; [now right|]. exfalso.
    assert (He' : (971 <= ex + n)%Z) by lia.
    assert (Hbig : pow2 971 <= inject_Z (Zpos m) * pow2 ex); [|lra].
    destruct (Z.le_gt_cases e1 ex) as [Hle|Hgt].
    - assert (n = 0%Z) by (unfold n; lia).
      apply Qle_trans with (inject_Z 1 * pow2 ex); [|apply scale_le; lia].
      rewrite Qmult_1_l. apply pow2_le. lia.
    - assert (n = (e1 - ex)%Z) by (unfold n; lia).
      apply Qle_trans with (inject_Z (2 ^ (Zpos (digits2_pos m) - 1)) * pow2 ex);
        [|now apply scale_le].
      rewrite <- pow2_inject, <- pow2_add by lia. apply pow2_le. lia. }
  destruct (build_value sx m3 e3 Hm3 Hov) as [Hfin Hval].
  rewrite Hr. split; [exact Hfin|].
  (* the unsigned claim *)
  assert (Hu : rounded (inject_Z (Zpos m) * pow2 ex) (inject_Z k * pow2 (ex + n))).
  { destruct (@cut_bracket (Zpos m) ex n ltac:(lia) Hn0) as (Hb1 & Hb2 & Hb3 & Hb4).
    fold q in Hb1, Hb2, Hb3, Hb4.
    destruct (Z.eq_dec (Zpos m mod 2 ^ n) 0) as [Hz|Hnz].
    - apply rounded_refl. rewrite (Hkex Hz). symmetry. now apply Hb3.
    - specialize (Hb4 Hnz).
      assert (Hgt : (0 < e1 - ex)%Z).
      { destruct (Z.le_gt_cases (e1 - ex) 0) as [H|H]; [|lia].
        exfalso. apply Hnz. replace n with 0%Z by (unfold n; lia).
        apply Z.mod_1_r. }
      assert (Hn : n = (e1 - ex)%Z) by (unfold n; lia).
      assert (He' : (ex + n = e1)%Z) by lia.
      intros c Hc.
      destruct (@format_gap m ex Hgt c Hc) as [Hg|Hg];
        fold e1 in Hg; rewrite <- Hn in Hg; fold q in Hg; rewrite <- He' in Hg.
      + split; intros Hxc; [lra|].
        apply Qle_trans with (1 := Hg). apply scale_le. lia.
      + split; intros Hxc; [|lra].
        apply Qle_trans with (2 := Hg). apply scale_le. lia. }
  destruct sx; cbn [cond_Zopp] in *.
  - assert (E1 : inject_Z (Z.neg m) * pow2 ex == - (inject_Z (Zpos m) * pow2 ex)).
    { change (Z.neg m) with (- Zpos m)%Z. rewrite inject_Z_opp. ring. }
    assert (E2 : SF2Q (build true m3 e3) == - (inject_Z k * pow2 (ex + n))).
    { rewrite Hval, <- Hv, inject_Z_opp. ring. }
    intros c Hc. rewrite E1, E2. now apply rounded_opp.
  - intros c Hc. rewrite Hval, Hv. now apply Hu.
Qed.

(** ** The operations of the specification *)

Lemma iter_xO (d m : positive) : Zpos (Pos.iter xO m d) = (Zpos m * 2 ^ Zpos d)%Z.
Proof.
  revert m. induction d as [|d IH] using Pos.peano_ind; intros m.
  - simpl. lia.
  - rewrite Pos.iter_succ, Pos2Z.inj_xO, IH, Pos2Z.inj_succ, Z.pow_succ_r by lia. lia.
Qed.

(** [shl_align] keeps the value and never raises the exponent. *)
Lemma shl_align_value (mx : positive) (ex ex' : Z) :
  inject_Z (Zpos (fst (shl_align mx ex ex'))) * pow2 (snd (shl_align mx ex ex')) ==
  inject_Z (Zpos mx) * pow2 ex /\
  snd (shl_align mx ex ex') = Z.min ex ex'.
Proof.
  unfold shl_align. destruct (ex' - ex)%Z as [|d|d] eqn:E; cbn [fst snd].
  - split; [reflexivity | lia].
  - split; [reflexivity | lia].
  - split; [|lia]. rewrite iter_xO, scale_shift by lia. f_equiv. f_equiv. lia.
Qed.

(** [binary_round] and [binary_normalize] round the number they are
    given. *)
Lemma binary_round_rounded (sx : bool) (m : positive) (ex : Z) :
  inject_Z (Zpos m) * pow2 ex < pow2 971 ->
  SFfinite (binary_round prec emax sx m ex) = true /\
  rounded (inject_Z (cond_Zopp sx (Zpos m)) * pow2 ex)
          (SF2Q (binary_round prec emax sx m ex)).
Proof.
  intros Hx. unfold binary_round.
  set (e' := fexp prec emax (Zpos (digits2_pos m) + ex)).
  destruct (shl_align_value m ex e') as [Hv _].
  destruct (shl_align m ex e') as [mz ez]. cbn [fst snd] in Hv.
  destruct (binary_round_aux_rounded sx mz ez) as [Hf Hr].
  { now rewrite Hv. }
  split; [exact Hf|].
  assert (E : inject_Z (cond_Zopp sx (Zpos m)) * pow2 ex ==
              inject_Z (cond_Zopp sx (Zpos mz)) * pow2 ez).
  { destruct sx; cbn [cond_Zopp].
    - change (Z.neg m) with (- Zpos m)%Z. change (Z.neg mz) with (- Zpos mz)%Z.
      rewrite !inject_Z_opp. setoid_replace (- inject_Z (Zpos m) * pow2 ex)
        with (- (inject_Z (Zpos m) * pow2 ex)) by ring.
      rewrite <- Hv. ring.
    - now rewrite Hv. }
  intros c Hc. rewrite E. now apply Hr.
Qed.

Lemma binary_normalize_rounded (m e : Z) (sz : bool) :
  - pow2 971 < inject_Z m * pow2 e < pow2 971 ->
  SFfinite (binary_normalize prec emax m e sz) = true /\
  rounded (inject_Z m * pow2 e) (SF2Q (binary_normalize prec emax m e sz)).
Proof.
  intros [Hlo Hhi]. destruct m as [|p|p]; cbn [binary_normalize].
  - split; [reflexivity|]. apply rounded_refl. simpl. ring.
  - apply (binary_round_rounded false p e). exact Hhi.
  - apply (binary_round_rounded true p e).
    change (Z.neg p) with (- Zpos p)%Z in Hlo. rewrite inject_Z_opp in Hlo. lra.
Qed.

(** The value of a finite float, aligned to a lower exponent. *)
Lemma aligned_value (s : bool) (m : positive) (e ez : Z) :
  (ez <= e)%Z ->
  inject_Z (cond_Zopp s (Zpos (fst (shl_align m e ez)))) * pow2 ez ==
  SF2Q (S754_finite s m e).
Proof.
  intros Hle. destruct (shl_align_value m e ez) as [Hv He].
  rewrite Z.min_r in He by exact Hle. rewrite He in Hv.
  cbn [SF2Q]. destruct s; cbn [cond_Zopp].
  - change (Z.neg (fst (shl_align m e ez))) with (- Zpos (fst (shl_align m e ez)))%Z.
    change (Z.neg m) with (- Zpos m)%Z. rewrite !inject_Z_opp.
    setoid_replace (- inject_Z (Zpos m) * pow2 e) with (- (inject_Z (Zpos m) * pow2 e)) by ring.
    rewrite <- Hv. ring.
  - exact Hv.
Qed.

(** The sum, the difference and the product of two finite floats are the
    exact results, rounded. *)
Lemma SFadd_rounded (x y : spec_float) :
  SFfinite x = true -> SFfinite y = true ->
  - pow2 971 < SF2Q x + SF2Q y < pow2 971 ->
  SFfinite (SFadd prec emax x y) = true /\
  rounded (SF2Q x + SF2Q y) (SF2Q (SFadd prec emax x y)).
Proof.
  intros Hx Hy Hb.
  destruct x as [sx|sx| |sx mx ex]; try discriminate;
    destruct y as [sy|sy| |sy my ey]; try discriminate; cbn [SFadd].
  - split; [destruct sx, sy; reflexivity|].
    apply rounded_refl. destruct sx, sy; simpl; ring.
  - split; [reflexivity|]. apply rounded_refl. cbn [SF2Q]. ring.
  - split; [reflexivity|]. apply rounded_refl. cbn [SF2Q]. ring.
  - set (ez := Z.min ex ey).
    assert (E : inject_Z (cond_Zopp sx (Zpos (fst (shl_align mx ex ez))) +
                          cond_Zopp sy (Zpos (fst (shl_align my ey ez)))) * pow2 ez ==
                SF2Q (S754_finite sx mx ex) + SF2Q (S754_finite sy my ey)).
    { rewrite inject_Z_plus, Qmult_plus_distr_l.
      rewrite !aligned_value by (unfold ez; lia). reflexivity. }
    destruct (binary_normalize_rounded
                (cond_Zopp sx (Zpos (fst (shl_align mx ex ez))) +
                 cond_Zopp sy (Zpos (fst (shl_align my ey ez)))) ez false) as [Hf Hr].
    { now rewrite E. }
    split; [exact Hf|]. intros c Hc. rewrite <- E. now apply Hr.
Qed.

Lemma SFsub_rounded (x y : spec_float) :
  SFfinite x = true -> SFfinite y = true ->
  - pow2 971 < SF2Q x - SF2Q y < pow2 971 ->
  SFfinite (SFsub prec emax x y) = true /\
  rounded (SF2Q x - SF2Q y) (SF2Q (SFsub prec emax x y)).
Proof.
  intros Hx Hy Hb.
  destruct x as [sx|sx| |sx mx ex]; try discriminate;
    destruct y as [sy|sy| |sy my ey]; try discriminate; cbn [SFsub].
  - split; [destruct sx, sy; reflexivity|].
    apply rounded_refl. destruct sx, sy; simpl; ring.
  - split; [reflexivity|]. apply rounded_refl. cbn [SF2Q].
    destruct sy; cbn [negb cond_Zopp].
    + change (Z.neg my) with (- Zpos my)%Z. rewrite inject_Z_opp. ring.
    + change (Z.neg my) with (- Zpos my)%Z. rewrite inject_Z_opp. ring.
  - split; [reflexivity|]. apply rounded_refl. cbn [SF2Q]. ring.
  - set (ez := Z.min ex ey).
    assert (E : inject_Z (cond_Zopp sx (Zpos (fst (shl_align mx ex ez))) -
                          cond_Zopp sy (Zpos (fst (shl_align my ey ez)))) * pow2 ez ==
                SF2Q (S754_finite sx mx ex) - SF2Q (S754_finite sy my ey)).
    { unfold Z.sub. rewrite inject_Z_plus, inject_Z_opp, Qmult_plus_distr_l.
      setoid_replace (- inject_Z (cond_Zopp sy (Zpos (fst (shl_align my ey ez)))) * pow2 ez)
        with (- (inject_Z (cond_Zopp sy (Zpos (fst (shl_align my ey ez)))) * pow2 ez)) by ring.
      rewrite !aligned_value by (unfold ez; lia). reflexivity. }
    destruct (binary_normalize_rounded
                (cond_Zopp sx (Zpos (fst (shl_align mx ex ez))) -
                 cond_Zopp sy (Zpos (fst (shl_align my ey ez)))) ez false) as [Hf Hr].
    { now rewrite E. }
    split; [exact Hf|]. intros c Hc. rewrite <- E. now apply Hr.
Qed.

Lemma SFmul_rounded (x y : spec_float) :
  SFfinite x = true -> SFfinite y = true ->
  - pow2 971 < SF2Q x * SF2Q y < pow2 971 ->
  SFfinite (SFmul prec emax x y) = true /\
  rounded (SF2Q x * SF2Q y) (SF2Q (SFmul prec emax x y)).
Proof.
  intros Hx Hy Hb.
  destruct x as [sx|sx| |sx mx ex]; try discriminate;
    destruct y as [sy|sy| |sy my ey]; try discriminate; cbn [SFmul].
  - split; [reflexivity|]. apply rounded_refl. simpl. ring.
  - split; [reflexivity|]. apply rounded_refl. simpl. ring.
  - split; [reflexivity|]. apply rounded_refl. simpl. ring.
  - assert (E : inject_Z (cond_Zopp (xorb sx sy) (Zpos (mx * my))) * pow2 (ex + ey) ==
                SF2Q (S754_finite sx mx ex) * SF2Q (S754_finite sy my ey)).
    { cbn [SF2Q]. rewrite pow2_add.
      assert (Es : inject_Z (cond_Zopp (xorb sx sy) (Zpos (mx * my))) ==
                   inject_Z (cond_Zopp sx (Zpos mx)) * inject_Z (cond_Zopp sy (Zpos my))).
      { rewrite <- inject_Z_mult. f_equiv. destruct sx, sy; simpl; reflexivity. }
      rewrite Es. ring. }
    destruct (binary_round_aux_rounded (xorb sx sy) (mx * my) (ex + ey)) as [Hf Hr].
    { assert (Ea : inject_Z (Zpos (mx * my)) * pow2 (ex + ey) ==
                   Qabs (inject_Z (cond_Zopp (xorb sx sy) (Zpos (mx * my))) * pow2 (ex + ey))).
      { rewrite Qabs_Qmult, (Qabs_pos (pow2 _)) by (apply Qlt_le_weak, pow2_pos).
        f_equiv. destruct (xorb sx sy); cbn [cond_Zopp].
        - change (Z.neg (mx * my)) with (- Zpos (mx * my))%Z.
          rewrite inject_Z_opp, Qabs_opp. symmetry. apply Qabs_pos.
          change 0 with (inject_Z 0). rewrite <- Zle_Qle. lia.
        - symmetry. apply Qabs_pos. change 0 with (inject_Z 0). rewrite <- Zle_Qle. lia. }
      rewrite Ea, E. apply Qabs_Qlt_condition. exact Hb. }
    split; [exact Hf|]. intros c Hc. rewrite <- E. now apply Hr.
Qed.

(** A valid mantissa has at most 53 bits at an exponent of at least -1074,
    and all 53 of them above that exponent. *)
Lemma bounded_inv (m : positive) (e : Z) :
  bounded prec emax m e = true ->
  (Zpos m < 2 ^ 53)%Z /\ (-1074 <= e <= 971)%Z /\
  ((-1074 < e)%Z -> (2 ^ 52 <= Zpos m)%Z).
Proof.
  unfold bounded, canonical_mantissa. intros H.
  apply andb_prop in H. destruct H as [H1 H2].
  apply Z.eqb_eq in H1. apply Z.leb_le in H2.
  rewrite fexp64_eq in H1. change (emax - prec)%Z with 971%Z in H2.
  pose proof (digits2_pos_bounds m) as [Hlo Hhi].
  assert (Hd : (Zpos (digits2_pos m) <= 53)%Z) by lia.
  repeat split; try lia.
  - eapply Z.lt_le_trans; [exact Hhi|]. apply Z.pow_le_mono_r; lia.
  - intros He. assert (Zpos (digits2_pos m) = 53%Z) by lia.
    rewrite H in Hlo. exact Hlo.
Qed.

(** Every float stands for a number of the format. *)
Lemma valid_representable (x : spec_float) :
  valid_binary x = true -> representable (SF2Q x).
Proof.
  intros Hv. destruct x as [s|s| |s m e]; cbn [SF2Q];
    try (exists 0%Z, 0%Z; repeat split; try lia; ring).
  apply bounded_inv in Hv. destruct Hv as (Hm & He & _).
  exists (cond_Zopp s (Zpos m)), e. repeat split; try lia.
  destruct s; simpl; lia.
Qed.

Lemma F2Q_representable (x : float) : representable (F2Q x).
Proof.
  apply valid_representable, Prim2SF_valid.
Qed.

(** Among valid mantissas, the smaller exponent is the smaller number. *)
Lemma bounded_lt (m1 m2 : positive) (e1 e2 : Z) :
  bounded prec emax m1 e1 = true -> bounded prec emax m2 e2 = true ->
  (e1 < e2)%Z ->
  inject_Z (Zpos m1) * pow2 e1 < inject_Z (Zpos m2) * pow2 e2.
Proof.
  intros H1 H2 He.
  apply bounded_inv in H1, H2.
  destruct H1 as (Hm1 & He1 & _), H2 as (_ & He2 & Hm2).
  specialize (Hm2 ltac:(lia)).
  apply Qlt_le_trans with (inject_Z (2 ^ 53) * pow2 e1); [apply scale_lt; lia|].
  apply Qle_trans with (inject_Z (2 ^ 52) * pow2 e2); [|apply scale_le; lia].
  rewrite <- !pow2_inject, <- !pow2_add by lia. apply pow2_le. lia.
Qed.

(** The sign bit is the sign of the value. *)
Lemma pos_value_pos (m : positive) (e : Z) : 0 < inject_Z (Zpos m) * pow2 e.
Proof.
  apply Qmult_lt_0_compat; [|apply pow2_pos].
  change 0 with (inject_Z 0). rewrite <- Zlt_Qlt. lia.
Qed.

Lemma neg_value (m : positive) (e : Z) :
  inject_Z (Z.neg m) * pow2 e == - (inject_Z (Zpos m) * pow2 e).
Proof.
  change (Z.neg m) with (- Zpos m)%Z. rewrite inject_Z_opp. ring.
Qed.

Lemma signed_value (s : bool) (m : positive) (e : Z) :
  inject_Z (cond_Zopp s (Zpos m)) * pow2 e ==
  if s then - (inject_Z (Zpos m) * pow2 e) else inject_Z (Zpos m) * pow2 e.
Proof.
  destruct s; [apply neg_value | reflexivity].
Qed.

(** [SFcompare] on valid finite floats is the order of their values. *)
Lemma SFcompare_finite (x y : spec_float) :
  valid_binary x = true -> valid_binary y = true ->
  SFfinite x = true -> SFfinite y = true ->
  cmp_spec (SFcompare x y) (SF2Q x) (SF2Q y).
Proof.
  intros Vx Vy Fx Fy.
  destruct x as [sx|sx| |sx mx ex]; try discriminate;
    destruct y as [sy|sy| |sy my ey]; try discriminate;
    cbn [SFcompare SF2Q valid_binary] in *.
  - reflexivity.
  - pose proof (pos_value_pos my ey). pose proof (signed_value sy my ey) as Sy.
    destruct sy; cbn [cmp_spec] in *; lra.
  - pose proof (pos_value_pos mx ex). pose proof (signed_value sx mx ex) as Sx.
    destruct sx; cbn [cmp_spec] in *; lra.
  - pose proof (pos_value_pos mx ex) as Px. pose proof (signed_value sx mx ex) as Sx.
    pose proof (pos_value_pos my ey) as Py. pose proof (signed_value sy my ey) as Sy.
    destruct sx, sy; cbn [cmp_spec] in *; try lra.
    + destruct (Z.compare_spec ex ey) as [E|E|E]; cbn [cmp_spec].
      * subst. change (Pos.compare_cont Eq mx my) with (Pos.compare mx my).
        destruct (Pos.compare_spec mx my) as [Em|Em|Em]; cbn [CompOpp cmp_spec].
        -- subst. reflexivity.
        -- assert (inject_Z (Zpos mx) * pow2 ey < inject_Z (Zpos my) * pow2 ey)
             by (apply scale_lt; lia). lra.
        -- assert (inject_Z (Zpos my) * pow2 ey < inject_Z (Zpos mx) * pow2 ey)
             by (apply scale_lt; lia). lra.
      * pose proof (bounded_lt mx my ex ey Vx Vy E). lra.
      * pose proof (bounded_lt my mx ey ex Vy Vx E). lra.
    + destruct (Z.compare_spec ex ey) as [E|E|E]; cbn [cmp_spec].
      * subst. change (Pos.compare_cont Eq mx my) with (Pos.compare mx my).
        destruct (Pos.compare_spec mx my) as [Em|Em|Em]; cbn [cmp_spec].
        -- subst. reflexivity.
        -- assert (inject_Z (Zpos mx) * pow2 ey < inject_Z (Zpos my) * pow2 ey)
             by (apply scale_lt; lia). lra.
        -- assert (inject_Z (Zpos my) * pow2 ey < inject_Z (Zpos mx) * pow2 ey)
             by (apply scale_lt; lia). lra.
      * pose proof (bounded_lt mx my ex ey Vx Vy E). lra.
      * pose proof (bounded_lt my mx ey ex Vy Vx E). lra.
Qed.

(** ** The primitive operations, read as numbers *)

Lemma compare_F2Q (x y : float) :
  finite x = true -> finite y = true ->
  cmp_spec (SFcompare (Prim2SF x) (Prim2SF y)) (F2Q x) (F2Q y).
Proof.
  intros Fx Fy. apply SFcompare_finite; auto using Prim2SF_valid.
Qed.

Lemma ltb_iff (x y : float) :
  finite x = true -> finite y = true ->
  ((x <? y)%float = true <-> F2Q x < F2Q y).
Proof.
  intros Fx Fy. rewrite ltb_spec. unfold SFltb.
  pose proof (compare_F2Q x y Fx Fy) as H.
  destruct (SFcompare (Prim2SF x) (Prim2SF y)) as [[| |]|]; cbn [cmp_spec] in H;
    split; intros H'; try discriminate; try reflexivity; try lra; try contradiction.
Qed.

Lemma leb_iff (x y : float) :
  finite x = true -> finite y = true ->
  ((x <=? y)%float = true <-> F2Q x <= F2Q y).
Proof.
  intros Fx Fy. rewrite leb_spec. unfold SFleb.
  pose proof (compare_F2Q x y Fx Fy) as H.
  destruct (SFcompare (Prim2SF x) (Prim2SF y)) as [[| |]|]; cbn [cmp_spec] in H;
    split; intros H'; try discriminate; try reflexivity; try lra; try contradiction.
Qed.

(** A float caught between two finite floats is finite. *)
Lemma finite_between (a x b : float) :
  finite a = true -> finite b = true ->
  (a <=? x)%float = true -> (x <=? b)%float = true -> finite x = true.
Proof.
  unfold finite. rewrite !leb_spec. unfold SFleb.
  destruct (Prim2SF a) as [sa|sa| |sa ma ea]; try discriminate;
    destruct (Prim2SF b) as [sb|sb| |sb mb eb]; try discriminate;
    destruct (Prim2SF x) as [s|[|]| |s m e]; cbn; try discriminate; auto.
Qed.

(** [+], [-] and [*] on finite floats return the exact result, rounded. *)
Lemma add_rounded (x y : float) :
  finite x = true -> finite y = true ->
  - pow2 971 < F2Q x + F2Q y < pow2 971 ->
  finite (x + y) = true /\ rounded (F2Q x + F2Q y) (F2Q (x + y)).
Proof.
  unfold finite, F2Q. rewrite add_spec. apply SFadd_rounded.
Qed.

Lemma sub_rounded (x y : float) :
  finite x = true -> finite y = true ->
  - pow2 971 < F2Q x - F2Q y < pow2 971 ->
  finite (x - y) = true /\ rounded (F2Q x - F2Q y) (F2Q (x - y)).
Proof.
  unfold finite, F2Q. rewrite sub_spec. apply SFsub_rounded.
Qed.

Lemma mul_rounded (x y : float) :
  finite x = true -> finite y = true ->
  - pow2 971 < F2Q x * F2Q y < pow2 971 ->
  finite (x * y) = true /\ rounded (F2Q x * F2Q y) (F2Q (x * y)).
Proof.
  unfold finite, F2Q. rewrite mul_spec. apply SFmul_rounded.
Qed.

(** Negation and absolute value are exact. *)
Lemma opp_F2Q (x : float) :
  finite (- x) = finite x /\ F2Q (- x) == - F2Q x.
Proof.
  unfold finite, F2Q. rewrite opp_spec.
  destruct (Prim2SF x) as [s|s| |s m e]; cbn [SFopp SFfinite SF2Q]; split;
    try reflexivity; try ring.
  rewrite !signed_value. destruct s; cbn [negb]; ring.
Qed.

Lemma abs_F2Q (x : float) :
  finite (abs x) = finite x /\ F2Q (abs x) == Qabs (F2Q x).
Proof.
  unfold finite, F2Q. rewrite abs_spec.
  destruct (Prim2SF x) as [s|s| |s m e]; cbn [SFabs SFfinite SF2Q]; split;
    try reflexivity.
  pose proof (pos_value_pos m e) as P.
  rewrite !signed_value. destruct s.
  - rewrite Qabs_opp, Qabs_pos; [reflexivity | lra].
  - rewrite Qabs_pos; [reflexivity | lra].
Qed.

(** ** What rounding cannot do *)

Lemma rounded_le (x v c : Q) : rounded x v -> representable c -> x <= c -> v <= c.
Proof. intros H Hc. now apply H. Qed.

Lemma rounded_ge (x v c : Q) : rounded x v -> representable c -> c <= x -> c <= v.
Proof. intros H Hc. now apply H. Qed.

Lemma rounded_exact (x v : Q) : rounded x v -> representable x -> v == x.
Proof.
  intros H Hx. destruct (H x Hx) as [H1 H2].
  apply Qle_antisym; [apply H1 | apply H2]; apply Qle_refl.
Qed.

(** The integers of at most 53 bits are numbers of the format. *)
Lemma representable_Z (z : Z) : (Z.abs z < 2 ^ 53)%Z -> representable (inject_Z z).
Proof.
  intros H. exists z, 0%Z. repeat split; try lia. unfold pow2. simpl. ring.
Qed.

(** Below 3/2 in magnitude the format has every multiple of 2^-52, so
    rounding moves a number by no more than that. *)
Lemma rounded_error (x v : Q) :
  rounded x v -> - (3 # 2) <= x <= 3 # 2 -> Qabs (v - x) <= pow2 (-52).
Proof.
  intros H [Hlo Hhi].
  set (k := Qfloor (x * pow2 52)).
  assert (P52 : pow2 52 * pow2 (-52) == 1).
  { rewrite <- pow2_add. reflexivity. }
  assert (Hp : 0 < pow2 52) by apply pow2_pos.
  assert (Hn : 0 < pow2 (-52)) by apply pow2_pos.
  assert (Hk1 : inject_Z k * pow2 (-52) <= x).
  { pose proof (Qfloor_le (x * pow2 52)) as F. fold k in F.
    apply Qmult_le_compat_r with (z := pow2 (-52)) in F; [|lra].
    setoid_replace (x * pow2 52 * pow2 (-52)) with (x * (pow2 52 * pow2 (-52))) in F by ring.
    rewrite P52 in F. lra. }
  assert (Hk2 : x < inject_Z (k + 1) * pow2 (-52)).
  { pose proof (Qlt_floor (x * pow2 52)) as F. fold k in F.
    apply Qmult_lt_compat_r with (z := pow2 (-52)) in F; [|lra].
    setoid_replace (x * pow2 52 * pow2 (-52)) with (x * (pow2 52 * pow2 (-52))) in F by ring.
    rewrite P52 in F. lra. }
  assert (Hkb : (- 2 ^ 53 + 1 < k /\ k + 1 < 2 ^ 53)%Z).
  { assert (B : - (3 # 2) * pow2 52 <= x * pow2 52 <= (3 # 2) * pow2 52).
    { split; apply Qmult_le_compat_r; lra. }
    assert (E52 : pow2 52 == inject_Z (2 ^ 52)) by (apply pow2_inject; lia).
    destruct B as [B1 B2].
    apply Qfloor_resp_le in B1, B2. fold k in B1, B2.
    assert (F1 : (Qfloor (- (3 # 2) * pow2 52) = - 3 * 2 ^ 51)%Z).
    { rewrite E52. vm_compute. reflexivity. }
    assert (F2 : (Qfloor ((3 # 2) * pow2 52) = 3 * 2 ^ 51)%Z).
    { rewrite E52. vm_compute. reflexivity. }
    rewrite F1 in B1. rewrite F2 in B2. lia. }
  assert (R1 : representable (inject_Z k * pow2 (-52))).
  { exists k, (-52)%Z. repeat split; try lia. }
  assert (R2 : representable (inject_Z (k + 1) * pow2 (-52))).
  { exists (k + 1)%Z, (-52)%Z. repeat split; try lia. }
  pose proof (rounded_ge _ _ _ H R1 Hk1) as V1.
  pose proof (rounded_le _ _ _ H R2 (Qlt_le_weak _ _ Hk2)) as V2.
  rewrite inject_Z_plus in *. 
  apply Qabs_Qle_condition. 
  setoid_replace ((inject_Z k + inject_Z 1) * pow2 (-52))
    with (inject_Z k * pow2 (-52) + pow2 (-52)) in V2 by ring.
  setoid_replace ((inject_Z k + inject_Z 1) * pow2 (-52))
    with (inject_Z k * pow2 (-52) + pow2 (-52)) in Hk2 by ring.
  lra.
Qed.

End B64Facts.

(* ================================================================== *)
(** * The fade *)
(* ================================================================== *)

Module FadeFacts.

Import B64 B64Facts Overlay.

Local Open Scope Q_scope.

(** ** The constants of the fade *)

Lemma step_value : step = 0x1.999999999999ap-4%float.
Proof. vm_compute. reflexivity. Qed.

Lemma F2Q_step : F2Q step == step_q.
Proof. vm_compute. reflexivity. Qed.

Lemma F2Q_opp_step : F2Q (- step) == - step_q.
Proof. vm_compute. reflexivity. Qed.

Lemma F2Q_zero : F2Q 0 == 0.
Proof. vm_compute. reflexivity. Qed.

Lemma F2Q_one : F2Q 1 == 1.
Proof. vm_compute. reflexivity. Qed.

Lemma pow2_m52 : pow2 (-52) == ulp1.
Proof. vm_compute. reflexivity. Qed.

(** The numbers of the overlay are far from the largest float. *)
Lemma pow2_971_big : 1024 < pow2 971.
Proof.
  apply Qlt_le_trans with (pow2 11); [vm_compute; reflexivity | apply pow2_le; lia].
Qed.

Lemma representable_0 : representable 0.
Proof. apply (representable_Z 0). reflexivity. Qed.

Lemma representable_1 : representable 1.
Proof. apply (representable_Z 1). reflexivity. Qed.

Lemma representable_opp (c : Q) : representable c -> representable (- c).
Proof.
  intros (m & e & Hm & He & Hc). exists (- m)%Z, e.
  rewrite Z.abs_opp. repeat split; auto. rewrite Hc, inject_Z_opp. ring.
Qed.

(** [1 - x] is a number of the format when [x] is one in the upper half of
    the unit interval. *)
Lemma representable_one_minus (x : float) :
  finite x = true -> 1 # 2 <= F2Q x <= 1 -> representable (1 - F2Q x).
Proof.
  unfold finite, F2Q. intros Hf [Hlo Hhi].
  pose proof (Prim2SF_valid x) as Hv.
  destruct (Prim2SF x) as [s|s| |s m e]; try discriminate; cbn [SF2Q] in *.
  - lra.
  - apply bounded_inv in Hv. destruct Hv as (Hm & He & _).
    pose proof (pos_value_pos m e) as P. pose proof (signed_value s m e) as S.
    destruct s; [lra|]. cbn [cond_Zopp] in *.
    assert (He53 : (-53 <= e)%Z).
    { destruct (Z.le_gt_cases (-53) e) as [H|H]; [exact H|]. exfalso.
      assert (inject_Z (Zpos m) * pow2 e < inject_Z (2 ^ 53) * pow2 e)
        by (apply scale_lt; lia).
      assert (inject_Z (2 ^ 53) * pow2 e <= 1 # 2).
      { rewrite <- pow2_inject, <- pow2_add by lia.
        apply Qle_trans with (pow2 (-1)); [apply pow2_le; lia | vm_compute; discriminate]. }
      lra. }
    assert (E : inject_Z (Zpos m) * pow2 e == inject_Z (Zpos m * 2 ^ (e + 53)) * pow2 (-53)).
    { rewrite scale_shift by lia. f_equiv. f_equiv. lia. }
    assert (E1 : 1 == inject_Z (2 ^ 53) * pow2 (-53)) by (vm_compute; reflexivity).
    assert (Hj : (Zpos m * 2 ^ (e + 53) <= 2 ^ 53)%Z).
    { apply (scale_le_inv _ _ (-53)). rewrite <- E, <- E1. exact Hhi. }
    assert (Hj0 : (0 < Zpos m * 2 ^ (e + 53))%Z).
    { apply Z.mul_pos_pos; [lia | apply Z.pow_pos_nonneg; lia]. }
    exists (2 ^ 53 - Zpos m * 2 ^ (e + 53))%Z, (-53)%Z.
    repeat split; try lia.
    unfold Z.sub. rewrite inject_Z_plus, inject_Z_opp, E. 
    setoid_replace 1 with (inject_Z (2 ^ 53) * pow2 (-53)) at 1 by exact E1. ring.
Qed.

Lemma finite_0 : finite 0 = true. Proof. reflexivity. Qed.
Lemma finite_1 : finite 1 = true. Proof. reflexivity. Qed.
Lemma finite_step : finite step = true. Proof. vm_compute. reflexivity. Qed.
Lemma finite_opp_step : finite (- step) = true. Proof. vm_compute. reflexivity. Qed.

(** ** One frame *)

Lemma ltb_false_iff (x y : float) :
  finite x = true -> finite y = true ->
  ((x <? y)%float = false <-> F2Q y <= F2Q x).
Proof.
  intros Fx Fy. pose proof (ltb_iff x y Fx Fy) as H.
  destruct (x <? y)%float.
  - split; [discriminate|]. intros H'.
    assert (F2Q x < F2Q y) by (now apply H). lra.
  - split; [|reflexivity]. intros _.
    destruct (Qlt_le_dec (F2Q x) (F2Q y)) as [L|L]; [|exact L].
    apply H in L. discriminate.
Qed.

(** One frame toward 0. *)
Lemma fade_down (d : float) :
  finite d = true -> 0 <= F2Q d <= 1 ->
  finite (fade 0 d) = true /\
  0 <= F2Q (fade 0 d) <= F2Q d /\
  (F2Q d < step_q -> fade 0 d = 0%float) /\
  (fade 0 d = 0%float \/ F2Q (fade 0 d) <= F2Q d - step_q + ulp1).
Proof.
  intros Fd [H0 H1]. pose proof pow2_971_big as Big.
  destruct (sub_rounded 0 d finite_0 Fd) as [Fdiff Rdiff].
  { rewrite F2Q_zero. split; lra. }
  assert (Ediff : F2Q (0 - d) == - F2Q d).
  { rewrite (rounded_exact _ _ Rdiff); [rewrite F2Q_zero; ring|].
    rewrite F2Q_zero. setoid_replace (0 - F2Q d) with (- F2Q d) by ring.
    apply representable_opp, F2Q_representable. }
  destruct (abs_F2Q (0 - d)) as [Fabs Eabs]. rewrite Fdiff in Fabs.
  assert (Eabs' : F2Q (abs (0 - d)) == F2Q d).
  { rewrite Eabs, Ediff, Qabs_opp. apply Qabs_pos. exact H0. }
  unfold fade. cbv zeta.
  destruct (abs (0 - d) <? step)%float eqn:Esnap.
  - repeat split; try reflexivity; try (rewrite F2Q_zero; lra). now left.
  - apply ltb_false_iff in Esnap; [|exact Fabs | exact finite_step].
    rewrite Eabs', F2Q_step in Esnap.
    assert (Edir : (0 <? 0 - d)%float = false).
    { apply ltb_false_iff; [exact finite_0 | exact Fdiff|].
      rewrite Ediff, F2Q_zero. assert (0 < step_q) by reflexivity. lra. }
    rewrite Edir.
    destruct (add_rounded d (- step) Fd finite_opp_step) as [Fr Rr].
    { rewrite F2Q_opp_step. assert (0 < step_q) by reflexivity. split; lra. }
    rewrite F2Q_opp_step in Rr.
    assert (Hs : 0 < step_q) by reflexivity.
    split; [exact Fr|]. split; [split|split].
    + apply (rounded_ge _ _ 0 Rr representable_0). lra.
    + apply (rounded_le _ _ (F2Q d) Rr (F2Q_representable d)). lra.
    + intros Hlt. lra.
    + right. pose proof (rounded_error _ _ Rr) as Herr.
      rewrite pow2_m52 in Herr.
      assert (Hb : - (3 # 2) <= F2Q d + - step_q <= 3 # 2).
      { assert (step_q < 1) by reflexivity. split; lra. }
      specialize (Herr Hb). apply Qabs_Qle_condition in Herr. lra.
Qed.

(** One frame toward 1. *)
Lemma fade_up (d : float) :
  finite d = true -> 0 <= F2Q d <= 1 ->
  finite (fade 1 d) = true /\
  F2Q d <= F2Q (fade 1 d) <= 1 /\
  (1 - F2Q d < step_q -> fade 1 d = 1%float) /\
  (fade 1 d = 1%float \/ 1 - F2Q (fade 1 d) <= 1 - F2Q d - step_q + ulp1).
Proof.
  intros Fd [H0 H1]. pose proof pow2_971_big as Big.
  assert (Hs : 0 < step_q) by reflexivity.
  assert (Hs' : step_q < 1 # 2) by reflexivity.
  destruct (sub_rounded 1 d finite_1 Fd) as [Fdiff Rdiff].
  { rewrite F2Q_one. split; lra. }
  rewrite F2Q_one in Rdiff.
  assert (Gpos : 0 <= F2Q (1 - d)).
  { apply (rounded_ge _ _ 0 Rdiff representable_0). lra. }
  destruct (abs_F2Q (1 - d)) as [Fabs Eabs]. rewrite Fdiff in Fabs.
  rewrite (Qabs_pos _ Gpos) in Eabs.
  assert (Hnear : 1 - F2Q d < step_q -> (abs (1 - d) <? step)%float = true).
  { intros Hlt. apply ltb_iff; [exact Fabs | exact finite_step|].
    rewrite Eabs, F2Q_step.
    rewrite (rounded_exact _ _ Rdiff); [exact Hlt|].
    apply representable_one_minus; [exact Fd | lra]. }
  unfold fade. cbv zeta.
  destruct (abs (1 - d) <? step)%float eqn:Esnap.
  - repeat split; try reflexivity; try (rewrite F2Q_one; lra). now left.
  - assert (Hfar : step_q <= 1 - F2Q d).
    { destruct (Qlt_le_dec (1 - F2Q d) step_q) as [L|L]; [|exact L].
      apply Hnear in L. congruence. }
    apply ltb_false_iff in Esnap; [|exact Fabs | exact finite_step].
    rewrite Eabs, F2Q_step in Esnap.
    assert (Edir : (0 <? 1 - d)%float = true).
    { apply ltb_iff; [exact finite_0 | exact Fdiff|]. rewrite F2Q_zero. lra. }
    rewrite Edir.
    destruct (add_rounded d step Fd finite_step) as [Fr Rr].
    { rewrite F2Q_step. split; lra. }
    rewrite F2Q_step in Rr.
    split; [exact Fr|]. split; [split|split].
    + apply (rounded_ge _ _ (F2Q d) Rr (F2Q_representable d)). lra.
    + apply (rounded_le _ _ 1 Rr representable_1). lra.
    + intros Hlt. lra.
    + right. pose proof (rounded_error _ _ Rr) as Herr.
      rewrite pow2_m52 in Herr.
      assert (Hb : - (3 # 2) <= F2Q d + step_q <= 3 # 2) by (split; lra).
      specialize (Herr Hb). apply Qabs_Qle_condition in Herr. lra.
Qed.

(** ** Many frames *)

(** At the target the level stays. *)
Lemma fade_fixed_0 : fade 0 0 = 0%float.
Proof. vm_compute. reflexivity. Qed.

Lemma fade_fixed_1 : fade 1 1 = 1%float.
Proof. vm_compute. reflexivity. Qed.

Lemma iter_fixed {A} (f : A -> A) (x : A) (n : nat) : f x = x -> Nat.iter n f x = x.
Proof.
  intros H. induction n as [|n IH]; [reflexivity|].
  change (Nat.iter (S n) f x) with (f (Nat.iter n f x)). now rewrite IH.
Qed.

Lemma inject_nat_succ (n : nat) :
  inject_Z (Z.of_nat (S n)) == inject_Z (Z.of_nat n) + 1.
Proof.
  rewrite Nat2Z.inj_succ. unfold Z.succ. rewrite inject_Z_plus. reflexivity.
Qed.

(** With [n] steps of room (each of them worth [step] less one rounding) and
    the last frame that snaps, the level is at the target. *)
Lemma reach_down (n : nat) :
  forall d, finite d = true -> 0 <= F2Q d <= 1 ->
            F2Q d < step_q + inject_Z (Z.of_nat n) * (step_q - ulp1) ->
            Nat.iter (S n) (fade 0) d = 0%float.
Proof.
  induction n as [|n IH]; intros d Fd Hd Hroom.
  - destruct (fade_down d Fd Hd) as (_ & _ & Hsnap & _).
    change (inject_Z (Z.of_nat 0)) with 0 in Hroom. apply Hsnap. lra.
  - rewrite Nat.iter_succ_r.
    destruct (fade_down d Fd Hd) as (Ff & Hf & _ & [Hz|Hstep]).
    + rewrite Hz. apply iter_fixed, fade_fixed_0.
    + apply IH; [exact Ff | lra |].
      rewrite inject_nat_succ in Hroom. lra.
Qed.

Lemma reach_up (n : nat) :
  forall d, finite d = true -> 0 <= F2Q d <= 1 ->
            1 - F2Q d < step_q + inject_Z (Z.of_nat n) * (step_q - ulp1) ->
            Nat.iter (S n) (fade 1) d = 1%float.
Proof.
  induction n as [|n IH]; intros d Fd Hd Hroom.
  - destruct (fade_up d Fd Hd) as (_ & _ & Hsnap & _).
    change (inject_Z (Z.of_nat 0)) with 0 in Hroom. apply Hsnap. lra.
  - rewrite Nat.iter_succ_r.
    destruct (fade_up d Fd Hd) as (Ff & Hf & _ & [Hz|Hstep]).
    + rewrite Hz. apply iter_fixed, fade_fixed_1.
    + apply IH; [exact Ff | lra |].
      rewrite inject_nat_succ in Hroom. lra.
Qed.

(** The frame count of the claim leaves that much room. *)
Lemma room_after_ceiling (D : Q) (n : nat) :
  0 <= D <= 1 ->
  (Z.to_nat (Qceiling (D / step_q)) <= n)%nat ->
  D < step_q + inject_Z (Z.of_nat n) * (step_q - ulp1).
Proof.
  intros [H0 H1] Hn.
  set (N := Qceiling (D / step_q)) in *.
  assert (Hs : 0 < step_q) by reflexivity.
  assert (Hinv : / step_q <= 10) by (vm_compute; discriminate).
  assert (Hinv0 : 0 < / step_q) by reflexivity.
  assert (HN10 : (N <= 10)%Z).
  { change 10%Z with (Qceiling 10). apply Qceiling_resp_le.
    unfold Qdiv. 
    apply Qle_trans with (1 * / step_q); [apply Qmult_le_compat_r; lra | lra]. }
  assert (HDN : D <= inject_Z N * step_q).
  { pose proof (Qle_ceiling (D / step_q)) as C. fold N in C.
    apply Qmult_le_compat_r with (z := step_q) in C; [|lra].
    unfold Qdiv in C.
    setoid_replace (D * / step_q * step_q) with D in C by (field; discriminate).
    exact C. }
  assert (HNn : inject_Z N <= inject_Z (Z.of_nat n)) by (rewrite <- Zle_Qle; lia).
  assert (HN10q : inject_Z N <= 10) by (change 10 with (inject_Z 10); rewrite <- Zle_Qle; lia).
  assert (Hu : 0 < step_q - ulp1) by reflexivity.
  assert (Hu2 : 10 * ulp1 < step_q) by reflexivity.
  assert (Hu0 : 0 < ulp1) by reflexivity.
  assert (M1 : inject_Z N * (step_q - ulp1) <= inject_Z (Z.of_nat n) * (step_q - ulp1))
    by (apply Qmult_le_compat_r; lra).
  assert (M2 : inject_Z N * ulp1 <= 10 * ulp1)
    by (apply Qmult_le_compat_r; lra).
  lra.
Qed.

(** [step] is above one tenth, so dividing by it asks for no more frames
    than dividing by one tenth. *)
Lemma ceiling_step_le (D : Q) :
  0 <= D ->
  (Qceiling (D / step_q) <= Qceiling (D / ((3 # 1) * (1 # 30))))%Z.
Proof.
  intros HD. apply Qceiling_resp_le. unfold Qdiv.
  assert (H : / step_q <= / ((3 # 1) * (1 # 30))) by (vm_compute; discriminate).
  assert (H0 : 0 <= / step_q) by (vm_compute; discriminate).
  nra.
Qed.

(** [n] runs of [_animate] fade the level [n] times and leave the target
    alone. *)
Lemma frames_fields (n : nat) (o : OverlayWindow) :
  _display_live (frames n o) = Nat.iter n (fade (_target_live o)) (_display_live o) /\
  _target_live (frames n o) = _target_live o.
Proof.
  induction n as [|n [IHd IHt]]; [split; reflexivity|].
  change (frames (S n) o) with (_animate (frames n o)).
  change (Nat.iter (S n) (fade (_target_live o)) (_display_live o))
    with (fade (_target_live o) (Nat.iter n (fade (_target_live o)) (_display_live o))).
  unfold _animate. cbn [_display_live _target_live]. rewrite IHd, IHt. split; reflexivity.
Qed.

(** A level between 0.0 and 1.0, as the float comparison sees it. *)
Lemma unit_interval (d : float) :
  (0 <=? d)%float = true -> (d <=? 1)%float = true ->
  finite d = true /\ 0 <= F2Q d <= 1.
Proof.
  intros H0 H1.
  assert (Fd : finite d = true) by (apply (finite_between 0 d 1); auto using finite_0, finite_1).
  split; [exact Fd|].
  apply leb_iff in H0; [|exact finite_0 | exact Fd].
  apply leb_iff in H1; [|exact Fd | exact finite_1].
  rewrite F2Q_zero in H0. rewrite F2Q_one in H1. split; assumption.
Qed.

Lemma unit_interval_leb (d : float) :
  finite d = true -> 0 <= F2Q d <= 1 ->
  (0 <=? d)%float = true /\ (d <=? 1)%float = true.
Proof.
  intros Fd [H0 H1]. split.
  - apply leb_iff; [exact finite_0 | exact Fd|]. now rewrite F2Q_zero.
  - apply leb_iff; [exact Fd | exact finite_1|]. now rewrite F2Q_one.
Qed.

(** The level never leaves the unit interval. *)
Lemma iter_in_unit (t : float) (n : nat) :
  t = 0%float \/ t = 1%float ->
  forall d, finite d = true -> 0 <= F2Q d <= 1 ->
            finite (Nat.iter n (fade t) d) = true /\
            0 <= F2Q (Nat.iter n (fade t) d) <= 1.
Proof.
  intros Ht. induction n as [|n IH]; intros d Fd Hd; [split; assumption|].
  destruct (IH d Fd Hd) as [Fa Ha].
  change (Nat.iter (S n) (fade t) d) with (fade t (Nat.iter n (fade t) d)).
  destruct Ht as [-> | ->].
  - destruct (fade_down _ Fa Ha) as (F & H & _). split; [exact F | lra].
  - destruct (fade_up _ Fa Ha) as (F & H & _). split; [exact F | lra].
Qed.

(** C3, as the code has it.  [step = fade_speed * dt] is the double nearest
    to one tenth.  With the target at 0.0 or 1.0 and the level between them:
    a frame sets the level to the target when they are less than [step]
    apart and otherwise adds [step] or [- step] to it (one binary64
    addition); while the target stays, the levels stay in [0, 1], move toward
    the target only and never pass it; and the level is at the target from
    frame [ceil (|target - initial| / step) + 1] on, whether the quotient is
    taken by the double [step] or by the exact 3 * (1/30).  The one frame
    more than the quotient is needed: the sums are rounded. *)
Theorem fade_reaches_target (o : OverlayWindow) :
  let t := _target_live o in
  let d := _display_live o in
  t = 0%float \/ t = 1%float ->
  (0 <=? d)%float = true -> (d <=? 1)%float = true ->
  step = 0x1.999999999999ap-4%float /\
  _display_live (_animate o) =
    (if (abs (t - d) <? step)%float then t
     else (d + (if (0 <? t - d)%float then step else - step))%float) /\
  (forall n,
      let a := _display_live (frames n o) in
      let b := _display_live (frames (S n) o) in
      (0 <=? b)%float = true /\ (b <=? 1)%float = true /\
      (t = 1%float -> (a <=? b)%float = true) /\
      (t = 0%float -> (b <=? a)%float = true)) /\
  (forall n,
      (Z.to_nat (Qceiling (Qabs (F2Q t - F2Q d) / F2Q step)) + 1 <= n)%nat ->
      _display_live (frames n o) = t) /\
  (forall n,
      (Z.to_nat (Qceiling (Qabs (F2Q t - F2Q d) / ((3 # 1) * (1 # 30)))) + 1 <= n)%nat ->
      _display_live (frames n o) = t).
Proof.
  intros t d Ht H0 H1.
  destruct (unit_interval d H0 H1) as [Fd Hd].
  split; [exact step_value|]. split; [reflexivity|].
  assert (Hreach : forall n,
             (Z.to_nat (Qceiling (Qabs (F2Q t - F2Q d) / F2Q step)) + 1 <= n)%nat ->
             _display_live (frames n o) = t);
    [|split; [|split; [exact Hreach|]]];
    [| |intros n Hn; apply Hreach;
        pose proof (ceiling_step_le (Qabs (F2Q t - F2Q d)) (Qabs_nonneg _)) as Hc;
        rewrite <- F2Q_step in Hc; lia].
  - intros n Hn.
    destruct (frames_fields n o) as [En _]. fold t d in En. rewrite En.
    destruct n as [|n]; [lia|].
    destruct Ht as [E | E]; rewrite E in *.
    + apply reach_down; [exact Fd | exact Hd|].
      apply room_after_ceiling; [exact Hd|].
      assert (EQ : Qabs (F2Q 0 - F2Q d) / F2Q step == F2Q d / step_q).
      { rewrite F2Q_zero, F2Q_step.
        setoid_replace (0 - F2Q d) with (- F2Q d) by ring.
        rewrite Qabs_opp, Qabs_pos by lra. reflexivity. }
      rewrite EQ in Hn. lia.
    + apply reach_up; [exact Fd | exact Hd|].
      apply room_after_ceiling; [lra|].
      assert (EQ : Qabs (F2Q 1 - F2Q d) / F2Q step == (1 - F2Q d) / step_q).
      { rewrite F2Q_one, F2Q_step. rewrite Qabs_pos by lra. reflexivity. }
      rewrite EQ in Hn. lia.
  - intros n a b.
    destruct (frames_fields n o) as [Ea _]. fold t d in Ea. fold a in Ea.
    destruct (frames_fields (S n) o) as [Eb _]. fold t d in Eb. fold b in Eb.
    change (Nat.iter (S n) (fade t) d) with (fade t (Nat.iter n (fade t) d)) in Eb.
    rewrite <- Ea in Eb.
    destruct (iter_in_unit t n Ht d Fd Hd) as [Fa Ha]. rewrite <- Ea in Fa, Ha.
    assert (Hb : finite b = true /\ 0 <= F2Q b <= 1 /\
                 (t = 1%float -> F2Q a <= F2Q b) /\ (t = 0%float -> F2Q b <= F2Q a)).
    { rewrite Eb. destruct Ht as [E | E]; rewrite E.
      - destruct (fade_down a Fa Ha) as (F & H & _).
        repeat split; try exact F; try lra. intros Habs. discriminate.
      - destruct (fade_up a Fa Ha) as (F & H & _).
        repeat split; try exact F; try lra. intros Habs. discriminate. }
    destruct Hb as (Fb & Hb & Hup & Hdown).
    destruct (unit_interval_leb b Fb Hb) as [L0 L1].
    split; [exact L0|]. split; [exact L1|]. split; intros E.
    + apply leb_iff; auto.
    + apply leb_iff; auto.
Qed.

(** Witness of C3 (amended): the fade from 0.0 to 1.0 that follows
    [set_state(True)] on the new overlay. *)
Lemma fade_reaches_target_witness :
  _display_live (frames 11 (set_state true created)) = 1%float.
Proof.
  apply (fade_reaches_target (set_state true created));
    [right; reflexivity | reflexivity | reflexivity |].
  vm_compute. lia.
Defined.

(** C3, as stated, fails.  From level 0.0 with the target at 1.0 the claim
    gives [ceil (|1 - 0| / step) = 10] frames; ten additions of [step] make
    0.9999999999999999, still below 1.0, and the level is 1.0 only after the
    eleventh frame. *)
Lemma fade_takes_one_more_frame :
  let o := set_state true created in
  (0 <=? _display_live o)%float = true /\
  (_display_live o <=? 1)%float = true /\
  _target_live o = 1%float /\
  Qceiling (Qabs (F2Q (_target_live o) - F2Q (_display_live o)) / F2Q step) = 10%Z /\
  Qceiling (Qabs (1 - 0) / ((3 # 1) * (1 # 30))) = 10%Z /\
  _display_live (frames 10 o) = 0x1.fffffffffffffp-1%float /\
  (_display_live (frames 10 o) <? _target_live o)%float = true /\
  _display_live (frames 11 o) = 1%float.
Proof.
  cbv zeta. repeat split; vm_compute; reflexivity.
Qed.

End FadeFacts.

(* ================================================================== *)
(** * The colour blend *)
(* ================================================================== *)

Module ColourFacts.

Import B64 B64Facts Overlay FadeFacts.

Local Open Scope Q_scope.

(** ** Numbers: [float], [int] and one channel *)

Lemma pow2_0 : pow2 0 == 1.
Proof. reflexivity. Qed.

(** [float(z)] is exact on integers of at most 53 bits. *)
Lemma float_of_int_exact (z : Z) :
  (Z.abs z < 2 ^ 53)%Z ->
  finite (float_of_int z) = true /\ F2Q (float_of_int z) == inject_Z z.
Proof.
  intros Hz.
  assert (Hpos : forall p, (Zpos p < 2 ^ 53)%Z ->
                           finite (of_uint63 (Uint63.of_Z (Zpos p))) = true /\
                           F2Q (of_uint63 (Uint63.of_Z (Zpos p))) == inject_Z (Zpos p)).
  { intros p Hp. unfold finite, F2Q. rewrite of_uint63_spec, Uint63.of_Z_spec.
    rewrite Z.mod_small by (change wB with (2 ^ 63)%Z; lia).
    destruct (binary_normalize_rounded (Zpos p) 0 false) as [Hf Hr].
    { rewrite pow2_0, Qmult_1_r. pose proof pow2_971_big.
      assert (inject_Z (Zpos p) < pow2 971).
      { apply Qlt_le_trans with (inject_Z (2 ^ 53)); [rewrite <- Zlt_Qlt; lia|].
        rewrite <- pow2_inject by lia. apply pow2_le. lia. }
      assert (0 < inject_Z (Zpos p)) by (change 0 with (inject_Z 0); rewrite <- Zlt_Qlt; lia).
      split; lra. }
    split; [exact Hf|].
    rewrite (rounded_exact _ _ Hr).
    - rewrite pow2_0. ring.
    - rewrite pow2_0, Qmult_1_r. apply representable_Z. lia. }
  destruct z as [|p|p]; cbn [float_of_int].
  - split; [reflexivity | vm_compute; reflexivity].
  - apply Hpos. lia.
  - destruct (Hpos p ltac:(lia)) as [Hf Hv].
    destruct (opp_F2Q (of_uint63 (Uint63.of_Z (Zpos p)))) as [Ff Fv].
    change (- Z.neg p)%Z with (Zpos p).
    split; [now rewrite Ff|]. rewrite Fv, Hv.
    change (Z.neg p) with (- Zpos p)%Z. rewrite inject_Z_opp. reflexivity.
Qed.

(** [int(x)] of a float that is not negative is the floor of its value. *)
Lemma int_of_float_floor (x : float) :
  finite x = true -> 0 <= F2Q x -> int_of_float x = Some (Qfloor (F2Q x)).
Proof.
  unfold finite, F2Q, int_of_float. intros Hf H0.
  destruct (Prim2SF x) as [s|s| |s m e]; try discriminate; cbn [SF2Q] in *.
  - reflexivity.
  - pose proof (pos_value_pos m e) as P. pose proof (signed_value s m e) as S.
    destruct s; [lra|]. cbn [cond_Zopp]. f_equal.
    destruct (Z.leb_spec 0 e) as [He|He].
    + rewrite pow2_inject, <- inject_Z_mult by exact He. now rewrite Qfloor_Z.
    + rewrite Zdiv_Qdiv. apply Qfloor_comp. unfold Qdiv. f_equiv.
      rewrite <- pow2_inject by lia. unfold pow2.
      rewrite Qpower_opp, Qinv_involutive. reflexivity.
Qed.

(** One channel of the blend. *)
Lemma lerp_channel_between (a b : Z) (t : float) :
  (0 <= a <= 255)%Z -> (0 <= b <= 255)%Z ->
  (0 <=? t)%float = true -> (t <=? 1)%float = true ->
  exists z, lerp_channel a b t = Some z /\ between a z b /\
            (F2Q t == 0 -> z = a) /\ (F2Q t == 1 -> z = b).
Proof.
  intros Ha Hb H0 H1. pose proof pow2_971_big as Big.
  assert (Ft : finite t = true) by (apply (finite_between 0 t 1); auto using finite_0, finite_1).
  apply leb_iff in H0; [|exact finite_0 | exact Ft].
  apply leb_iff in H1; [|exact Ft | exact finite_1].
  rewrite F2Q_zero in H0. rewrite F2Q_one in H1.
  destruct (float_of_int_exact a ltac:(lia)) as [Fa Va].
  destruct (float_of_int_exact (b - a) ltac:(lia)) as [Fd Vd].
  assert (Ia : 0 <= inject_Z a <= 255).
  { change 0 with (inject_Z 0). change 255 with (inject_Z 255). rewrite <- !Zle_Qle. lia. }
  assert (Ib : 0 <= inject_Z b <= 255).
  { change 0 with (inject_Z 0). change 255 with (inject_Z 255). rewrite <- !Zle_Qle. lia. }
  assert (Vd' : F2Q (float_of_int (b - a)) == inject_Z b - inject_Z a).
  { rewrite Vd. unfold Z.sub. rewrite inject_Z_plus, inject_Z_opp. ring. }
  set (D := inject_Z b - inject_Z a) in *.
  set (T := F2Q t) in *.
  assert (HDT : Z.le a b -> 0 <= D * T <= D).
  { intros Hab. assert (0 <= D) by (unfold D; rewrite Zle_Qle in Hab; lra).
    split; [apply Qmult_le_0_compat; lra|]. nra. }
  assert (HDT' : Z.le b a -> D <= D * T <= 0).
  { intros Hab. assert (0 <= - D) by (unfold D; rewrite Zle_Qle in Hab; lra).
    split; nra. }
  assert (RD : representable D).
  { unfold D. setoid_replace (inject_Z b - inject_Z a) with (inject_Z (b - a)).
    - apply representable_Z. lia.
    - unfold Z.sub. rewrite inject_Z_plus, inject_Z_opp. ring. }
  destruct (mul_rounded (float_of_int (b - a)) t Fd Ft) as [Fp Rp].
  { rewrite Vd'. fold T. destruct (Z.le_ge_cases a b) as [L|L].
    - specialize (HDT L). unfold D in *. split; lra.
    - specialize (HDT' L). unfold D in *. split; lra. }
  rewrite Vd' in Rp. fold T in Rp.
  set (p := (float_of_int (b - a) * t)%float) in *.
  assert (HP : (Z.le a b -> 0 <= F2Q p <= D) /\ (Z.le b a -> D <= F2Q p <= 0)).
  { split; intros L; [specialize (HDT L) | specialize (HDT' L)]; split.
    - apply (rounded_ge _ _ 0 Rp representable_0). lra.
    - apply (rounded_le _ _ D Rp RD). lra.
    - apply (rounded_ge _ _ D Rp RD). lra.
    - apply (rounded_le _ _ 0 Rp representable_0). lra. }
  destruct HP as [HP HP'].
  assert (HPb : - (255) <= F2Q p <= 255).
  { destruct (Z.le_ge_cases a b) as [L|L];
      [specialize (HP L) | specialize (HP' L)]; unfold D in *; split; lra. }
  destruct (add_rounded (float_of_int a) p Fa Fp) as [Fs Rs].
  { rewrite Va. split; lra. }
  rewrite Va in Rs.
  set (s := (float_of_int a + p)%float) in *.
  assert (Ra : representable (inject_Z a)) by (apply representable_Z; lia).
  assert (Rb : representable (inject_Z b)) by (apply representable_Z; lia).
  assert (HS : (Z.le a b -> inject_Z a <= F2Q s <= inject_Z b) /\
               (Z.le b a -> inject_Z b <= F2Q s <= inject_Z a)).
  { split; intros L; [specialize (HP L) | specialize (HP' L)]; split.
    - apply (rounded_ge _ _ _ Rs Ra). lra.
    - apply (rounded_le _ _ _ Rs Rb). unfold D in *. lra.
    - apply (rounded_ge _ _ _ Rs Rb). unfold D in *. lra.
    - apply (rounded_le _ _ _ Rs Ra). lra. }
  destruct HS as [HS HS'].
  assert (HS0 : 0 <= F2Q s).
  { destruct (Z.le_ge_cases a b) as [L|L];
      [specialize (HS L) | specialize (HS' L)]; lra. }
  exists (Qfloor (F2Q s)). split; [|split; [|split]].
  - unfold lerp_channel. fold p. fold s. apply int_of_float_floor; assumption.
  - unfold between. destruct (Z.le_ge_cases a b) as [L|L].
    + destruct (HS L) as [S1 S2]. apply Qfloor_resp_le in S1, S2.
      rewrite Qfloor_Z in S1, S2. lia.
    + destruct (HS' L) as [S1 S2]. apply Qfloor_resp_le in S1, S2.
      rewrite Qfloor_Z in S1, S2. lia.
  - intros E0.
    assert (EP : F2Q p == 0).
    { rewrite (rounded_exact _ _ Rp); rewrite E0; [ring|].
      setoid_replace (D * 0) with 0 by ring. exact representable_0. }
    assert (ES : F2Q s == inject_Z a).
    { rewrite (rounded_exact _ _ Rs); rewrite EP; [ring|].
      setoid_replace (inject_Z a + 0) with (inject_Z a) by ring. exact Ra. }
    rewrite ES. apply Qfloor_Z.
  - intros E1.
    assert (EP : F2Q p == D).
    { rewrite (rounded_exact _ _ Rp); rewrite E1; [ring|].
      setoid_replace (D * 1) with D by ring. exact RD. }
    assert (ES : F2Q s == inject_Z b).
    { rewrite (rounded_exact _ _ Rs); rewrite EP; [unfold D; ring|].
      setoid_replace (inject_Z a + D) with (inject_Z b) by (unfold D; ring). exact Rb. }
    rewrite ES. apply Qfloor_Z.
Qed.

Local Close Scope Q_scope.
Local Open Scope Z_scope.

(** ** Text: hexadecimal digits and colours *)

Lemma in_all_ascii (c : ascii) : In c all_ascii.
Proof.
  unfold all_ascii. rewrite <- (ascii_nat_embedding c).
  apply in_map, in_seq. pose proof (nat_ascii_bounded c). lia.
Qed.

Lemma hex_digits_ok : forallb hex_digit_ok all_ascii = true.
Proof. vm_compute. reflexivity. Qed.

(** A hexadecimal digit is worth less than 16, and printing its value gives
    the digit back in lowercase. *)
Lemma hex_value_inv (c : ascii) (v : Z) :
  hex_value c = Some v ->
  0 <= v < 16 /\ hex_char v = lower_ascii c /\
  hex_value (hex_char v) = Some v /\ lower_ascii (hex_char v) = hex_char v.
Proof.
  intros H. pose proof hex_digits_ok as A.
  rewrite forallb_forall in A. specialize (A c (in_all_ascii c)).
  unfold hex_digit_ok in A. rewrite H in A.
  destruct (hex_value (hex_char v)) as [w|] eqn:E;
    [|rewrite !andb_false_r in A; simpl in A; discriminate].
  rewrite !andb_true_iff in A. destruct A as [[[[A1 A2] A3] A4] A5].
  apply Z.leb_le in A1. apply Z.ltb_lt in A2. apply Ascii.eqb_eq in A3, A5.
  apply Z.eqb_eq in A4. subst w. auto.
Qed.

(** Checked on each of the 256 bytes. *)
Lemma format_02x_ok :
  forallb (fun k => String.eqb (format_02x (Z.of_nat k))
                      (String (hex_char (Z.of_nat k / 16))
                         (String (hex_char (Z.of_nat k mod 16)) EmptyString)))
          (seq 0 256) = true.
Proof. vm_compute. reflexivity. Qed.

(** [f"{z:02x}"] of a byte: its two hexadecimal digits. *)
Lemma format_02x_byte (z : Z) :
  0 <= z <= 255 ->
  format_02x z = String (hex_char (z / 16)) (String (hex_char (z mod 16)) EmptyString).
Proof.
  intros Hz. pose proof format_02x_ok as A. rewrite forallb_forall in A.
  specialize (A (Z.to_nat z)). rewrite Z2Nat.id in A by lia.
  apply String.eqb_eq, A, in_seq. lia.
Qed.

Lemma format_02x_digits (v w : Z) :
  0 <= v < 16 -> 0 <= w < 16 ->
  format_02x (16 * v + w) = String (hex_char v) (String (hex_char w) EmptyString).
Proof.
  intros Hv Hw. rewrite format_02x_byte by lia.
  replace ((16 * v + w) / 16) with v by (apply Z.div_unique with (r := w); lia).
  replace ((16 * v + w) mod 16) with w by (apply Z.mod_unique with (q := v); lia).
  reflexivity.
Qed.

(** [int(s, 16)] on two digits. *)
Lemma int16_digits (a b : ascii) (v w : Z) :
  hex_value a = Some v -> hex_value b = Some w ->
  int16 (String a (String b EmptyString)) = Some (16 * v + w).
Proof.
  intros Ha Hb. unfold int16. cbn [int16_from]. rewrite Ha, Hb. f_equal; lia.
Qed.

(** A valid colour: a hash and six hexadecimal digits, which give three
    bytes. *)
Lemma valid_colour_inv (c : string) :
  valid_colour c = true ->
  exists a1 a2 b1 b2 c1 c2 va1 va2 vb1 vb2 vc1 vc2,
    c = String "#" (String a1 (String a2 (String b1 (String b2 (String c1 (String c2 EmptyString)))))) /\
    hex_value a1 = Some va1 /\ hex_value a2 = Some va2 /\
    hex_value b1 = Some vb1 /\ hex_value b2 = Some vb2 /\
    hex_value c1 = Some vc1 /\ hex_value c2 = Some vc2 /\
    channels c = Some (16 * va1 + va2, 16 * vb1 + vb2, 16 * vc1 + vc2).
Proof.
  intros H.
  destruct c as [|h [|a1 [|a2 [|b1 [|b2 [|c1 [|c2 [|x rest]]]]]]]]; try discriminate.
  cbn [valid_colour] in H. rewrite !andb_true_iff in H.
  destruct H as [[[[[[Hh H1] H2] H3] H4] H5] H6].
  apply Ascii.eqb_eq in Hh. subst h.
  unfold is_hex in *.
  destruct (hex_value a1) as [va1|] eqn:E1; [|discriminate].
  destruct (hex_value a2) as [va2|] eqn:E2; [|discriminate].
  destruct (hex_value b1) as [vb1|] eqn:E3; [|discriminate].
  destruct (hex_value b2) as [vb2|] eqn:E4; [|discriminate].
  destruct (hex_value c1) as [vc1|] eqn:E5; [|discriminate].
  destruct (hex_value c2) as [vc2|] eqn:E6; [|discriminate].
  exists a1, a2, b1, b2, c1, c2, va1, va2, vb1, vb2, vc1, vc2.
  repeat split; auto.
  unfold channels. cbn [substring].
  rewrite (int16_digits a1 a2 _ _ E1 E2), (int16_digits b1 b2 _ _ E3 E4), (int16_digits c1 c2 _ _ E5 E6).
  reflexivity.
Qed.

(** The string [_lerp_colour] builds from three bytes is a valid colour in
    lowercase that reads back as those bytes. *)
Lemma built_colour (r g b : Z) :
  0 <= r <= 255 -> 0 <= g <= 255 -> 0 <= b <= 255 ->
  let out := String "#" (format_02x r ++ format_02x g ++ format_02x b) in
  String.length out = 7%nat /\ valid_colour out = true /\ lowercase out = out /\
  channels out = Some (r, g, b).
Proof.
  intros Hr Hg Hb.
  assert (D : forall z, 0 <= z <= 255 ->
                        exists a1 a2 v w, format_02x z = String a1 (String a2 EmptyString) /\
                                          hex_value a1 = Some v /\ hex_value a2 = Some w /\
                                          lower_ascii a1 = a1 /\ lower_ascii a2 = a2 /\
                                          16 * v + w = z).
  { intros z Hz. rewrite format_02x_byte by exact Hz.
    assert (Hq : 0 <= z / 16 < 16) by (split; [apply Z.div_pos; lia | apply Z.div_lt_upper_bound; lia]).
    pose proof (Z.mod_pos_bound z 16 ltac:(lia)) as Hm.
    pose proof hex_digits_ok as A. rewrite forallb_forall in A.
    (* every value below 16 is the value of its own lowercase digit *)
    assert (V : forall v, 0 <= v < 16 ->
                          hex_value (hex_char v) = Some v /\ lower_ascii (hex_char v) = hex_char v).
    { intros v Hv.
      assert (C : forallb (fun k => match hex_value (hex_char (Z.of_nat k)) with
                                    | Some w => (w =? Z.of_nat k) &&
                                                Ascii.eqb (lower_ascii (hex_char (Z.of_nat k)))
                                                          (hex_char (Z.of_nat k))
                                    | None => false
                                    end) (seq 0 16) = true) by (vm_compute; reflexivity).
      rewrite forallb_forall in C. specialize (C (Z.to_nat v)).
      rewrite Z2Nat.id in C by lia. specialize (C ltac:(apply in_seq; lia)).
      destruct (hex_value (hex_char v)) as [w|]; [|discriminate].
      apply andb_true_iff in C. destruct C as [C1 C2].
      apply Z.eqb_eq in C1. apply Ascii.eqb_eq in C2. subst. auto. }
    destruct (V (z / 16) Hq) as [V1 V2]. destruct (V (z mod 16) Hm) as [V3 V4].
    exists (hex_char (z / 16)), (hex_char (z mod 16)), (z / 16), (z mod 16).
    repeat split; auto. pose proof (Z.div_mod z 16 ltac:(lia)). lia. }
  destruct (D r Hr) as (r1 & r2 & vr1 & vr2 & Er & R1 & R2 & LR1 & LR2 & Vr).
  destruct (D g Hg) as (g1 & g2 & vg1 & vg2 & Eg & G1 & G2 & LG1 & LG2 & Vg).
  destruct (D b Hb) as (b1 & b2 & vb1 & vb2 & Eb & B1 & B2 & LB1 & LB2 & Vb).
  cbv zeta. rewrite Er, Eg, Eb. cbn [append]. repeat split.
  - cbn [valid_colour]. unfold is_hex. rewrite R1, R2, G1, G2, B1, B2. reflexivity.
  - cbn [lowercase]. rewrite LR1, LR2, LG1, LG2, LB1, LB2. reflexivity.
  - unfold channels. cbn [substring].
    rewrite (int16_digits r1 r2 _ _ R1 R2), (int16_digits g1 g2 _ _ G1 G2), (int16_digits b1 b2 _ _ B1 B2).
    rewrite Vr, Vg, Vb. reflexivity.
Qed.

(** ** The blend *)

Lemma between_byte (a z b : Z) :
  0 <= a <= 255 -> 0 <= b <= 255 -> between a z b -> 0 <= z <= 255.
Proof. unfold between. lia. Qed.

(** The blend of two colours given by their bytes. *)
Lemma lerp_colour_bytes (c1 c2 : string) (t : float) (r1 g1 b1 r2 g2 b2 : Z) :
  channels c1 = Some (r1, g1, b1) -> channels c2 = Some (r2, g2, b2) ->
  0 <= r1 <= 255 -> 0 <= g1 <= 255 -> 0 <= b1 <= 255 ->
  0 <= r2 <= 255 -> 0 <= g2 <= 255 -> 0 <= b2 <= 255 ->
  (0 <=? t)%float = true -> (t <=? 1)%float = true ->
  exists r g b,
    _lerp_colour c1 c2 t = Some (String "#" (format_02x r ++ format_02x g ++ format_02x b)) /\
    between r1 r r2 /\ between g1 g g2 /\ between b1 b b2 /\
    (F2Q t == 0 -> r = r1 /\ g = g1 /\ b = b1)%Q /\
    (F2Q t == 1 -> r = r2 /\ g = g2 /\ b = b2)%Q.
Proof.
  intros C1 C2 R1 G1 B1 R2 G2 B2 T0 T1.
  destruct (lerp_channel_between r1 r2 t R1 R2 T0 T1) as (r & Er & Hr & Hr0 & Hr1).
  destruct (lerp_channel_between g1 g2 t G1 G2 T0 T1) as (g & Eg & Hg & Hg0 & Hg1).
  destruct (lerp_channel_between b1 b2 t B1 B2 T0 T1) as (b & Eb & Hb & Hb0 & Hb1).
  exists r, g, b. unfold _lerp_colour. rewrite C1, C2, Er, Eg, Eb.
  split; [reflexivity|]. split; [exact Hr|]. split; [exact Hg|]. split; [exact Hb|].
  split; intros E; repeat split; auto.
Qed.

(** Two digits read and printed again: the same digits, in lowercase. *)
Lemma hex_pair_byte (a b : ascii) (v w : Z) :
  hex_value a = Some v -> hex_value b = Some w ->
  0 <= 16 * v + w <= 255 /\
  format_02x (16 * v + w) = String (lower_ascii a) (String (lower_ascii b) EmptyString).
Proof.
  intros Ha Hb.
  destruct (hex_value_inv a v Ha) as (Hv & Ea & _).
  destruct (hex_value_inv b w Hb) as (Hw & Eb & _).
  split; [lia|]. rewrite format_02x_digits by assumption. now rewrite Ea, Eb.
Qed.

(** C10, as the code has it.  For valid colours and a factor between 0.0
    and 1.0 the result is a valid colour of seven characters, written with
    lowercase digits, whose channels lie between those of the two colours; at
    0.0 and at 1.0 it is the first and the second colour, written with
    lowercase digits. *)
Theorem lerp_colour_blend (c1 c2 : string) (t : float) :
  valid_colour c1 = true -> valid_colour c2 = true ->
  (0 <=? t)%float = true -> (t <=? 1)%float = true ->
  _lerp_colour c1 c2 0 = Some (lowercase c1) /\
  _lerp_colour c1 c2 1 = Some (lowercase c2) /\
  exists out r1 g1 b1 r2 g2 b2 r g b,
    channels c1 = Some (r1, g1, b1) /\ channels c2 = Some (r2, g2, b2) /\
    _lerp_colour c1 c2 t = Some out /\
    String.length out = 7%nat /\ valid_colour out = true /\ lowercase out = out /\
    channels out = Some (r, g, b) /\
    between r1 r r2 /\ between g1 g g2 /\ between b1 b b2.
Proof.
  intros V1 V2 T0 T1.
  destruct (valid_colour_inv c1 V1)
    as (x1 & x2 & x3 & x4 & x5 & x6 & v1 & v2 & v3 & v4 & v5 & v6 &
        E1 & X1 & X2 & X3 & X4 & X5 & X6 & C1).
  destruct (valid_colour_inv c2 V2)
    as (y1 & y2 & y3 & y4 & y5 & y6 & w1 & w2 & w3 & w4 & w5 & w6 &
        E2 & Y1 & Y2 & Y3 & Y4 & Y5 & Y6 & C2).
  destruct (hex_pair_byte x1 x2 v1 v2 X1 X2) as [R1 FR1].
  destruct (hex_pair_byte x3 x4 v3 v4 X3 X4) as [G1 FG1].
  destruct (hex_pair_byte x5 x6 v5 v6 X5 X6) as [B1 FB1].
  destruct (hex_pair_byte y1 y2 w1 w2 Y1 Y2) as [R2 FR2].
  destruct (hex_pair_byte y3 y4 w3 w4 Y3 Y4) as [G2 FG2].
  destruct (hex_pair_byte y5 y6 w5 w6 Y5 Y6) as [B2 FB2].
  split; [|split].
  - destruct (lerp_colour_bytes c1 c2 0 _ _ _ _ _ _ C1 C2 R1 G1 B1 R2 G2 B2
                                eq_refl eq_refl) as (r & g & b & E & _ & _ & _ & H0 & _).
    destruct (H0 F2Q_zero) as (-> & -> & ->).
    rewrite E, FR1, FG1, FB1, E1. reflexivity.
  - destruct (lerp_colour_bytes c1 c2 1 _ _ _ _ _ _ C1 C2 R1 G1 B1 R2 G2 B2
                                eq_refl eq_refl) as (r & g & b & E & _ & _ & _ & _ & H1).
    destruct (H1 F2Q_one) as (-> & -> & ->).
    rewrite E, FR2, FG2, FB2, E2. reflexivity.
  - destruct (lerp_colour_bytes c1 c2 t _ _ _ _ _ _ C1 C2 R1 G1 B1 R2 G2 B2 T0 T1)
      as (r & g & b & E & Hr & Hg & Hb & _).
    pose proof (between_byte _ _ _ R1 R2 Hr) as Br.
    pose proof (between_byte _ _ _ G1 G2 Hg) as Bg.
    pose proof (between_byte _ _ _ B1 B2 Hb) as Bb.
    destruct (built_colour r g b Br Bg Bb) as (L & V & Lo & Ch).
    exists (String "#" (format_02x r ++ format_02x g ++ format_02x b)),
      (16 * v1 + v2), (16 * v3 + v4), (16 * v5 + v6),
      (16 * w1 + w2), (16 * w3 + w4), (16 * w5 + w6), r, g, b.
    split; [exact C1|]. split; [exact C2|]. split; [exact E|].
    split; [exact L|]. split; [exact V|]. split; [exact Lo|]. split; [exact Ch|].
    split; [exact Hr|]. split; [exact Hg | exact Hb].
Qed.

(** Witness of C10 (amended): half way between the two faces of the
    overlay, [PURPLE] and [PINK]. *)
Lemma lerp_colour_blend_witness :
  _lerp_colour PURPLE PINK 0 = Some (lowercase PURPLE) /\
  _lerp_colour PURPLE PINK 1 = Some (lowercase PINK) /\
  exists out r1 g1 b1 r2 g2 b2 r g b,
    channels PURPLE = Some (r1, g1, b1) /\ channels PINK = Some (r2, g2, b2) /\
    _lerp_colour PURPLE PINK 0x1p-1 = Some out /\
    String.length out = 7%nat /\ valid_colour out = true /\ lowercase out = out /\
    channels out = Some (r, g, b) /\
    between r1 r r2 /\ between g1 g g2 /\ between b1 b b2.
Proof.
  apply (lerp_colour_blend PURPLE PINK 0x1p-1%float); reflexivity.
Defined.

(** C10, as stated, fails at 0 and at 1 for colours written in capitals,
    which is how the program writes its own: between [PURPLE] = #9B59B6 and
    [PINK] = #FF69B4 the result at 0.0 is #9b59b6, which is not the string
    [PURPLE], and the result at 1.0 is #ff69b4, which is not [PINK]. *)
Lemma lerp_colour_changes_case :
  valid_colour PURPLE = true /\ valid_colour PINK = true /\
  _lerp_colour PURPLE PINK 0 = Some "#9b59b6"%string /\
  String.eqb "#9b59b6" PURPLE = false /\
  _lerp_colour PURPLE PINK 1 = Some "#ff69b4"%string /\
  String.eqb "#ff69b4" PINK = false.
Proof.
  repeat split; vm_compute; reflexivity.
Qed.

End ColourFacts.

(* ================================================================== *)
(** * More about the manager                                           *)
(* ================================================================== *)

Module ManagerFacts.

Import OBS Probe.
Local Open Scope string_scope.
Local Open Scope obs_scope.

Lemma is_obs_name_iff (name : string) :
  is_obs_name name = true <-> In name obs_names.
Proof.
  unfold is_obs_name. rewrite existsb_exists. split.
  - intros (x & Hin & E). apply String.eqb_eq in E. subst x. exact Hin.
  - intros H. exists name. split; [exact H | apply String.eqb_refl].
Qed.

Lemma obs_name_not_empty (name : string) :
  In (lowercase name) obs_names -> (name =? "") = false.
Proof.
  intros H. destruct name as [|c s]; [|reflexivity].
  simpl in H. repeat (destruct H as [H|H]; [discriminate H|]). destruct H.
Qed.

(** X1.  The probe answers [True] exactly when some process whose name can be
    read has, in lowercase, one of the six names; processes whose name cannot
    be read, is [None] or is empty are passed over wherever they stand. *)
Theorem obs_running_iff (ps : list process) :
  _obs_running ps = true <->
  exists name, In (Ok (Some name)) ps /\ In (lowercase name) obs_names.
Proof.
  induction ps as [|p rest IH]; simpl.
  - split; [discriminate | intros (n & [] & _)].
  - destruct p as [[name|]|].
    + destruct (negb (name =? "") && is_obs_name (lowercase name)) eqn:E.
      * split; [|reflexivity]. intros _. exists name.
        apply andb_true_iff in E. destruct E as [_ E].
        apply is_obs_name_iff in E. split; [left; reflexivity | exact E].
      * rewrite IH. split.
        -- intros (n & Hin & Hn). exists n. split; [right; exact Hin | exact Hn].
        -- intros (n & [Hin|Hin] & Hn).
           ++ injection Hin as ->.
              rewrite (obs_name_not_empty _ Hn) in E.
              apply is_obs_name_iff in Hn. rewrite Hn in E. discriminate E.
           ++ exists n. split; assumption.
    + rewrite IH. split.
      * intros (n & Hin & Hn). exists n. split; [right; exact Hin | exact Hn].
      * intros (n & [Hin|Hin] & Hn); [discriminate Hin|]. exists n. split; assumption.
    + rewrite IH. split.
      * intros (n & Hin & Hn). exists n. split; [right; exact Hin | exact Hn].
      * intros (n & [Hin|Hin] & Hn); [discriminate Hin|]. exists n. split; assumption.
Qed.

(** ** A Hoare logic for the manager's monad *)

Lemma hoare_bind {A B} (P : World -> Prop) (m : M A) (Q : A -> World -> Prop)
      (k : A -> M B) (R : B -> World -> Prop) :
  hoare P m Q -> (forall a, hoare (Q a) (k a) R) -> hoare P (bind m k) R.
Proof.
  intros Hm Hk w Hw. unfold bind. specialize (Hm w Hw).
  destruct (m w) as [a w']. simpl in Hm. apply Hk. exact Hm.
Qed.

Lemma hoare_ret {A} (P : World -> Prop) (a : A) :
  hoare P (ret a) (fun _ w => P w).
Proof. intros w Hw. exact Hw. Qed.

Lemma hoare_conseq {A} (P P' : World -> Prop) (m : M A) (Q Q' : A -> World -> Prop) :
  hoare P' m Q' -> (forall w, P w -> P' w) -> (forall a w, Q' a w -> Q a w) ->
  hoare P m Q.
Proof. intros H HP HQ w Hw. apply HQ, H, HP, Hw. Qed.

Lemma hoare_get_connected (P : World -> Prop) :
  hoare P get_connected (fun c w => P w /\ c = _connected w).
Proof. intros w Hw. simpl. split; [exact Hw | reflexivity]. Qed.

Lemma hoare_when (P Q : World -> Prop) (b : bool) (m : M unit) :
  (b = true -> hoare P m (fun _ => Q)) -> (b = false -> forall w, P w -> Q w) ->
  hoare P (when b m) (fun _ => Q).
Proof.
  intros Hm Hskip. destruct b; simpl.
  - apply Hm. reflexivity.
  - intros w Hw. apply Hskip; [reflexivity | exact Hw].
Qed.

(** ** The callbacks tell the truth *)

Lemma last_conn_snoc (tr : list event) (e : event) :
  last_conn (tr ++ [e]) = match e with OnConn c => c | _ => last_conn tr end.
Proof. unfold last_conn. rewrite fold_left_app. reflexivity. Qed.

Lemma state_only_snoc (tr : list event) (e : event) :
  state_only_when_connected tr ->
  (is_on_state e = true -> last_conn tr = true) ->
  state_only_when_connected (tr ++ [e]).
Proof.
  intros Htr He n b Hn.
  destruct (Nat.lt_ge_cases n (List.length tr)) as [Hlt|Hge].
  - rewrite nth_error_app1 in Hn by exact Hlt.
    rewrite firstn_app.
    replace (n - List.length tr)%nat with 0%nat by lia.
    simpl. rewrite app_nil_r. exact (Htr n b Hn).
  - rewrite nth_error_app2 in Hn by exact Hge.
    destruct (n - List.length tr)%nat as [|k] eqn:Ek.
    + simpl in Hn. injection Hn as ->.
      assert (n = List.length tr) by lia. subst n.
      rewrite firstn_app, firstn_all, Nat.sub_diag. simpl. rewrite app_nil_r.
      apply He. reflexivity.
    + simpl in Hn. destruct k; discriminate Hn.
Qed.

Lemma told_connect (h : handshake) :
  hoare (fun w => told w /\ _connected w = false) (_connect h) (fun _ => told).
Proof.
  intros [ws conn tr] [[Hc Hs] Hf]. simpl in *. subst conn.
  destruct h as [| |c]; unfold told; simpl.
  - split; [reflexivity | exact Hs].
  - split; [symmetry; exact Hf | exact Hs].
  - split.
    + rewrite last_conn_snoc. reflexivity.
    + apply state_only_snoc; [|discriminate].
      apply state_only_snoc; [exact Hs | discriminate].
Qed.

Lemma told_disconnect :
  hoare told _disconnect (fun _ w => told w /\ _connected w = false).
Proof.
  intros [ws conn tr] [Hc Hs]. simpl in *.
  destruct ws as [c|]; unfold told; simpl.
  - split; [split|reflexivity].
    + rewrite last_conn_snoc. reflexivity.
    + apply state_only_snoc; [|discriminate].
      apply state_only_snoc; [exact Hs | discriminate].
  - split; [split|reflexivity].
    + rewrite last_conn_snoc. reflexivity.
    + apply state_only_snoc; [exact Hs | discriminate].
Qed.

Lemma told_on_conn_false :
  hoare (fun w => told w /\ _connected w = false) (_on_conn false)
        (fun _ w => told w /\ _connected w = false).
Proof.
  intros [ws conn tr] [[Hc Hs] Hf]. unfold told. simpl in *.
  split; [split|exact Hf].
  - rewrite last_conn_snoc. exact Hf.
  - apply state_only_snoc; [exact Hs | discriminate].
Qed.

Lemma told_on_state (r : bool) :
  hoare (fun w => told w /\ _connected w = true) (_on_state r) (fun _ => told).
Proof.
  intros [ws conn tr] [[Hc Hs] Ht]. unfold told. simpl in *. split.
  - rewrite last_conn_snoc. exact Hc.
  - apply state_only_snoc; [exact Hs|]. intros _. rewrite <- Hc. exact Ht.
Qed.

Lemma told_poll (srv : Server) :
  hoare (fun w => told w /\ _connected w = true) (_poll_mute srv)
        (fun r w => told w /\ (r <> None -> _connected w = true)).
Proof.
  intros [ws conn tr] [Ht Hc].
  unfold _poll_mute, bind, get_ws. cbn [_ws].
  destruct ws as [c|]; [|simpl; split; [exact Ht | intros _; exact Hc]].
  destruct (get_input_list srv) as [resp|].
  - destruct (filter is_mic _); simpl; (split; [exact Ht | intros _; exact Hc]).
  - pose proof (told_disconnect (mkWorld (Some c) conn tr) Ht) as [H _].
    unfold bind. destruct (_disconnect _) as [u w']. simpl in *.
    split; [exact H | intros N; exfalso; apply N; reflexivity].
Qed.

Lemma told_loop_body (t : Tick) (was : bool) :
  hoare told (loop_body t was)
        (fun r w => told w /\ (_connected w = true -> r = true)).
Proof.
  unfold loop_body. cbv zeta.
  eapply hoare_bind; [apply hoare_get_connected|]. intros conn.
  apply hoare_bind with (Q := fun _ => down_means_off t).
  { intros w [Hw ->]. unfold down_means_off.
    destruct (obs_up t) eqn:Eu; destruct (_connected w) eqn:Ec; simpl.
    - split; [exact Hw | discriminate].
    - split; [|discriminate]. apply (told_connect _ w). split; assumption.
    - destruct (told_disconnect w Hw) as [H1 H2].
      split; [exact H1 | intros _; exact H2].
    - split; [exact Hw | intros _; exact Ec]. }
  intros _.
  apply hoare_bind with (Q := fun _ => down_means_off t).
  { apply hoare_when.
    - intros Hb. apply andb_true_iff in Hb. destruct Hb as [Hu _].
      apply negb_true_iff in Hu.
      intros w [Hw Hc].
      destruct (told_on_conn_false w (conj Hw (Hc Hu))) as [H1 H2].
      split; [exact H1 | intros _; exact H2].
    - intros _ w H. exact H. }
  intros _.
  apply hoare_bind with (Q := fun _ => down_means_off t).
  { apply hoare_when.
    - intros Hb. apply andb_true_iff in Hb. destruct Hb as [Hu _].
      eapply hoare_bind; [apply hoare_get_connected|]. intros c.
      apply hoare_when.
      + intros Hc w [[Hw _] ->]. apply negb_true_iff in Hc.
        split; [apply (told_connect _ w); split; assumption|].
        intros E. rewrite E in Hu. discriminate Hu.
      + intros _ w [H _]. exact H.
    - intros _ w H. exact H. }
  intros _.
  eapply hoare_bind; [apply hoare_get_connected|]. intros c.
  apply hoare_bind with (Q := fun _ => down_means_off t).
  { apply hoare_when.
    - intros ->. destruct (obs_up t) eqn:Eu.
      + apply hoare_bind with
          (Q := fun r w => told w /\ (r <> None -> _connected w = true)).
        * intros w [[Hw _] Hc]. apply told_poll. split; [exact Hw | symmetry; exact Hc].
        * intros [b|].
          -- intros w [Hw Hc]. split; [|intros E; rewrite Eu in E; discriminate E].
             apply (told_on_state b w). split; [exact Hw | apply Hc; discriminate].
          -- intros w [Hw _]. split; [exact Hw|].
             intros E. rewrite Eu in E. discriminate E.
      + intros w [[_ Hoff] Hc]. rewrite (Hoff Eu) in Hc. discriminate Hc.
    - intros _ w [H _]. exact H. }
  intros _ w [Hw Hoff]. simpl. split; [exact Hw|].
  intros Hc. destruct (obs_up t) eqn:Eu; [reflexivity|].
  rewrite (Hoff eq_refl) in Hc. discriminate Hc.
Qed.

Lemma told_loop_from (ticks : list Tick) :
  forall was w, told w -> (_connected w = true -> was = true) ->
  told (snd (loop_from ticks was w)) /\
  (_connected (snd (loop_from ticks was w)) = true ->
   fst (loop_from ticks was w) = true).
Proof.
  induction ticks as [|t rest IH]; intros was w Hw Hwas; simpl.
  - split; assumption.
  - unfold bind. pose proof (told_loop_body t was w Hw) as [H1 H2].
    destruct (loop_body t was w) as [was' w']. simpl in H1, H2.
    apply IH; assumption.
Qed.

Lemma told_init : told init.
Proof.
  split; [reflexivity|]. intros n b H. simpl in H. destruct n; discriminate H.
Qed.

(** X2.  Whatever the loop meets, the [connected] property equals the value
    the connectivity callback was last called with ([False] if it was never
    called). *)
Theorem connected_is_last_signal (ticks : list Tick) :
  let w := snd (_loop ticks init) in
  connected w = last_conn (trace w).
Proof.
  cbv zeta. unfold _loop, connected.
  destruct (told_loop_from ticks false init told_init) as [[H _] _];
    [discriminate | exact H].
Qed.

(** X3.  Whatever the loop meets, every call of the state callback comes
    while the last connectivity callback before it said [True]. *)
Theorem state_signal_only_while_connected (ticks : list Tick) :
  state_only_when_connected (trace (snd (_loop ticks init))).
Proof.
  unfold _loop.
  destruct (told_loop_from ticks false init told_init) as [[_ H] _];
    [discriminate | exact H].
Qed.

(** ** What the loop leaves behind *)

Lemma consistent_init : consistent init.
Proof.
  apply OBSFacts.consistent_intro;
    [apply OBSFacts.one_at_a_time_nil | reflexivity | reflexivity].
Qed.

(** After any run of the loop: the log and the fields agree, the callbacks
    told the truth, and a connected manager saw the host in its last pass. *)
Lemma after_loop (ticks : list Tick) :
  let p := _loop ticks init in
  consistent (snd p) /\ told (snd p) /\ (_connected (snd p) = true -> fst p = true).
Proof.
  cbv zeta. unfold _loop. split.
  - apply (@OBSFacts.consistent_loop_from ticks false init consistent_init).
  - destruct (told_loop_from ticks false init told_init) as [H1 H2];
      [discriminate | split; assumption].
Qed.

Lemma loop_from_app (a b : list Tick) :
  forall was w,
    loop_from (a ++ b) was w =
    loop_from b (fst (loop_from a was w)) (snd (loop_from a was w)).
Proof.
  induction a as [|t a IH]; intros was w; simpl.
  - reflexivity.
  - unfold bind. destruct (loop_body t was w) as [was' w']. apply IH.
Qed.

Lemma loop_snoc (ticks : list Tick) (t : Tick) :
  _loop (ticks ++ [t]) init =
  loop_body t (fst (_loop ticks init)) (snd (_loop ticks init)).
Proof.
  unfold _loop. rewrite loop_from_app. simpl. unfold bind.
  destruct (loop_body t _ _) as [a w]. reflexivity.
Qed.

Lemma after_stop (w : World) :
  consistent w -> told w ->
  let w' := snd (stop w) in
  _ws w' = None /\ _connected w' = false /\
  sessions (trace w') = [] /\ last_conn (trace w') = false.
Proof.
  intros Hc Ht. cbv zeta. unfold stop.
  destruct (@OBSFacts.consistent_disconnect w Hc) as [(_ & Hses & Hflag) Hoff].
  destruct (told_disconnect w Ht) as [[Hlast _] _].
  destruct (_disconnect w) as [u w']. simpl in *.
  rewrite Hoff in Hflag, Hlast. unfold held in Hses.
  destruct (_ws w'); [discriminate Hflag|].
  split; [reflexivity|]. split; [exact Hoff|].
  split; [exact Hses | symmetry; exact Hlast].
Qed.

(** X4.  [stop] does not wait for the loop.  When it arrives while the loop
    sleeps between two passes, the manager ends with no session held, every
    session it opened released, not connected, and [False] the last thing the
    coordinator heard.  When it arrives just after the loop has read
    [_running] at the top of a pass, that pass still runs: if it finds the
    host and its handshake is accepted, the manager ends connected, holding
    the new session, and [True] is the last thing the coordinator heard. *)
Theorem stop_between_passes_or_as_one_begins (ticks : list Tick) (c : Conn)
        (h2 : handshake) (resp : option (list input))
        (mute : option string -> exc bool) :
  (let w := snd (stop_between_passes ticks init) in
   _ws w = None /\ sessions (trace w) = [] /\
   connected w = false /\ last_conn (trace w) = false) /\
  (let t := mkTick true (Accepted c) h2 (mkServer (Ok resp) mute) in
   let w := snd (stop_as_pass_begins ticks t init) in
   _ws w = Some c /\ sessions (trace w) = [c] /\
   connected w = true /\ last_conn (trace w) = true).
Proof.
  cbv zeta. unfold stop_between_passes, stop_as_pass_begins, bind, connected.
  destruct (after_loop ticks) as (Hc & Ht & _).
  destruct (_loop ticks init) as [was w]. simpl in Hc, Ht.
  destruct (after_stop w Hc Ht) as (Hws & Hoff & Hses & Hlast).
  destruct (stop w) as [u [ws conn tr]]. simpl in Hws, Hoff, Hses, Hlast.
  subst ws conn. split.
  - simpl. split; [reflexivity|]. split; [exact Hses|].
    split; [reflexivity | exact Hlast].
  - unfold loop_body, bind, get_connected, when.
    cbn [obs_up handshake1 _connected andb negb].
    cbn [_connect bind log set_ws set_connected _on_conn _ws _connected trace].
    unfold _poll_mute, bind, get_ws. cbn [server _ws get_input_list].
    destruct (filter is_mic _) as [|m ms]; destruct was; simpl;
      (split; [reflexivity|]); (split; [|split; [reflexivity|]]);
      unfold sessions, last_conn; rewrite ?fold_left_app; simpl;
      fold (sessions tr); rewrite ?Hses; reflexivity.
Qed.

(** X5.  A pass that finds the host absent ends with no session and not
    connected, and never polls.  If a session [c] was open it appends
    [Released c] and calls the connectivity callback with [False] twice; with
    no session it calls it once if the host was there in the pass before, and
    does nothing otherwise. *)
Theorem pass_without_host (ticks : list Tick) (h1 h2 : handshake) (srv : Server) :
  let before := _loop ticks init in
  let w := snd before in
  let w' := snd (_loop (ticks ++ [mkTick false h1 h2 srv])%list init) in
  _ws w' = None /\ connected w' = false /\
  trace w' = (trace w ++
              match _ws w with
              | Some c => [Released c; OnConn false; OnConn false]
              | None => if fst before then [OnConn false] else []
              end)%list.
Proof.
  cbv zeta. rewrite loop_snoc. unfold connected.
  destruct (after_loop ticks) as ((_ & _ & Hflag) & _ & Hwas).
  destruct (_loop ticks init) as [was [ws conn tr]]. simpl in Hflag, Hwas |- *.
  destruct ws as [c|]; subst conn.
  - rewrite (Hwas eq_refl). simpl. rewrite <- !app_assoc. repeat split.
  - destruct was; simpl; repeat split. symmetry. apply app_nil_r.
Qed.

(** X6.  Without the client library ([obsws is None]) the manager never
    opens a session, never reports a connection and never reports a microphone
    state: all it ever does is call the connectivity callback with
    [False]. *)
Theorem without_client_library (ticks : list Tick) :
  Forall (fun t => handshake1 t = NoClientLibrary /\
                   handshake2 t = NoClientLibrary) ticks ->
  let w := snd (_loop ticks init) in
  _ws w = None /\ connected w = false /\
  forall e, In e (trace w) -> e = OnConn false.
Proof.
  intros Hall. cbv zeta. unfold _loop, connected.
  assert (G : forall was tr,
             (forall e, In e tr -> e = OnConn false) ->
             let w := snd (loop_from ticks was (mkWorld None false tr)) in
             _ws w = None /\ _connected w = false /\
             forall e, In e (trace w) -> e = OnConn false).
  { induction Hall as [|t rest [E1 E2] _ IH]; intros was tr Htr; simpl.
    - repeat split. exact Htr.
    - destruct t as [up a1 a2 srv]. simpl in E1, E2. subst a1 a2.
      destruct up, was; simpl; apply IH; try exact Htr.
      intros e He. apply in_app_or in He. destruct He as [He|[<-|[]]];
        [apply Htr; exact He | reflexivity]. }
  apply (G false []). intros e [].
Qed.

Lemma without_client_library_witness :
  Forall (fun t => handshake1 t = NoClientLibrary /\
                   handshake2 t = NoClientLibrary)
         [mkTick true NoClientLibrary NoClientLibrary (mkServer Raise (fun _ => Raise));
          mkTick false NoClientLibrary NoClientLibrary (mkServer Raise (fun _ => Raise))] /\
  trace (snd (_loop
         [mkTick true NoClientLibrary NoClientLibrary (mkServer Raise (fun _ => Raise));
          mkTick false NoClientLibrary NoClientLibrary (mkServer Raise (fun _ => Raise))]
         init)) = [OnConn false] /\
  connected (snd (_loop
         [mkTick true NoClientLibrary NoClientLibrary (mkServer Raise (fun _ => Raise));
          mkTick false NoClientLibrary NoClientLibrary (mkServer Raise (fun _ => Raise))]
         init)) = false.
Proof.
  assert (H : Forall (fun t => handshake1 t = NoClientLibrary /\
                               handshake2 t = NoClientLibrary)
                [mkTick true NoClientLibrary NoClientLibrary (mkServer Raise (fun _ => Raise));
                 mkTick false NoClientLibrary NoClientLibrary (mkServer Raise (fun _ => Raise))])
    by (repeat constructor).
  split; [exact H|]. split; [reflexivity|].
  exact (proj1 (proj2 (without_client_library _ H))).
Defined.

(** X7.  A pass that finds the host present while the manager is not
    connected, and whose first handshake is accepted, opens that one session
    and reports [True]; the second handshake is never tried.  The poll of the
    same pass follows: a state callback, or the teardown when the input list
    cannot be read. *)
Theorem lost_session_is_reopened (ticks : list Tick) (c : Conn) (h2 : handshake)
        (srv : Server) :
  let w := snd (_loop ticks init) in
  let w' := snd (_loop (ticks ++ [mkTick true (Accepted c) h2 srv])%list init) in
  connected w = false ->
  trace w' =
  (trace w ++ [Opened c; OnConn true] ++
   match get_input_list srv with
   | Raise => [Released c; OnConn false]
   | Ok resp =>
       let mics := filter is_mic (match resp with Some l => l | None => [] end) in
       [OnState (match mics with [] => false | _ :: _ => all_live_loop srv mics end)]
   end)%list.
Proof.
  cbv zeta. rewrite loop_snoc. unfold connected.
  destruct (after_loop ticks) as ((_ & _ & Hflag) & _ & _).
  destruct (_loop ticks init) as [was [ws conn tr]]. simpl in Hflag |- *.
  intros ->. destruct ws as [c0|]; [discriminate Hflag|].
  unfold loop_body, bind, get_connected, when. cbn [obs_up handshake1 _connected andb negb].
  cbn [_connect bind log set_ws set_connected _on_conn _ws _connected trace].
  unfold _poll_mute, bind, get_ws. cbn [server _ws].
  destruct (get_input_list srv) as [resp|].
  - destruct (filter is_mic _) as [|m ms]; destruct was; simpl;
      rewrite <- !app_assoc; reflexivity.
  - destruct was; simpl; rewrite <- !app_assoc; reflexivity.
Qed.

Lemma lost_session_is_reopened_witness :
  connected (snd (_loop [mkTick true Refused Refused (mkServer Raise (fun _ => Raise))] init))
  = false /\
  trace (snd (_loop [mkTick true Refused Refused (mkServer Raise (fun _ => Raise));
                     mkTick true (Accepted 7) Refused
                            (mkServer (Ok None) (fun _ => Raise))] init)) =
  [Opened 7; OnConn true; OnState false].
Proof.
  split; [reflexivity|].
  exact (lost_session_is_reopened
           [mkTick true Refused Refused (mkServer Raise (fun _ => Raise))]
           7 Refused (mkServer (Ok None) (fun _ => Raise)) eq_refl).
Defined.

End ManagerFacts.

(* ================================================================== *)
(** * More about the overlay                                           *)
(* ================================================================== *)

Module OverlayRunFacts.

Import B64 B64Facts Overlay FadeFacts ColourFacts.
Local Open Scope Q_scope.

Lemma mapped_app (a b : list wm_call) :
  mapped (a ++ b) =
  fold_left (fun m c => match c with
                        | Deiconify => true
                        | Withdraw => false
                        | Lift | Topmost => m
                        end) b (mapped a).
Proof. unfold mapped. apply fold_left_app. Qed.

Lemma sound_init : sound init.
Proof.
  unfold sound. split; [vm_compute; reflexivity|].
  split; [vm_compute; reflexivity|]. split; [reflexivity|]. reflexivity.
Qed.

Lemma sound_perform (o : OverlayWindow) (c : call) :
  sound o -> sound (perform o c).
Proof.
  intros (L & U & T & W). destruct c as [| | |b]; simpl.
  - destruct (unit_interval _ L U) as [F B].
    unfold sound, _animate.
    cbn [_display_live _target_live _all_live _visible wm]. rewrite T.
    destruct (_all_live o).
    + destruct (fade_up (_display_live o) F B) as (F' & B' & _).
      destruct (unit_interval_leb _ F') as [L' U']; [split; lra|].
      split; [exact L'|]. split; [exact U'|]. split; [reflexivity | exact W].
    + destruct (fade_down (_display_live o) F B) as (F' & B' & _).
      destruct (unit_interval_leb _ F') as [L' U']; [split; lra|].
      split; [exact L'|]. split; [exact U'|]. split; [reflexivity | exact W].
  - unfold show. destruct (_visible o) eqn:V; cbn [negb].
    + unfold sound. rewrite V. auto.
    + unfold sound. cbn [_display_live _target_live _all_live _visible wm].
      rewrite mapped_app. auto.
  - unfold hide. destruct (_visible o) eqn:V.
    + unfold sound. cbn [_display_live _target_live _all_live _visible wm].
      rewrite mapped_app. auto.
    + unfold sound. rewrite V. auto.
  - unfold sound, set_state.
    cbn [_display_live _target_live _all_live _visible wm]. auto.
Qed.

Lemma sound_run (calls : list call) :
  forall o, sound o -> sound (run calls o).
Proof.
  unfold run. induction calls as [|c rest IH]; intros o H; simpl.
  - exact H.
  - apply IH, sound_perform, H.
Qed.


(** X9.  Whatever is done to the overlay, [_visible] says whether the window
    is mapped: [show] and [hide] are the only calls that change either, and
    they change both. *)
Theorem visible_flag_matches_window (calls : list call) :
  let o := run calls init in
  _visible o = mapped (wm o).
Proof.
  cbv zeta. destruct (sound_run calls init sound_init) as (_ & _ & _ & W).
  symmetry. exact W.
Qed.

(** ** How far one frame moves the level *)

Lemma fade_rate_down (d : float) :
  finite d = true -> 0 <= F2Q d <= 1 ->
  F2Q d - F2Q (fade 0 d) <= step_q + ulp1.
Proof.
  intros Fd [H0 H1]. pose proof pow2_971_big as Big.
  assert (Hs : 0 < step_q) by reflexivity.
  assert (Hu : 0 < ulp1) by reflexivity.
  destruct (sub_rounded 0 d finite_0 Fd) as [Fdiff Rdiff].
  { rewrite F2Q_zero. split; lra. }
  assert (Ediff : F2Q (0 - d) == - F2Q d).
  { rewrite (rounded_exact _ _ Rdiff); [rewrite F2Q_zero; ring|].
    rewrite F2Q_zero. setoid_replace (0 - F2Q d) with (- F2Q d) by ring.
    apply representable_opp, F2Q_representable. }
  destruct (abs_F2Q (0 - d)) as [Fabs Eabs]. rewrite Fdiff in Fabs.
  assert (Eabs' : F2Q (abs (0 - d)) == F2Q d).
  { rewrite Eabs, Ediff, Qabs_opp. apply Qabs_pos. exact H0. }
  unfold fade. cbv zeta.
  destruct (abs (0 - d) <? step)%float eqn:Esnap.
  - apply ltb_iff in Esnap; [|exact Fabs | exact finite_step].
    rewrite Eabs', F2Q_step in Esnap. rewrite F2Q_zero. lra.
  - apply ltb_false_iff in Esnap; [|exact Fabs | exact finite_step].
    rewrite Eabs', F2Q_step in Esnap.
    assert (Edir : (0 <? 0 - d)%float = false).
    { apply ltb_false_iff; [exact finite_0 | exact Fdiff|].
      rewrite Ediff, F2Q_zero. lra. }
    rewrite Edir.
    destruct (add_rounded d (- step) Fd finite_opp_step) as [Fr Rr].
    { rewrite F2Q_opp_step. split; lra. }
    rewrite F2Q_opp_step in Rr.
    pose proof (rounded_error _ _ Rr) as Herr.
    rewrite pow2_m52 in Herr.
    assert (Hb : - (3 # 2) <= F2Q d + - step_q <= 3 # 2).
    { assert (step_q < 1) by reflexivity. split; lra. }
    specialize (Herr Hb). apply Qabs_Qle_condition in Herr. lra.
Qed.

Lemma fade_rate_up (d : float) :
  finite d = true -> 0 <= F2Q d <= 1 ->
  F2Q (fade 1 d) - F2Q d <= step_q + ulp1.
Proof.
  intros Fd [H0 H1]. pose proof pow2_971_big as Big.
  assert (Hs : 0 < step_q) by reflexivity.
  assert (Hs' : step_q < 1 # 2) by reflexivity.
  assert (Hu : 0 < ulp1) by reflexivity.
  destruct (sub_rounded 1 d finite_1 Fd) as [Fdiff Rdiff].
  { rewrite F2Q_one. split; lra. }
  rewrite F2Q_one in Rdiff.
  assert (Gpos : 0 <= F2Q (1 - d)).
  { apply (rounded_ge _ _ 0 Rdiff representable_0). lra. }
  destruct (abs_F2Q (1 - d)) as [Fabs Eabs]. rewrite Fdiff in Fabs.
  rewrite (Qabs_pos _ Gpos) in Eabs.
  unfold fade. cbv zeta.
  destruct (abs (1 - d) <? step)%float eqn:Esnap.
  - apply ltb_iff in Esnap; [|exact Fabs | exact finite_step].
    rewrite Eabs, F2Q_step in Esnap. rewrite F2Q_one.
    destruct (Qlt_le_dec step_q (1 - F2Q d)) as [L|L]; [|lra].
    assert (Rs : representable step_q).
    { rewrite <- F2Q_step. apply F2Q_representable. }
    pose proof (rounded_ge _ _ step_q Rdiff Rs) as G. lra.
  - apply ltb_false_iff in Esnap; [|exact Fabs | exact finite_step].
    rewrite Eabs, F2Q_step in Esnap.
    assert (Edir : (0 <? 1 - d)%float = true).
    { apply ltb_iff; [exact finite_0 | exact Fdiff|]. rewrite F2Q_zero. lra. }
    rewrite Edir.
    destruct (add_rounded d step Fd finite_step) as [Fr Rr].
    { rewrite F2Q_step. split; lra. }
    rewrite F2Q_step in Rr.
    pose proof (rounded_error _ _ Rr) as Herr.
    rewrite pow2_m52 in Herr.
    assert (Hb : - (3 # 2) <= F2Q d + step_q <= 3 # 2) by (split; lra).
    specialize (Herr Hb). apply Qabs_Qle_condition in Herr. lra.
Qed.

(** X10.  One frame moves the displayed level toward the target and never
    past it, by no more than the step of 3/30 plus one rounding unit. *)
Theorem frame_moves_toward_target (calls : list call) :
  let o := run calls init in
  let d := F2Q (_display_live o) in
  let d' := F2Q (_display_live (_animate o)) in
  Qabs (d' - d) <= step_q + ulp1 /\
  (if _all_live o then d <= d' <= 1 else 0 <= d' <= d).
Proof.
  cbv zeta. destruct (sound_run calls init sound_init) as (L & U & T & _).
  destruct (unit_interval _ L U) as [F B].
  unfold _animate. cbn [_display_live]. rewrite T.
  destruct (_all_live (run calls init)).
  - destruct (fade_up _ F B) as (_ & B' & _).
    pose proof (fade_rate_up _ F B) as R.
    split; [|exact B']. apply Qabs_Qle_condition.
    assert (0 < step_q) by reflexivity. assert (0 < ulp1) by reflexivity.
    split; lra.
  - destruct (fade_down _ F B) as (_ & B' & _).
    pose proof (fade_rate_down _ F B) as R.
    split; [|exact B']. apply Qabs_Qle_condition.
    assert (0 < step_q) by reflexivity. assert (0 < ulp1) by reflexivity.
    split; lra.
Qed.

(** ** The colours of the face *)

Lemma lerp_colour_valid (c1 c2 : string) (t : float) :
  valid_colour c1 = true -> valid_colour c2 = true ->
  (0 <=? t)%float = true -> (t <=? 1)%float = true ->
  exists out, _lerp_colour c1 c2 t = Some out /\ valid_colour out = true.
Proof.
  intros V1 V2 T0 T1.
  destruct (valid_colour_inv c1 V1)
    as (a1 & a2 & b1 & b2 & d1 & d2 & va1 & va2 & vb1 & vb2 & vd1 & vd2 &
        _ & Ha1 & Ha2 & Hb1 & Hb2 & Hd1 & Hd2 & C1).
  destruct (valid_colour_inv c2 V2)
    as (e1 & e2 & f1 & f2 & g1 & g2 & ve1 & ve2 & vf1 & vf2 & vg1 & vg2 &
        _ & He1 & He2 & Hf1 & Hf2 & Hg1 & Hg2 & C2).
  destruct (hex_pair_byte _ _ _ _ Ha1 Ha2) as [Ra _].
  destruct (hex_pair_byte _ _ _ _ Hb1 Hb2) as [Rb _].
  destruct (hex_pair_byte _ _ _ _ Hd1 Hd2) as [Rd _].
  destruct (hex_pair_byte _ _ _ _ He1 He2) as [Re _].
  destruct (hex_pair_byte _ _ _ _ Hf1 Hf2) as [Rf _].
  destruct (hex_pair_byte _ _ _ _ Hg1 Hg2) as [Rg _].
  destruct (lerp_colour_bytes c1 c2 t _ _ _ _ _ _ C1 C2 Ra Rb Rd Re Rf Rg T0 T1)
    as (r & g & b & E & Br & Bg & Bb & _).
  exists (String "#" (format_02x r ++ format_02x g ++ format_02x b)).
  split; [exact E|].
  apply (built_colour r g b);
    [exact (between_byte _ _ _ Ra Re Br) | exact (between_byte _ _ _ Rb Rf Bg) |
     exact (between_byte _ _ _ Rd Rg Bb)].
Qed.

Lemma one_minus_in_unit (t : float) :
  (0 <=? t)%float = true -> (t <=? 1)%float = true ->
  (0 <=? 1 - t)%float = true /\ (1 - t <=? 1)%float = true.
Proof.
  intros T0 T1. destruct (unit_interval t T0 T1) as [F [L U]].
  pose proof pow2_971_big as Big.
  destruct (sub_rounded 1 t finite_1 F) as [Fs Rs].
  { rewrite F2Q_one. split; lra. }
  rewrite F2Q_one in Rs.
  apply unit_interval_leb; [exact Fs|]. split.
  - apply (rounded_ge _ _ 0 Rs representable_0). lra.
  - apply (rounded_le _ _ 1 Rs representable_1). lra.
Qed.

Lemma blush_alpha_in_unit (t : float) :
  (0 <=? t)%float = true -> (t <=? 1)%float = true ->
  (0 <=? blush_alpha t)%float = true /\ (blush_alpha t <=? 1)%float = true.
Proof.
  intros T0 T1. destruct (unit_interval t T0 T1) as [F [L U]].
  pose proof pow2_971_big as Big.
  assert (E4 : F2Q 0x1.999999999999ap-2 == 7205759403792794 # 18014398509481984)
    by (vm_compute; reflexivity).
  assert (E3 : F2Q 0x1.3333333333333p-2 == 5404319552844595 # 18014398509481984)
    by (vm_compute; reflexivity).
  assert (F4 : finite 0x1.999999999999ap-2 = true) by (vm_compute; reflexivity).
  assert (F3 : finite 0x1.3333333333333p-2 = true) by (vm_compute; reflexivity).
  destruct (mul_rounded 0x1.999999999999ap-2 t F4 F) as [Fm Rm].
  { rewrite E4. split; nra. }
  assert (M0 : 0 <= F2Q (0x1.999999999999ap-2 * t)).
  { apply (rounded_ge _ _ 0 Rm representable_0). rewrite E4. nra. }
  assert (M1 : F2Q (0x1.999999999999ap-2 * t) <= F2Q 0x1.999999999999ap-2).
  { apply (rounded_le _ _ _ Rm (F2Q_representable _)). rewrite E4. nra. }
  rewrite E4 in M1.
  unfold blush_alpha.
  destruct (add_rounded 0x1.3333333333333p-2 (0x1.999999999999ap-2 * t) F3 Fm)
    as [Fa Ra].
  { rewrite E3. split; lra. }
  apply unit_interval_leb; [exact Fa|]. split.
  - apply (rounded_ge _ _ 0 Ra representable_0). rewrite E3. lra.
  - apply (rounded_le _ _ 1 Ra representable_1). rewrite E3. lra.
Qed.

Lemma flat_line (face_col outline_col : string) (t : float) :
  valid_colour face_col = true -> valid_colour outline_col = true ->
  (0 <=? t)%float = true -> (t <=? 1)%float = true ->
  exists line_col,
    _lerp_colour face_col outline_col (1 - t) = Some line_col /\
    valid_colour line_col = true.
Proof.
  intros Vf Vo T0 T1. destruct (one_minus_in_unit t T0 T1) as [A0 A1].
  exact (lerp_colour_valid _ _ _ Vf Vo A0 A1).
Qed.

Lemma eye_ok (face_col outline_col : string) (t : float) :
  valid_colour face_col = true -> valid_colour outline_col = true ->
  (0 <=? t)%float = true -> (t <=? 1)%float = true ->
  exists e, eye face_col outline_col t = Some e /\
            forallb item_ok e = true /\ (1 <= List.length e <= 2)%nat.
Proof.
  intros Vf Vo T0 T1.
  destruct (flat_line _ _ _ Vf Vo T0 T1) as (line_col & E & Vl).
  destruct (unit_interval t T0 T1) as [F _].
  unfold eye. cbv zeta. rewrite E.
  destruct (t <? 0x1.ccccccccccccdp-1)%float eqn:B;
    destruct (0x1.999999999999ap-4 <? t)%float eqn:A;
    eexists; (split; [reflexivity|]); simpl; rewrite ?Vo, ?Vl; simpl;
    try (split; [reflexivity | lia]).
  exfalso.
  apply ltb_false_iff in A; [|vm_compute; reflexivity | exact F].
  apply ltb_false_iff in B; [|exact F | vm_compute; reflexivity].
  assert (L : F2Q 0x1.999999999999ap-4 < F2Q 0x1.ccccccccccccdp-1)
    by (vm_compute; reflexivity).
  lra.
Qed.

Lemma mouth_ok (face_col outline_col : string) (t : float) :
  valid_colour face_col = true -> valid_colour outline_col = true ->
  (0 <=? t)%float = true -> (t <=? 1)%float = true ->
  exists m, mouth face_col outline_col t = Some m /\
            forallb item_ok m = true /\ (1 <= List.length m <= 2)%nat.
Proof.
  intros Vf Vo T0 T1.
  destruct (flat_line _ _ _ Vf Vo T0 T1) as (line_col & E & Vl).
  destruct (unit_interval t T0 T1) as [F _].
  unfold mouth. cbv zeta. rewrite E.
  destruct (t <? 0x1.e666666666666p-1)%float eqn:B;
    destruct (0x1.999999999999ap-5 <? t)%float eqn:A;
    eexists; (split; [reflexivity|]); simpl; rewrite ?Vo, ?Vl; simpl;
    try (split; [reflexivity | lia]).
  exfalso.
  apply ltb_false_iff in A; [|vm_compute; reflexivity | exact F].
  apply ltb_false_iff in B; [|exact F | vm_compute; reflexivity].
  assert (L : F2Q 0x1.999999999999ap-5 < F2Q 0x1.e666666666666p-1)
    by (vm_compute; reflexivity).
  lra.
Qed.

Lemma face_items_ok (t : float) :
  (0 <=? t)%float = true -> (t <=? 1)%float = true ->
  exists face_col outline_col blush_col e m,
    face_items t =
    Some ([Oval face_col outline_col; Oval blush_col ""; Oval blush_col ""]
          ++ e ++ e ++ m)%list /\
    valid_colour face_col = true /\ valid_colour outline_col = true /\
    valid_colour blush_col = true /\
    forallb item_ok e = true /\ forallb item_ok m = true /\
    (1 <= List.length e <= 2)%nat /\ (1 <= List.length m <= 2)%nat.
Proof.
  intros T0 T1.
  destruct (lerp_colour_valid PURPLE PINK t eq_refl eq_refl T0 T1)
    as (face_col & Ef & Vf).
  destruct (lerp_colour_valid PURPLE_DARK PINK_DARK t eq_refl eq_refl T0 T1)
    as (outline_col & Eo & Vo).
  destruct (blush_alpha_in_unit t T0 T1) as [A0 A1].
  destruct (lerp_colour_valid face_col "#FF8FAF" (blush_alpha t) Vf eq_refl A0 A1)
    as (blush_col & Eb & Vb).
  destruct (eye_ok _ _ t Vf Vo T0 T1) as (e & Ee & Oe & Le).
  destruct (mouth_ok _ _ t Vf Vo T0 T1) as (m & Em & Om & Lm).
  exists face_col, outline_col, blush_col, e, m.
  unfold face_items. rewrite Ef, Eo, Eb, Ee, Em.
  split; [reflexivity|]. tauto.
Qed.

(** X11.  Whatever is done to the overlay, painting the face does not raise:
    every colour computation of [_draw_face] succeeds and gives a valid
    colour, and the face is always made of its circle, two cheeks, two eyes of
    one or two strokes each and a mouth of one or two strokes. *)
Theorem draw_face_never_raises (calls : list call) :
  exists face_col outline_col blush_col e m,
    _draw_face (run calls init) =
    Some ([Oval face_col outline_col; Oval blush_col ""; Oval blush_col ""]
          ++ e ++ e ++ m)%list /\
    valid_colour face_col = true /\ valid_colour outline_col = true /\
    valid_colour blush_col = true /\
    forallb item_ok e = true /\ forallb item_ok m = true /\
    (1 <= List.length e <= 2)%nat /\ (1 <= List.length m <= 2)%nat.
Proof.
  destruct (sound_run calls init sound_init) as (L & U & _).
  exact (face_items_ok _ L U).
Qed.

End OverlayRunFacts.

(* ================================================================== *)
(** * More about [_lerp_colour]                                        *)
(* ================================================================== *)

Module ColourEdgeFacts.

Import B64 B64Facts Overlay FadeFacts ColourFacts.
Local Open Scope string_scope.

Lemma channels_six (h : ascii) (body tail : string) :
  String.length body = 6%nat ->
  channels (String h (body ++ tail)) = channels (String "#" body).
Proof.
  intros L.
  destruct body as [|a1 [|a2 [|a3 [|a4 [|a5 [|a6 [|a7 s]]]]]]]; try discriminate L.
  unfold channels. cbn [append substring]. destruct tail; reflexivity.
Qed.

(** X12.  [_lerp_colour] reads characters 1 to 6 of each colour and nothing
    else: the leading character is not checked to be a hash sign, and whatever
    follows the sixth digit is ignored. *)
Theorem lerp_colour_reads_six_digits (h h' : ascii) (body tail tail' other : string)
        (t : float) :
  String.length body = 6%nat ->
  _lerp_colour (String h (body ++ tail)) other t =
  _lerp_colour (String h' (body ++ tail')) other t /\
  _lerp_colour other (String h (body ++ tail)) t =
  _lerp_colour other (String h' (body ++ tail')) t.
Proof.
  intros L. unfold _lerp_colour.
  rewrite (channels_six h body tail L), (channels_six h' body tail' L).
  split; reflexivity.
Qed.

Lemma lerp_colour_reads_six_digits_witness :
  _lerp_colour "#9B59B6" PINK 0x1p-1 = _lerp_colour "x9B59B6ff" PINK 0x1p-1 /\
  _lerp_colour PINK "#9B59B6" 0x1p-1 = _lerp_colour PINK "x9B59B6ff" 0x1p-1.
Proof.
  exact (lerp_colour_reads_six_digits "#" "x" "9B59B6" "" "ff" PINK 0x1p-1 eq_refl).
Defined.

Lemma channels_short (c : string) :
  (String.length c <= 5)%nat -> channels c = None.
Proof.
  intros L. unfold channels.
  assert (E : substring 5 2 c = "").
  { destruct c as [|a0 [|a1 [|a2 [|a3 [|a4 [|a5 s]]]]]]; try reflexivity.
    simpl in L. lia. }
  rewrite E. simpl.
  destruct (int16 (substring 1 2 c)); [|reflexivity].
  destruct (int16 (substring 3 2 c)); reflexivity.
Qed.

Lemma int_of_float_nan (x y : float) :
  int_of_float (x + y * nan) = None.
Proof.
  unfold int_of_float.
  rewrite add_spec, mul_spec.
  change (Prim2SF nan) with S754_nan.
  assert (E : SF64mul (Prim2SF y) S754_nan = S754_nan)
    by (destruct (Prim2SF y); reflexivity).
  rewrite E. destruct (Prim2SF x); reflexivity.
Qed.

(** X13.  [_lerp_colour] raises when either colour has at most five
    characters (its last slice is empty), whatever the other colour and the
    factor; and it raises when the factor is NaN, whatever the two
    colours. *)
Theorem lerp_colour_raises :
  (forall (c other : string) (t : float),
     (String.length c <= 5)%nat ->
     _lerp_colour c other t = None /\ _lerp_colour other c t = None) /\
  (forall c1 c2 : string, _lerp_colour c1 c2 nan = None).
Proof.
  split.
  - intros c other t L. unfold _lerp_colour. rewrite (channels_short c L).
    split; [reflexivity|].
    destruct (channels other) as [[[r g] b]|]; reflexivity.
  - intros c1 c2. unfold _lerp_colour.
    destruct (channels c1) as [[[r1 g1] b1]|]; [|reflexivity].
    destruct (channels c2) as [[[r2 g2] b2]|]; [|reflexivity].
    unfold lerp_channel. rewrite !int_of_float_nan. reflexivity.
Qed.

Lemma lerp_colour_raises_witness :
  (String.length "#FF69" <= 5)%nat /\
  _lerp_colour "#FF69" PINK 0x1p-1 = None /\
  _lerp_colour PINK "#FF69" 0x1p-1 = None /\
  _lerp_colour PURPLE PINK nan = None.
Proof.
  assert (L : (String.length "#FF69" <= 5)%nat) by (simpl; lia).
  split; [exact L|].
  destruct (proj1 lerp_colour_raises "#FF69" PINK 0x1p-1 L) as [H1 H2].
  split; [exact H1|]. split; [exact H2|].
  exact (proj2 lerp_colour_raises PURPLE PINK).
Defined.

(** X14.  Blending a valid colour with itself gives that colour back, in
    lowercase, whatever the factor between 0 and 1. *)
Theorem lerp_colour_same (c : string) (t : float) :
  valid_colour c = true ->
  (0 <=? t)%float = true -> (t <=? 1)%float = true ->
  _lerp_colour c c t = Some (lowercase c).
Proof.
  intros V T0 T1.
  destruct (valid_colour_inv c V)
    as (a1 & a2 & b1 & b2 & d1 & d2 & va1 & va2 & vb1 & vb2 & vd1 & vd2 &
        -> & Ha1 & Ha2 & Hb1 & Hb2 & Hd1 & Hd2 & C).
  destruct (hex_pair_byte _ _ _ _ Ha1 Ha2) as [Ra Fa].
  destruct (hex_pair_byte _ _ _ _ Hb1 Hb2) as [Rb Fb].
  destruct (hex_pair_byte _ _ _ _ Hd1 Hd2) as [Rd Fd].
  destruct (lerp_colour_bytes _ _ t _ _ _ _ _ _ C C Ra Rb Rd Ra Rb Rd T0 T1)
    as (r & g & b & E & Br & Bg & Bb & _).
  unfold between in Br, Bg, Bb.
  assert (r = 16 * va1 + va2)%Z by lia.
  assert (g = 16 * vb1 + vb2)%Z by lia.
  assert (b = 16 * vd1 + vd2)%Z by lia.
  subst r g b. rewrite E, Fa, Fb, Fd. reflexivity.
Qed.

Lemma lerp_colour_same_witness :
  _lerp_colour PINK PINK 0x1.8p-2 = Some "#ff69b4".
Proof.
  exact (lerp_colour_same PINK 0x1.8p-2 eq_refl eq_refl eq_refl).
Defined.

End ColourEdgeFacts.

(* ================================================================== *)
(** * The coordinator catches up with the manager                      *)
(* ================================================================== *)

Module CoordinatorFacts.

Import Overlay App.

Lemma show_keeps (o : OverlayWindow) :
  Overlay._all_live (show o) = Overlay._all_live o /\
  _target_live (show o) = _target_live o.
Proof. unfold show. destruct (_visible o); split; reflexivity. Qed.

Lemma hide_keeps (o : OverlayWindow) :
  Overlay._all_live (hide o) = Overlay._all_live o /\
  _target_live (hide o) = _target_live o.
Proof. unfold hide. destruct (_visible o); split; reflexivity. Qed.

Lemma run_queue (q : list callback) :
  forall b,
    let r := fold_left (fun a f => invoke f a) q b in
    _all_live r = _all_live b /\ _connected r = _connected b /\
    _visible (overlay r) = vis_after q (_visible (overlay b)) /\
    (if has_ui q then shows (_all_live b) r
     else forall l, shows l b -> shows l r) /\
    (if has_ui q || has_menu q then tray_menu r = (_connected b, _all_live b)
     else tray_menu r = tray_menu b).
Proof.
  induction q as [|f q IH]; intros b; cbv zeta.
  - simpl. split; [reflexivity|]. split; [reflexivity|]. split; [reflexivity|].
    split; [intros l H; exact H | reflexivity].
  - cbn [fold_left]. destruct (IH (invoke f b)) as (L & C & V & S & M).
    assert (Fl : _all_live (invoke f b) = _all_live b) by (destruct f; reflexivity).
    assert (Fc : _connected (invoke f b) = _connected b) by (destruct f; reflexivity).
    rewrite Fl in L, S, M. rewrite Fc in C, M.
    split; [exact L|]. split; [exact C|]. split; [|split].
    + rewrite V. unfold vis_after. cbn [fold_left]. f_equal.
      destruct f; cbn [invoke with_overlay overlay _update_ui _update_tray_menu
                       _update_tray_icon set_state _visible];
        [apply AppFacts.show_visible | apply AppFacts.hide_visible |
         reflexivity | reflexivity].
    + change (has_ui (f :: q)) with (is_ui f || has_ui q).
      destruct (has_ui q).
      * rewrite orb_true_r. exact S.
      * rewrite orb_false_r. destruct f; cbn [is_ui].
        -- intros l (H1 & H2 & H3). apply S. unfold shows.
           cbn [invoke with_overlay overlay tray_icon].
           destruct (show_keeps (overlay b)) as [-> ->]. auto.
        -- intros l (H1 & H2 & H3). apply S. unfold shows.
           cbn [invoke with_overlay overlay tray_icon].
           destruct (hide_keeps (overlay b)) as [-> ->]. auto.
        -- apply S. unfold shows. cbn. auto.
        -- intros l H. apply S. exact H.
    + change (has_ui (f :: q)) with (is_ui f || has_ui q).
      change (has_menu (f :: q)) with (is_menu f || has_menu q).
      destruct (has_ui q || has_menu q) eqn:E.
      * replace ((is_ui f || has_ui q) || (is_menu f || has_menu q)) with true;
          [exact M|].
        symmetry. apply orb_true_iff in E. destruct E as [E|E]; rewrite E;
          rewrite ?orb_true_r; reflexivity.
      * apply orb_false_iff in E. destruct E as [E1 E2]. rewrite E1, E2.
        rewrite !orb_false_r. rewrite M. destruct f; reflexivity.
Qed.

Lemma settle (c l : bool) (a : MicBuddyApp) :
  on_its_way c l a -> caught_up c l (run_idle a).
Proof.
  intros (C & L & V & S & M). unfold run_idle.
  set (b := mkApp (_all_live a) (_connected a) (overlay a) [] (tray_icon a) (tray_menu a)).
  destruct (run_queue (idle a) b) as (L' & C' & V' & S' & M').
  cbn [b _all_live _connected overlay tray_menu] in L', C', V', S', M'.
  unfold caught_up. rewrite L', C', V'.
  split; [exact C|]. split; [exact L|]. split; [exact V|]. split; [|split].
  - destruct (has_ui (idle a)).
    + rewrite <- L. exact S'.
    + apply S'. exact (S eq_refl).
  - destruct (has_ui (idle a) || has_menu (idle a)).
    + rewrite M', C, L. reflexivity.
    + rewrite M'. exact (M eq_refl).
  - rewrite AppFacts.idle_fold. reflexivity.
Qed.

Lemma rest (c l : bool) (a : MicBuddyApp) :
  caught_up c l a -> on_its_way c l a.
Proof.
  intros (C & L & V & S & M & Q). unfold on_its_way. rewrite Q.
  split; [exact C|]. split; [exact L|]. split; [exact V|].
  split; intros _; assumption.
Qed.

Lemma vis_after_snoc (q : list callback) (f : callback) (v : bool) :
  vis_after (q ++ [f]) v =
  match f with
  | OverlayShow => true
  | OverlayHide => false
  | UpdateUi | UpdateTrayMenu => vis_after q v
  end.
Proof. unfold vis_after. rewrite fold_left_app. reflexivity. Qed.

Lemma has_ui_snoc (q : list callback) (f : callback) :
  has_ui (q ++ [f]) = has_ui q || is_ui f.
Proof. unfold has_ui. rewrite existsb_app. simpl. rewrite orb_false_r. reflexivity. Qed.

Lemma has_menu_snoc (q : list callback) (f : callback) :
  has_menu (q ++ [f]) = has_menu q || is_menu f.
Proof. unfold has_menu. rewrite existsb_app. simpl. rewrite orb_false_r. reflexivity. Qed.

Lemma deliver_on_its_way (c l : bool) (a : MicBuddyApp) (e : OBS.event) :
  on_its_way c l a ->
  on_its_way (match e with OBS.OnConn b => b | _ => c end)
             (match e with OBS.OnState s => s | _ => l end)
             (deliver a e).
Proof.
  intros (C & L & V & S & M). destruct e as [b|s|k|k]; cbn [deliver].
  - unfold on_its_way, _on_connection_change, after_idle.
    cbn [_all_live _connected overlay idle tray_icon tray_menu].
    rewrite !vis_after_snoc, !has_ui_snoc, !has_menu_snoc.
    cbn [is_ui is_menu]. rewrite !orb_false_r, !orb_true_r.
    split; [reflexivity|]. split; [exact L|].
    split; [destruct b; reflexivity|].
    split; [|discriminate].
    destruct b; cbn [is_ui]; rewrite orb_false_r; exact S.
  - unfold on_its_way, _on_state_change, after_idle.
    cbn [_all_live _connected overlay idle tray_icon tray_menu].
    rewrite !vis_after_snoc, !has_ui_snoc. cbn [is_ui].
    rewrite !orb_true_r.
    split; [exact C|]. split; [reflexivity|]. split; [exact V|].
    split; discriminate.
  - unfold on_its_way. auto.
  - unfold on_its_way. auto.
Qed.

Lemma last_state_snoc (tr : list OBS.event) (e : OBS.event) :
  last_state (tr ++ [e]) = match e with OBS.OnState s => s | _ => last_state tr end.
Proof. unfold last_state. rewrite fold_left_app. reflexivity. Qed.

Lemma happen_all (hs : list happening) :
  forall tr a,
    on_its_way (OBS.last_conn tr) (last_state tr) a ->
    on_its_way (OBS.last_conn (tr ++ signals hs)) (last_state (tr ++ signals hs))
               (fold_left happen hs a).
Proof.
  induction hs as [|h hs IH]; intros tr a H.
  - simpl. rewrite app_nil_r. exact H.
  - cbn [fold_left]. destruct h as [e|]; cbn [signals flat_map happen].
    + change (flat_map _ hs) with (signals hs).
      replace (tr ++ [e] ++ signals hs) with ((tr ++ [e]) ++ signals hs)
        by (rewrite <- app_assoc; reflexivity).
      apply IH. rewrite ManagerFacts.last_conn_snoc, last_state_snoc.
      apply deliver_on_its_way with (e := e) in H.
      destruct e; exact H.
    + change (flat_map _ hs) with (signals hs). cbn [app].
      apply IH, rest, settle, H.
Qed.

Lemma settled_caught_up (hs : list happening) :
  caught_up (OBS.last_conn (signals hs)) (last_state (signals hs)) (settled hs).
Proof.
  unfold settled. apply settle.
  apply (happen_all hs [] init).
  unfold on_its_way, init, shows. cbn. repeat split.
Qed.

(** X15.  However the manager's callbacks and the idle moments of the main
    loop interleave, once the loop has gone idle the coordinator agrees with
    the last signals: the connected flag, the visibility of the overlay and
    the first line of the menu say what the connectivity callback said last;
    the live flag, the overlay state and target, the tray colour and the
    second line of the menu say what the state callback said last. *)
Theorem coordinator_catches_up (hs : list happening) :
  let c := OBS.last_conn (signals hs) in
  let l := last_state (signals hs) in
  let a := settled hs in
  _connected a = c /\ _visible (overlay a) = c /\
  _all_live a = l /\ Overlay._all_live (overlay a) = l /\
  _target_live (overlay a) = (if l then 1 else 0)%float /\
  tray_icon a = (if l then PINK else PURPLE) /\
  tray_menu a = (c, l) /\ idle a = [].
Proof.
  cbv zeta. destruct (settled_caught_up hs) as (C & L & V & (S1 & S2 & S3) & M & Q).
  repeat split; assumption.
Qed.

(** X16.  The overlay follows the manager: when the coordinator has received
    the callbacks of any run of the manager's loop and the main loop has gone
    idle, the overlay is visible exactly when the manager is connected, and
    the coordinator's flag and menu say the same. *)
Theorem overlay_follows_manager (ticks : list OBS.Tick) (hs : list happening) :
  let w := snd (OBS._loop ticks OBS.init) in
  signals hs = OBS.trace w ->
  _visible (overlay (settled hs)) = OBS.connected w /\
  _connected (settled hs) = OBS.connected w /\
  fst (tray_menu (settled hs)) = OBS.connected w.
Proof.
  cbv zeta. intros E.
  destruct (settled_caught_up hs) as (C & _ & V & _ & M & _).
  destruct (ManagerFacts.after_loop ticks) as (_ & [T _] & _).
  unfold OBS.connected. rewrite T, <- E, C, V, M. repeat split.
Qed.

Lemma overlay_follows_manager_witness :
  signals [Signal (OBS.Opened 1%nat); Signal (OBS.OnConn true); GoIdle;
           Signal (OBS.OnState false)] =
  OBS.trace (snd (OBS._loop
    [OBS.mkTick true OBS.Refused (OBS.Accepted 1%nat)
       (OBS.mkServer (Ok None) (fun _ => Raise))] OBS.init)) /\
  _visible (overlay (settled
    [Signal (OBS.Opened 1%nat); Signal (OBS.OnConn true); GoIdle;
     Signal (OBS.OnState false)])) = true.
Proof.
  split; [reflexivity|].
  exact (proj1 (overlay_follows_manager
    [OBS.mkTick true OBS.Refused (OBS.Accepted 1%nat)
       (OBS.mkServer (Ok None) (fun _ => Raise))]
    [Signal (OBS.Opened 1%nat); Signal (OBS.OnConn true); GoIdle;
     Signal (OBS.OnState false)] eq_refl)).
Defined.

End CoordinatorFacts.

(* ================================================================== *)
(** * The saved position comes back                                    *)
(* ================================================================== *)

Module ConfigFacts.

Import Config.
Local Open Scope string_scope.

Lemma dict_get_set_same (k : string) (v : json) (d : list (string * json)) :
  dict_get k (dict_set k v d) = Some v.
Proof.
  induction d as [|[k' v'] rest IH]; simpl.
  - rewrite String.eqb_refl. reflexivity.
  - destruct (k' =? k) eqn:E; simpl.
    + rewrite String.eqb_refl. reflexivity.
    + rewrite E. exact IH.
Qed.

Lemma dict_get_set_other (k k' : string) (v : json) (d : list (string * json)) :
  k <> k' -> dict_get k (dict_set k' v d) = dict_get k d.
Proof.
  intros N. apply not_eq_sym in N. apply String.eqb_neq in N.
  induction d as [|[k0 v0] rest IH]; simpl.
  - rewrite N. reflexivity.
  - destruct (k0 =? k') eqn:E; simpl.
    + apply String.eqb_eq in E. subst k0. rewrite N. reflexivity.
    + destruct (k0 =? k); [reflexivity | exact IH].
Qed.

(** X17.  When the configuration is missing, unreadable or a JSON object and
    the write succeeds, [_save_position] stores the window position so that
    the next start places the window exactly there, and every other key of
    the configuration keeps its value. *)
Theorem saved_position_is_restored (f : file) (x y : Z) :
  is_object (load_config f) = true ->
  let f' := _save_position (Ok (x, y)) Written f in
  restore_position f' = Ok (Place (JInt x) (JInt y)) /\
  exists items items',
    load_config f = JObj items /\ load_config f' = JObj items' /\
    forall k, k <> "x" -> k <> "y" -> dict_get k items' = dict_get k items.
Proof.
  intros O. cbv zeta. unfold _save_position.
  destruct (load_config f) as [| | | | | |items] eqn:E; try discriminate O.
  cbn [save_config]. split.
  - unfold restore_position. cbn [load_config]. unfold get_or_none.
    rewrite dict_get_set_same.
    rewrite dict_get_set_other by discriminate.
    rewrite dict_get_set_same. reflexivity.
  - exists items. eexists. split; [reflexivity|]. split; [reflexivity|].
    intros k Nx Ny. rewrite !dict_get_set_other by assumption. reflexivity.
Qed.

Lemma saved_position_is_restored_witness :
  is_object (load_config (Holds (JObj [("theme", JStr "dark"); ("x", JNull)]))) = true /\
  restore_position
    (_save_position (Ok (1500, 20)%Z) Written
                    (Holds (JObj [("theme", JStr "dark"); ("x", JNull)]))) =
  Ok (Place (JInt 1500) (JInt 20)).
Proof.
  split; [reflexivity|].
  exact (proj1 (saved_position_is_restored
                  (Holds (JObj [("theme", JStr "dark"); ("x", JNull)]))
                  1500 20 eq_refl)).
Defined.

(** X18.  When the configuration file holds valid JSON that is not an object
    (a list, a string, a number, [true], [null]), [_save_position] never
    changes the file, whatever the window and the file system do, and the
    construction of the overlay raises. *)
Theorem config_that_is_not_an_object (f : file) (pos : exc (Z * Z)) (d : disk) :
  is_object (load_config f) = false ->
  _save_position pos d f = f /\ restore_position f = Raise.
Proof.
  intros O. unfold _save_position, restore_position.
  destruct (load_config f); try discriminate O;
    (split; [destruct pos as [[px py]|]; reflexivity | reflexivity]).
Qed.

Lemma config_that_is_not_an_object_witness :
  is_object (load_config (Holds (JList []))) = false /\
  _save_position (Ok (1500, 20)%Z) Written (Holds (JList [])) = Holds (JList []) /\
  restore_position (Holds (JList [])) = Raise.
Proof.
  split; [reflexivity|].
  exact (config_that_is_not_an_object (Holds (JList [])) (Ok (1500, 20)%Z)
                                      Written eq_refl).
Defined.

End ConfigFacts.
